(** * Reaction graphs of genome-scale metabolic models

    A shallow embedding of [mycogeneexplorer/metabolic_network.py] and of
    its later copy [mycogeneexplorer/network_analysis/reaction_network.py]
    (with [network_analysis/utils.py]), together with the argument parser
    of [scripts/create_metabolic_network.py].

    Python values that flow through pandas columns and JSON files are
    [scalar]s; fallible code runs in the error monad [res]; the cobra
    library (file loaders and flux variability analysis) is the interface
    [Cobra]; networkx graphs are [graph] with the insertion semantics of
    [add_node] / [add_edge]. Floating-point numbers are modelled by exact
    rationals [Q]. *)

From Stdlib Require Import List Permutation Sorted Relations String Ascii ZArith QArith Qabs Bool Lia.
Import ListNotations.
Local Open Scope string_scope.
Local Open Scope list_scope.

(* ------------------------------------------------------------------ *)
(** ** Python values and exceptions *)

Inductive py_error : Type :=
| AttributeError (msg : string)
| IndexError
| KeyError
| TypeError
| SystemExit (code : Z)
| ValueError (msg : string)
| LibraryError (msg : string).

Inductive res (A : Type) : Type :=
| Ok (a : A)
| Err (e : py_error).
Arguments Ok {A} a.
Arguments Err {A} e.

Definition bind {A B : Type} (m : res A) (f : A -> res B) : res B :=
  match m with
  | Ok a => f a
  | Err e => Err e
  end.

Notation "x <- m ;; k" := (bind m (fun x => k))
  (at level 61, m at next level, right associativity).

Fixpoint mapM {A B : Type} (f : A -> res B) (l : list A) : res (list B) :=
  match l with
  | [] => Ok []
  | x :: t => y <- f x ;; ys <- mapM f t ;; Ok (y :: ys)
  end.

(** Scalars: the values held by a pandas cell, a dict entry or a JSON
    leaf ([None], [bool], [int], [float], [str]), the list of strings
    argparse stores for some command lines, and a numpy [int64] (what
    pandas yields for a value of an [int64] column). *)
Inductive scalar : Type :=
| SNone
| SBool (b : bool)
| SInt (z : Z)
| SFloat (q : Q)
| SStr (s : string)
| SList (items : list string)
| SNpInt (z : Z).

Definition Q_eq_dec (x y : Q) : {x = y} + {x <> y}.
Proof. decide equality; [apply Pos.eq_dec | apply Z.eq_dec]. Defined.

Definition scalar_eq_dec (x y : scalar) : {x = y} + {x <> y}.
Proof.
  decide equality;
    first [apply bool_dec | apply Z.eq_dec | apply Q_eq_dec | apply string_dec
          | apply (list_eq_dec string_dec)].
Defined.

Definition scalar_eqb (x y : scalar) : bool :=
  if scalar_eq_dec x y then true else false.

(** Python truthiness of a scalar. *)
Definition truthy (v : scalar) : bool :=
  match v with
  | SNone => false
  | SBool b => b
  | SInt z => negb (Z.eqb z 0)
  | SFloat q => negb (Qeq_bool q 0)
  | SStr s => negb (String.eqb s "")
  | SList l => match l with [] => false | _ :: _ => true end
  | SNpInt z => negb (Z.eqb z 0)
  end.

(** Strict comparison of floats, [x < y]. *)
Definition qlt (x y : Q) : bool := negb (Qle_bool y x).

(** A Python dict with string keys, in insertion order. *)
Definition dict := list (string * scalar).

Fixpoint dict_get (d : dict) (k : string) : option scalar :=
  match d with
  | [] => None
  | (k', v) :: t => if String.eqb k k' then Some v else dict_get t k
  end.

(** [d[k] = v]: overwrite in place, or append a new key. *)
Fixpoint dict_set (d : dict) (k : string) (v : scalar) : dict :=
  match d with
  | [] => [(k, v)]
  | (k', v') :: t =>
      if String.eqb k k' then (k', v) :: t else (k', v') :: dict_set t k v
  end.

(** [d.update(new)]. *)
Definition dict_update (d new : dict) : dict :=
  fold_left (fun acc kv => dict_set acc (fst kv) (snd kv)) new d.

(* ------------------------------------------------------------------ *)
(** ** Cobra models *)

(** A cobra [Reaction]: its id, its [metabolites] dict (metabolite id to
    stoichiometric coefficient) and its bounds. *)
Record reaction : Type := mkReaction {
  r_id : string;
  r_metabolites : list (string * Q);
  lower_bound : Q;
  upper_bound : Q
}.

(** cobra: [reversibility = lower_bound < 0 < upper_bound]. *)
Definition reversibility (r : reaction) : bool :=
  qlt (lower_bound r) 0 && qlt 0 (upper_bound r).

(** [rxn.get_coefficient(met_id)]. *)
Definition get_coefficient (r : reaction) (m : string) : res Q :=
  match find (fun mc => String.eqb (fst mc) m) (r_metabolites r) with
  | Some (_, c) => Ok c
  | None => Err KeyError
  end.

(** A cobra [Model]: its [reactions]. *)
Definition model := list reaction.

(** The result of [flux_variability_analysis]: a DataFrame indexed by
    reaction id with the columns [minimum] and [maximum]. *)
Definition fva_table := list (string * (Q * Q)).

Definition fva_loc (t : fva_table) (rxn_name : string) : res (Q * Q) :=
  match find (fun x => String.eqb (fst x) rxn_name) t with
  | Some (_, mm) => Ok mm
  | None => Err KeyError
  end.

(** What may be passed as [model]: a cobra model object, a path string,
    or an open file object (identified by a handle). *)
Inductive model_input : Type :=
| InModel (m : model)
| InPath (path : string)
| InFile (handle : nat)
| InList (items : list string).

(** The cobra library as used by the repository: the four file loaders
    of [cobra.io] and [cobra.flux_analysis.flux_variability_analysis]
    (arguments: model, loopless, fraction_of_optimum). *)
Class Cobra : Type := {
  load_json_model : model_input -> res model;
  read_sbml_model : model_input -> res model;
  load_yaml_model : model_input -> res model;
  load_matlab_model : model_input -> res model;
  flux_variability_analysis : model -> bool -> Q -> res fva_table
}.

(* ------------------------------------------------------------------ *)
(** ** [load_cobra_model_from_file] (identical in both copies) *)

Definition is_lower (c : ascii) : bool :=
  (97 <=? nat_of_ascii c)%nat && (nat_of_ascii c <=? 122)%nat.

(** The characters before the first ["."] and whether a ["."] occurs. *)
Fixpoint take_until_dot (l : list ascii) : list ascii * bool :=
  match l with
  | [] => ([], false)
  | c :: t =>
      if ascii_dec c "." then ([], true)
      else let (x, f) := take_until_dot t in (c :: x, f)
  end.

(** [re.findall("\.[a-z]+$", s)]: at most one match, the last ["."]
    followed by lower-case letters up to the end of the string, or up to a
    final newline (where [$] also matches). *)
Definition findall_ext (s : string) : list string :=
  let cs := list_ascii_of_string s in
  let body := match rev cs with
              | c :: r => if ascii_dec c "010"%char then rev r else cs
              | [] => cs
              end in
  let (ext_rev, found) := take_until_dot (rev body) in
  if found && negb (Nat.eqb (List.length ext_rev) 0) && forallb is_lower ext_rev
  then [String "." (string_of_list_ascii (rev ext_rev))]
  else [].

(** [not file_type]: [None] and [""] are falsy. *)
Definition falsy_str (ft : option string) : bool :=
  match ft with
  | None => true
  | Some s => String.eqb s ""
  end.

Definition in_names (t : string) (l : list string) : bool :=
  existsb (String.eqb t) l.

Definition load_cobra_model_from_file `{Cobra} (model_in : model_input)
    (file_type : option string) : res (option model) :=
  ft <- (match model_in with
         | InPath s =>
             if falsy_str file_type then
               match rev (findall_ext s) with
               | [] => Err IndexError
               | x :: _ => Ok (Some (substring 1 (String.length x) x))
               end
             else Ok file_type
         | _ => Ok file_type
         end) ;;
  if falsy_str ft
  then Err (AttributeError "If model isn't str, must provide file_type")
  else
    let t := match ft with Some t => t | None => ""%string end in
    if in_names t ["JSON"; "json"; ".json"] then
      m <- load_json_model model_in ;; Ok (Some m)
    else if in_names t ["sbml"; "xml"; "SBML"; ".xml"] then
      m <- read_sbml_model model_in ;; Ok (Some m)
    else if in_names t ["yaml"; ".yml"; "YAML"] then
      m <- load_yaml_model model_in ;; Ok (Some m)
    else if in_names t ["matlab"; "mat"; ".mat"; "Matlab"; "MatLab"] then
      m <- load_matlab_model model_in ;; Ok (Some m)
    else Ok None.

(* ------------------------------------------------------------------ *)
(** ** The reaction/metabolite DataFrame and [groupby] *)

(** A row of [rxn_met_df] in [find_directed_edges_from_model]. *)
Record row : Type := mkRow {
  rxn : scalar;
  met : string;
  reversible : bool;
  coefficient : Q;
  flux_max : Q;
  flux_min : Q
}.

(** The rows contributed by one reaction (one per metabolite). *)
Definition reaction_rows (fva_results : fva_table) (r : reaction)
    : res (list row) :=
  mapM (fun mc =>
          let met_name := fst mc in
          c <- get_coefficient r met_name ;;
          mm <- fva_loc fva_results (r_id r) ;;
          Ok (mkRow (SStr (r_id r)) met_name (reversibility r) c
                    (snd mm) (fst mm)))
       (r_metabolites r).

Fixpoint insert_str (s : string) (l : list string) : list string :=
  match l with
  | [] => [s]
  | x :: t => if String.leb s x then s :: l else x :: insert_str s t
  end.

Definition sort_str (l : list string) : list string :=
  fold_right insert_str [] l.

(** [df.groupby(key)] on a string column: the keys in ascending order,
    each with its rows in their original order. *)
Definition groupby {A : Type} (key : A -> string) (rows : list A)
    : list (string * list A) :=
  map (fun k => (k, filter (fun r => String.eqb (key r) k) rows))
      (sort_str (nodup string_dec (map key rows))).

(* ------------------------------------------------------------------ *)
(** ** Sources and sinks of one metabolite *)

(** A row of a source or sink DataFrame, after [flux_max] or [flux_min]
    has been renamed [flux]. *)
Record entry : Type := mkEntry {
  e_rxn : scalar;
  e_met : scalar;
  e_coefficient : Q;
  e_flux : Q
}.

(** The two copies of the algorithm. *)
Inductive impl : Type :=
| MetabolicNetwork   (* mycogeneexplorer/metabolic_network.py *)
| ReactionNetwork.   (* mycogeneexplorer/network_analysis/reaction_network.py *)

(** [flux_max] renamed [flux]. *)
Definition flux_from_max (r : row) : entry :=
  mkEntry (rxn r) (SStr (met r)) (coefficient r) (flux_max r).

(** [flux_min] renamed [flux], then coefficient and flux negated. *)
Definition flux_from_min_negated (r : row) : entry :=
  mkEntry (rxn r) (SStr (met r)) (- coefficient r) (- flux_min r).

Definition irreversible_df (df : list row) : list row :=
  filter (fun r => negb (reversible r)) df.

Definition reversible_df (df : list row) : list row :=
  filter reversible df.

Definition sources_irreversible_df (df : list row) : list entry :=
  map flux_from_max
      (filter (fun r => qlt 0 (coefficient r)) (irreversible_df df)).

Definition sinks_irreversible_df (df : list row) : list entry :=
  map flux_from_max
      (filter (fun r => qlt (coefficient r) 0) (irreversible_df df)).

(** reaction_network.py:
    [sources_irreversible_df.loc[sources_irreversible_df["flux"] < 0] = 0]
    assigns [0] to every column of the selected rows. *)
Definition zero_row : entry := mkEntry (SInt 0) (SInt 0) 0 0.

Definition clamp_negative_flux (e : entry) : entry :=
  if qlt (e_flux e) 0 then zero_row else e.

Definition reversible_source_pos_coef_df (df : list row) : list entry :=
  map flux_from_max
      (filter (fun r => qlt 0 (coefficient r) && qlt 0 (flux_max r))
              (reversible_df df)).

Definition reversible_source_neg_coef_df (df : list row) : list entry :=
  map flux_from_min_negated
      (filter (fun r => qlt (coefficient r) 0 && qlt (flux_min r) 0)
              (reversible_df df)).

Definition reversible_sink_pos_coef_df (df : list row) : list entry :=
  map flux_from_min_negated
      (filter (fun r => qlt 0 (coefficient r) && qlt (flux_min r) 0)
              (reversible_df df)).

Definition reversible_sink_neg_coef_df (df : list row) : list entry :=
  map flux_from_max
      (filter (fun r => qlt (coefficient r) 0 && qlt 0 (flux_max r))
              (reversible_df df)).

Definition source_df (i : impl) (df : list row) : list entry :=
  match i with
  | MetabolicNetwork => sources_irreversible_df df
  | ReactionNetwork => map clamp_negative_flux (sources_irreversible_df df)
  end
  ++ reversible_source_pos_coef_df df ++ reversible_source_neg_coef_df df.

Definition sinks_df (df : list row) : list entry :=
  sinks_irreversible_df df ++ reversible_sink_pos_coef_df df
  ++ reversible_sink_neg_coef_df df.

(* ------------------------------------------------------------------ *)
(** ** Candidate edges *)

Record candidate : Type := mkCandidate {
  c_source : scalar;
  c_sink : scalar;
  c_weight : Q;
  c_metabolite : string
}.

(** [np.power(10., -30)]. *)
Definition epsilon : Q := 1 # (10 ^ 30).

(** [np.reciprocal]. *)
Definition np_reciprocal (x : Q) : Q := Qinv x.

(** The weight computed from the source row found for a pair. *)
Definition edge_weight (reciprocal_weight : bool) (e : entry) : Q :=
  if reciprocal_weight
  then np_reciprocal (e_flux e * e_coefficient e + epsilon)
  else e_flux e * e_coefficient e.

(** [source_df.loc[source_df["rxn"] == source, ...].values[0]]: the first
    source row with that reaction. *)
Definition loc_source (src : list entry) (s : scalar) : res entry :=
  match find (fun e => scalar_eqb (e_rxn e) s) src with
  | Some e => Ok e
  | None => Err IndexError
  end.

(** The loop over [itertools.product(source_df["rxn"], sinks_df["rxn"])]
    for the group of [metabolite]. *)
Definition metabolite_candidates (reciprocal_weight : bool)
    (metabolite : string) (src snk : list entry) : res (list candidate) :=
  mapM (fun p =>
          e <- loc_source src (fst p) ;;
          Ok (mkCandidate (fst p) (snd p)
                          (edge_weight reciprocal_weight e) metabolite))
       (list_prod (map e_rxn src) (map e_rxn snk)).

(* ------------------------------------------------------------------ *)
(** ** Edge resolution *)

(** An edge tuple [(source, sink, attributes)]. *)
Record edge : Type := mkEdge {
  source : scalar;
  sink : scalar;
  attrs : dict
}.

Definition pair_key (c : candidate) : scalar * scalar :=
  (c_source c, c_sink c).

Definition pair_eq_dec (x y : scalar * scalar) : {x = y} + {x <> y}.
Proof. decide equality; apply scalar_eq_dec. Defined.

Definition pair_eqb (x y : scalar * scalar) : bool :=
  if pair_eq_dec x y then true else false.

(** [edge_weight_df.groupby(["source", "sink"])]: each key with its rows
    in their original order. (pandas visits the keys in sorted order; the
    order of the groups does not change what any group yields.) *)
Definition candidate_groups (cs : list candidate)
    : list ((scalar * scalar) * list candidate) :=
  map (fun k => (k, filter (fun c => pair_eqb (pair_key c) k) cs))
      (nodup pair_eq_dec (map pair_key cs)).

(** [Series.min()] and [Series.max()]. *)
Fixpoint series_min (acc : Q) (l : list Q) : Q :=
  match l with
  | [] => acc
  | x :: t => series_min (if Qle_bool acc x then acc else x) t
  end.

Fixpoint series_max (acc : Q) (l : list Q) : Q :=
  match l with
  | [] => acc
  | x :: t => series_max (if Qle_bool x acc then acc else x) t
  end.

Definition resolved_edge (k : scalar * scalar) (c : candidate) : edge :=
  mkEdge (fst k) (snd k)
         [("weight", SFloat (c_weight c)); ("metabolite", SStr (c_metabolite c))].

(** One group: kept as is when alone, otherwise the first row whose weight
    equals the minimum (reciprocal weights) or the maximum. *)
Definition resolve_group (reciprocal_weight : bool) (k : scalar * scalar)
    (df : list candidate) : res edge :=
  match df with
  | [c] => Ok (resolved_edge k c)
  | _ =>
      let target :=
        match map c_weight df with
        | [] => 0
        | w :: ws =>
            if reciprocal_weight then series_min w ws else series_max w ws
        end in
      match find (fun c => Qeq_bool (c_weight c) target) df with
      | Some c => Ok (resolved_edge k c)
      | None => Err IndexError
      end
  end.

(** The body of the final loop; reaction_network.py skips
    [source == sink]. *)
Definition resolve_step (i : impl) (reciprocal_weight : bool)
    (kg : (scalar * scalar) * list candidate) : res (list edge) :=
  match i with
  | MetabolicNetwork =>
      e <- resolve_group reciprocal_weight (fst kg) (snd kg) ;; Ok [e]
  | ReactionNetwork =>
      if scalar_eqb (fst (fst kg)) (snd (fst kg)) then Ok []
      else e <- resolve_group reciprocal_weight (fst kg) (snd kg) ;; Ok [e]
  end.

Definition resolve_edges (i : impl) (reciprocal_weight : bool)
    (cs : list candidate) : res (list edge) :=
  rs <- mapM (resolve_step i reciprocal_weight) (candidate_groups cs) ;;
  Ok (List.concat rs).

(** The candidates of all metabolite groups, in the order produced. *)
Definition all_candidates (i : impl) (reciprocal_weight : bool)
    (rxn_met_df : list row) : res (list candidate) :=
  css <- mapM (fun g => metabolite_candidates reciprocal_weight (fst g)
                          (source_df i (snd g)) (sinks_df (snd g)))
              (groupby met rxn_met_df) ;;
  Ok (List.concat css).

Definition is_py_int (v : scalar) : bool :=
  match v with
  | SInt _ => true
  | _ => false
  end.

Definition to_int64 (v : scalar) : scalar :=
  match v with
  | SInt z => SNpInt z
  | _ => v
  end.

(** [edge_weight_df = pd.DataFrame(edge_weight_dict)]: the column
    [source] gets the dtype [int64] when every value in it is a Python
    [int] (the reaction id [0] written by the clamp of reaction_network.py),
    and [groupby(["source", "sink"])] then yields its values as numpy
    [int64] scalars; a column that mixes ints and strings keeps the Python
    objects. The column [sink] holds reaction ids only. *)
Definition source_column (cs : list candidate) : list candidate :=
  if forallb (fun c => is_py_int (c_source c)) cs
  then map (fun c => mkCandidate (to_int64 (c_source c)) (c_sink c)
                                 (c_weight c) (c_metabolite c)) cs
  else cs.

Definition find_directed_edges_from_model `{Cobra} (i : impl) (m : model)
    (reciprocal_weight do_loopless : bool) (fva_prop : Q) : res (list edge) :=
  fva_results <- flux_variability_analysis m do_loopless fva_prop ;;
  rowss <- mapM (reaction_rows fva_results) m ;;
  cs <- all_candidates i reciprocal_weight (List.concat rowss) ;;
  resolve_edges i reciprocal_weight (source_column cs).

(* ------------------------------------------------------------------ *)
(** ** Undirected edges *)

(** [itertools.combinations(l, 2)]. *)
Fixpoint combinations2 {A : Type} (l : list A) : list (A * A) :=
  match l with
  | [] => []
  | x :: t => map (fun y => (x, y)) t ++ combinations2 t
  end.

(** The [(rxn, met)] rows of [find_edges_from_model]. *)
Definition rxn_met_pairs (m : model) : list (scalar * string) :=
  List.concat (map (fun r => map (fun mc => (SStr (r_id r), fst mc))
                            (r_metabolites r)) m).

(** reaction_network.py keeps only the pairs with [i != j]. *)
Definition find_edges_from_model (i : impl) (m : model) : list edge :=
  List.concat
    (map (fun g =>
            let pairs := combinations2 (map fst (snd g)) in
            let pairs := match i with
                         | MetabolicNetwork => pairs
                         | ReactionNetwork =>
                             filter (fun p => negb (scalar_eqb (fst p) (snd p)))
                                    pairs
                         end in
            map (fun p => mkEdge (fst p) (snd p) [("metabolite", SStr (fst g))])
                pairs)
         (groupby snd (rxn_met_pairs m))).

(* ------------------------------------------------------------------ *)
(** ** networkx graphs *)

(** A [Graph] ([directed = false]) or [DiGraph]: nodes in insertion order
    and edges with their attribute dicts; an undirected edge is stored once,
    in the orientation it was first added. *)
Record graph : Type := mkGraph {
  directed : bool;
  nodes : list scalar;
  edges : list edge
}.

Definition empty_graph (d : bool) : graph := mkGraph d [] [].

Definition has_node (g : graph) (n : scalar) : bool :=
  existsb (scalar_eqb n) (nodes g).

Definition add_node (g : graph) (n : scalar) : graph :=
  if has_node g n then g else mkGraph (directed g) (nodes g ++ [n]) (edges g).

(** Whether the stored edge [e] is the edge [(u, v)]. *)
Definition same_pair (d : bool) (u v : scalar) (e : edge) : bool :=
  (scalar_eqb (source e) u && scalar_eqb (sink e) v)
  || (negb d && scalar_eqb (source e) v && scalar_eqb (sink e) u).

(** [G.add_edge(u, v, **attr)]: adds the missing end points, then updates
    the attribute dict of an existing edge or stores a new one. *)
Definition add_edge (g : graph) (u v : scalar) (a : dict) : graph :=
  let g1 := add_node (add_node g u) v in
  if existsb (same_pair (directed g1) u v) (edges g1)
  then mkGraph (directed g1) (nodes g1)
         (map (fun e => if same_pair (directed g1) u v e
                        then mkEdge (source e) (sink e) (dict_update (attrs e) a)
                        else e) (edges g1))
  else mkGraph (directed g1) (nodes g1) (edges g1 ++ [mkEdge u v a]).

Definition add_edges_from (g : graph) (es : list edge) : graph :=
  fold_left (fun g e => add_edge g (source e) (sink e) (attrs e)) es g.

Definition add_nodes (g : graph) (ns : list scalar) : graph :=
  fold_left add_node ns g.

(* ------------------------------------------------------------------ *)
(** ** Graph construction *)

(** The model used by [create_*]: a model object as is, anything else
    through [load_cobra_model_from_file] ([None] then fails on
    [.reactions]). *)
Definition get_model `{Cobra} (model_in : model_input)
    (file_type : option string) : res model :=
  match model_in with
  | InModel m => Ok m
  | _ =>
      mo <- load_cobra_model_from_file model_in file_type ;;
      match mo with
      | Some m => Ok m
      | None => Err (AttributeError "'NoneType' object has no attribute 'reactions'")
      end
  end.

Definition reaction_nodes (m : model) : list scalar :=
  map (fun r => SStr (r_id r)) m.

(** [create_metabolic_network] / [create_reaction_network]. *)
Definition create_metabolic_network `{Cobra} (i : impl)
    (model_in : model_input) (file_type : option string) : res graph :=
  m <- get_model model_in file_type ;;
  let g := add_nodes (empty_graph false) (reaction_nodes m) in
  Ok (add_edges_from g (find_edges_from_model i m)).

(** [create_directed_metabolic_network] /
    [create_directed_reaction_network]. *)
Definition create_directed_metabolic_network `{Cobra} (i : impl)
    (model_in : model_input) (file_type : option string)
    (reciprocal_weight do_loopless : bool) (fva_prop : Q) : res graph :=
  m <- get_model model_in file_type ;;
  let g := add_nodes (empty_graph true) (reaction_nodes m) in
  es <- find_directed_edges_from_model i m reciprocal_weight do_loopless fva_prop ;;
  Ok (add_edges_from g es).

(* ------------------------------------------------------------------ *)
(** ** Node-link JSON documents *)

(** The document [nx.node_link_data] builds and [json.dump] writes; the
    JSON text encoding of these values ([None], booleans, ints, floats by
    [repr], strings, lists and string-keyed dicts) is read back unchanged
    by [json.load], so the file is modelled by the document itself.
    [nl_directed] and [nl_multigraph] are [None] when the key is absent. *)
Record node_link_doc : Type := mkDoc {
  nl_directed : option scalar;
  nl_multigraph : option scalar;
  nl_graph : dict;
  nl_nodes : list dict;
  nl_links : list dict
}.

(** One entry of [data["links"]]: the edge's attribute dict updated with
    its end points. *)
Definition link_of (e : edge) : dict :=
  dict_update (attrs e) [("source", source e); ("target", sink e)].

(** [nx.node_link_data(G)] with the edges listed as [l]: the nodes come in
    insertion order; networkx lists the edges by adjacency (and an
    undirected edge in either orientation), see [edge_listing] below. *)
Definition node_link_data_of (g : graph) (l : list edge) : node_link_doc :=
  mkDoc (Some (SBool (directed g))) (Some (SBool false)) []
        (map (fun n => [("id", n)]) (nodes g))
        (map link_of l).

(** The document with the edges in their stored order. *)
Definition node_link_data (g : graph) : node_link_doc :=
  node_link_data_of g (edges g).

Definition flip_edge (e : edge) : edge := mkEdge (sink e) (source e) (attrs e).

(** [e] lists the stored edge [e0]: as is, or reversed in a [Graph]. *)
Definition listed_as (d : bool) (e e0 : edge) : Prop :=
  e = e0 \/ (d = false /\ e = flip_edge e0).

(** [l] lists the stored edges [es] in some order. *)
Definition edge_listing (d : bool) (l es : list edge) : Prop :=
  exists l0, Permutation l0 es /\ Forall2 (listed_as d) l l0.

(** [json.dump]: a numpy [int64] is not JSON serializable and raises
    [TypeError]; the other values of a document are written. *)
Definition json_value_ok (v : scalar) : bool :=
  match v with
  | SNpInt _ => false
  | _ => true
  end.

Definition json_dict_ok (d : dict) : bool :=
  forallb (fun kv => json_value_ok (snd kv)) d.

Definition json_option_ok (o : option scalar) : bool :=
  match o with
  | Some v => json_value_ok v
  | None => true
  end.

Definition json_dump (doc : node_link_doc) : res node_link_doc :=
  if json_option_ok (nl_directed doc) && json_option_ok (nl_multigraph doc)
     && json_dict_ok (nl_graph doc) && forallb json_dict_ok (nl_nodes doc)
     && forallb json_dict_ok (nl_links doc)
  then Ok doc
  else Err TypeError.

(** [write_network]: the document stored in the file, or the error of
    [json.dump]. *)
Definition write_network (network : graph) : res node_link_doc :=
  json_dump (node_link_data network).

Definition dict_remove (d : dict) (k : string) : dict :=
  filter (fun kv => negb (String.eqb (fst kv) k)) d.

Definition dict_item (d : dict) (k : string) : res scalar :=
  match dict_get d k with
  | Some v => Ok v
  | None => Err KeyError
  end.

(** networkx refuses [None] as a node: [G.add_node] and [G.add_edge]
    raise [ValueError("None cannot be a node")]. *)
Definition none_node_error : py_error := ValueError "None cannot be a node".

Definition is_none (v : scalar) : bool :=
  match v with
  | SNone => true
  | _ => false
  end.

(** [G.add_edge(src, tgt, **edgedata)] as [node_link_graph] calls it. *)
Definition add_edge_checked (g : graph) (u v : scalar) (a : dict) : res graph :=
  if is_none u || is_none v then Err none_node_error else Ok (add_edge g u v a).

(** The loop over [data["links"]] of [nx.node_link_graph]. *)
Definition add_link (acc : res graph) (d : dict) : res graph :=
  g <- acc ;;
  src <- dict_item d "source" ;;
  tgt <- dict_item d "target" ;;
  let edgedata := dict_remove (dict_remove d "source") "target" in
  add_edge_checked g src tgt edgedata.

(** [node = to_tuple(d.get("id", next(c)))]: the default argument is
    evaluated at every node, so the counter [c] is the node's position and
    a node without an [id] is named by it; [to_tuple] leaves the scalars of
    this model as they are (a list stands for its tuple). *)
Definition doc_node_id (k : nat) (d : dict) : scalar :=
  match dict_get d "id" with
  | Some n => n
  | None => SInt (Z.of_nat k)
  end.

(** The loop over [data["nodes"]]: [graph.add_node(node, **nodedata)]; the
    node attributes are not kept by this model. *)
Fixpoint add_doc_nodes (g : graph) (k : nat) (ds : list dict) : res graph :=
  match ds with
  | [] => Ok g
  | d :: t =>
      let node := doc_node_id k d in
      if is_none node then Err none_node_error
      else add_doc_nodes (add_node g node) (S k) t
  end.

(** The node names [node_link_graph] reads, the [k]th node first. *)
Fixpoint doc_node_ids (k : nat) (ds : list dict) : list scalar :=
  match ds with
  | [] => []
  | d :: t => doc_node_id k d :: doc_node_ids (S k) t
  end.

(** [nx.node_link_graph(data, directed)]: the [multigraph] and [directed]
    keys of the document win over the defaults. A [MultiGraph] result is
    outside this model and yields an error value. *)
Definition node_link_graph (data : node_link_doc) (directed0 : bool)
    : res graph :=
  let multigraph := match nl_multigraph data with
                    | Some v => truthy v
                    | None => true
                    end in
  let is_directed := match nl_directed data with
                     | Some v => truthy v
                     | None => directed0
                     end in
  if multigraph then Err (LibraryError "MultiGraph")
  else
    g <- add_doc_nodes (empty_graph is_directed) 0 (nl_nodes data) ;;
    fold_left add_link (nl_links data) (Ok g).

(** [read_network(in_file, directed=False)]. *)
Definition read_network (in_file : node_link_doc) (directed0 : bool)
    : res graph :=
  node_link_graph in_file directed0.

(* ------------------------------------------------------------------ *)
(** ** The command line of [scripts/create_metabolic_network.py] *)

Inductive arg_action : Type :=
| Store       (* takes one value *)
| StoreTrue.  (* [action="store_true"] *)

Record argument : Type := mkArgument {
  option_strings : list string;
  dest : string;
  action : arg_action;
  default : scalar
}.

(** The parser built by [arg_parse]. *)
Definition parser_arguments : list argument :=
  [ mkArgument ["-i"; "--input"] "input_file" Store (SStr "");
    mkArgument ["-o"; "--output"] "output_file" Store (SStr "");
    mkArgument ["-f"; "--file-type"] "file_type" Store SNone;
    mkArgument ["-d"; "--directed"] "directed" StoreTrue (SBool false);
    mkArgument ["-v"; "--verbose"] "verbose" StoreTrue (SBool false);
    mkArgument ["-r"; "--reciprocal"] "reciprocal" StoreTrue (SBool true);
    mkArgument ["-p"; "--fva-proportion"] "fva_prop" Store (SFloat (95 # 100));
    mkArgument ["-l"; "--loopless"] "loopless" StoreTrue (SBool false) ].

Definition namespace := dict.

Definition default_namespace (args : list argument) : namespace :=
  map (fun a => (dest a, default a)) args.

(** The actions of the parser: the help action [ArgumentParser] adds
    first ([-h], [--help]), then those of the [add_argument] calls. *)
Inductive parser_action : Type :=
| HelpAction
| ArgAction (a : argument).

(** [parser._option_string_actions]: every option string with its action,
    in the order the actions were added. *)
Definition option_string_actions (args : list argument)
    : list (string * parser_action) :=
  [("-h", HelpAction); ("--help", HelpAction)]
  ++ List.concat (map (fun a => map (fun o => (o, ArgAction a)) (option_strings a))
                      args).

(** [option_string in self._option_string_actions] and the lookup. *)
Definition lookup_option (args : list argument) (s : string)
    : option parser_action :=
  match find (fun p => String.eqb (fst p) s) (option_string_actions args) with
  | Some p => Some (snd p)
  | None => None
  end.

(** An option tuple [(action, option_string, explicit_arg)]; the action is
    [None] for an option string the parser does not know. *)
Record option_tuple : Type := mkOptionTuple {
  ot_action : option parser_action;
  ot_string : string;
  ot_explicit : option string
}.

(** [c in self.prefix_chars]: the parser's prefix characters are ["-"]. *)
Definition is_dash (c : ascii) : bool :=
  if ascii_dec c "-" then true else false.

Definition is_digit (c : ascii) : bool :=
  (48 <=? nat_of_ascii c)%nat && (nat_of_ascii c <=? 57)%nat.

(** [s.split("=", 1)]: the option and its explicit value, if any. *)
Fixpoint split_eq (s : string) : string * option string :=
  match s with
  | EmptyString => (EmptyString, None)
  | String c t =>
      if ascii_dec c "=" then (EmptyString, Some t)
      else let (o, v) := split_eq t in (String c o, v)
  end.

(** [\d*\.\d+] up to the end. *)
Fixpoint decimal_tail (l : list ascii) : bool :=
  match l with
  | [] => false
  | c :: t =>
      if ascii_dec c "." then negb (Nat.eqb (List.length t) 0) && forallb is_digit t
      else is_digit c && decimal_tail t
  end.

(** [_negative_number_matcher.match(s)], the pattern
    [^-\d+$|^-\d*\.\d+$] ([\d] is [0-9] on ASCII text; [$] also matches
    before a final newline). *)
Definition looks_negative (s : string) : bool :=
  match list_ascii_of_string s with
  | c :: t =>
      let body := match rev t with
                  | n :: r => if ascii_dec n "010"%char then rev r else t
                  | [] => t
                  end in
      is_dash c
      && ((negb (Nat.eqb (List.length body) 0) && forallb is_digit body)
          || decimal_tail body)
  | [] => false
  end.

(** [self._has_negative_number_optionals]: some option string looks like
    a negative number. *)
Definition has_negative_number_optionals (args : list argument) : bool :=
  existsb (fun p => looks_negative (fst p)) (option_string_actions args).

(** [c in s]. *)
Definition has_char (c : ascii) (s : string) : bool :=
  existsb (fun x => if ascii_dec x c then true else false)
          (list_ascii_of_string s).

Definition has_space (s : string) : bool := has_char " " s.

(** [_get_option_tuples(option_string)] ([allow_abbrev] is on): a
    ["--"] option string is split at the ["="] and matched as a prefix of
    the option strings; a single-dash one matches the option string made
    of its first two characters (the rest being the explicit argument) or
    is a prefix of an option string. *)
Definition get_option_tuples (args : list argument) (option_string : string)
    : list option_tuple :=
  match option_string with
  | String _ (String c2 _) =>
      if is_dash c2 then
        let (option_prefix, explicit_arg) := split_eq option_string in
        map (fun p => mkOptionTuple (Some (snd p)) (fst p) explicit_arg)
            (filter (fun p => String.prefix option_prefix (fst p))
                    (option_string_actions args))
      else
        let short_option_prefix := substring 0 2 option_string in
        let short_explicit_arg :=
          substring 2 (String.length option_string) option_string in
        List.concat
          (map (fun p =>
                  if String.eqb (fst p) short_option_prefix
                  then [mkOptionTuple (Some (snd p)) (fst p) (Some short_explicit_arg)]
                  else if String.prefix option_string (fst p)
                  then [mkOptionTuple (Some (snd p)) (fst p) None]
                  else [])
               (option_string_actions args))
  | _ => []
  end.

(** [_parse_optional(arg_string)]: [None] for a positional string, else
    the option tuple; an ambiguous abbreviation is an error (exit 2). *)
Definition parse_optional (args : list argument) (arg_string : string)
    : res (option option_tuple) :=
  match arg_string with
  | EmptyString => Ok None
  | String c _ =>
      if negb (is_dash c) then Ok None
      else
        match lookup_option args arg_string with
        | Some a => Ok (Some (mkOptionTuple (Some a) arg_string None))
        | None =>
            if Nat.eqb (String.length arg_string) 1 then Ok None
            else
              let by_eq :=
                match split_eq arg_string with
                | (option_string, Some explicit_arg) =>
                    match lookup_option args option_string with
                    | Some a => Some (mkOptionTuple (Some a) option_string
                                                    (Some explicit_arg))
                    | None => None
                    end
                | (_, None) => None
                end in
              match by_eq with
              | Some t => Ok (Some t)
              | None =>
                  match get_option_tuples args arg_string with
                  | [t] => Ok (Some t)
                  | [] =>
                      if looks_negative arg_string
                         && negb (has_negative_number_optionals args)
                      then Ok None
                      else if has_space arg_string then Ok None
                      else Ok (Some (mkOptionTuple None arg_string None))
                  | _ :: _ :: _ => Err (SystemExit 2)
                  end
              end
        end
  end.

(** The pattern letter of each command-line string: ['A'] (an argument),
    ['-'] (the string ["--"]) or ['O'] (an option, with its tuple). *)
Inductive token_kind : Type :=
| TArg
| TDashDash
| TOpt (t : option_tuple).

(** The first loop of [_parse_known_args]: every string after ["--"] is
    an argument; the others go through [_parse_optional]. *)
Fixpoint classify (args : list argument) (arg_strings : list string)
    : res (list (string * token_kind)) :=
  match arg_strings with
  | [] => Ok []
  | s :: rest =>
      if String.eqb s "--" then Ok ((s, TDashDash) :: map (fun t => (t, TArg)) rest)
      else
        o <- parse_optional args s ;;
        ks <- classify args rest ;;
        Ok ((s, match o with None => TArg | Some t => TOpt t end) :: ks)
  end.

(** [_match_argument(action, "A")]: the number of strings an action
    takes ([nargs]: none for [-h] and [store_true], one for [store]). *)
Definition arg_count (act : parser_action) : nat :=
  match act with
  | HelpAction => 0
  | ArgAction a => match action a with Store => 1 | StoreTrue => 0 end
  end.

(** An action with the strings it consumed. *)
Definition action_tuple : Type := (parser_action * list string)%type.

(** [consume_optional] without an explicit argument: a [store] action
    takes the next string, which must be an argument (['A']); the flag
    says whether it was consumed. *)
Definition consume_following (act : parser_action)
    (rest : list (string * token_kind)) : res (list action_tuple * bool) :=
  match arg_count act with
  | O => Ok ([(act, [])], false)
  | S _ =>
      match rest with
      | (v, TArg) :: _ => Ok ([(act, [v])], true)
      | _ => Err (SystemExit 2)   (* expected one argument *)
      end
  end.

Definition second_is_dash (option_string : string) : bool :=
  match option_string with
  | String _ (String c _) => is_dash c
  | _ => false
  end.

(** [consume_optional] with an explicit argument: a single-dash flag
    reads the next character of the explicit argument as the next flag
    ([-dv] is [-d -v]); a [store] action takes the explicit argument;
    anything else is an error. *)
Fixpoint consume_explicit (args : list argument) (act : parser_action)
    (option_string explicit_arg : string) (rest : list (string * token_kind))
    {struct explicit_arg} : res (list action_tuple * bool) :=
  match arg_count act, explicit_arg with
  | O, String c new_explicit_arg =>
      if second_is_dash option_string then Err (SystemExit 2)
      else
        (* [option_string = char + explicit_arg[0]], [char] being ["-"] *)
        let option_string' := String "-" (String c EmptyString) in
        match lookup_option args option_string' with
        | None => Err (SystemExit 2)   (* ignored explicit argument *)
        | Some act' =>
            r <- match new_explicit_arg with
                 | EmptyString => consume_following act' rest
                 | _ => consume_explicit args act' option_string' new_explicit_arg rest
                 end ;;
            Ok ((act, []) :: fst r, snd r)
        end
  | S O, _ => Ok ([(act, [explicit_arg])], false)
  | _, _ => Err (SystemExit 2)   (* ignored explicit argument *)
  end.

Fixpoint remove_first (x : string) (l : list string) : list string :=
  match l with
  | [] => []
  | y :: t => if String.eqb x y then t else y :: remove_first x t
  end.

(** [_get_values] of a [store] action: the first ["--"] is removed; one
    string is stored as is, any other number of strings as their list. *)
Definition store_value (arg_strings : list string) : scalar :=
  match remove_first "--" arg_strings with
  | [v] => SStr v
  | l => SList l
  end.

(** [take_action]: the help action prints the help and exits with 0;
    [store_true] stores [True]; [store] stores its value. *)
Definition take_action (ns : namespace) (t : action_tuple) : res namespace :=
  match fst t with
  | HelpAction => Err (SystemExit 0)
  | ArgAction a =>
      match action a with
      | StoreTrue => Ok (dict_set ns (dest a) (SBool true))
      | Store => Ok (dict_set ns (dest a) (store_value (snd t)))
      end
  end.

Fixpoint take_actions (ns : namespace) (ts : list action_tuple) : res namespace :=
  match ts with
  | [] => Ok ns
  | t :: rest => ns' <- take_action ns t ;; take_actions ns' rest
  end.

(** The second loop of [_parse_known_args] (the parser has no
    positionals): strings that are not known options go to the extras;
    each known option is consumed, with the string it takes, and its
    actions are taken in order. *)
Fixpoint consume_args (args : list argument) (toks : list (string * token_kind))
    (ns : namespace) (extras : list string) : res (namespace * list string) :=
  match toks with
  | [] => Ok (ns, extras)
  | (s, TOpt (mkOptionTuple (Some act) option_string explicit_arg)) :: rest =>
      r <- match explicit_arg with
           | None => consume_following act rest
           | Some e => consume_explicit args act option_string e rest
           end ;;
      ns' <- take_actions ns (fst r) ;;
      if snd r then
        match rest with
        | _ :: rest' => consume_args args rest' ns' extras
        | [] => consume_args args rest ns' extras
        end
      else consume_args args rest ns' extras
  | (s, _) :: rest => consume_args args rest ns (extras ++ [s])
  end.

(** [parser.parse_args(argv)] (argparse of Python 3.11): the namespace
    starts from the defaults; an error exits with 2, and so do extras
    ("unrecognized arguments"). The final conversion of string defaults
    is the identity here (no [type]). *)
Definition parse_args_of (args : list argument) (argv : list string)
    : res namespace :=
  toks <- classify args argv ;;
  r <- consume_args args toks (default_namespace args) [] ;;
  match snd r with
  | [] => Ok (fst r)
  | _ :: _ => Err (SystemExit 2)
  end.

(** [arg_parse()] on the command-line strings [argv] ([sys.argv[1:]]). *)
Definition parse_args (argv : list string) : res namespace :=
  parse_args_of parser_arguments argv.

(* ------------------------------------------------------------------ *)
(** ** List helpers of metabolic_network.py (and network_analysis/utils.py) *)

(** The numeric value of a [bool], [int] (Python or numpy) or [float]. *)
Definition py_num (v : scalar) : option Q :=
  match v with
  | SBool b => Some (if b then 1 else 0)
  | SInt z => Some (inject_Z z)
  | SNpInt z => Some (inject_Z z)
  | SFloat q => Some q
  | _ => None
  end.

(** Python [==] on scalars: numbers compare by value across [bool], [int]
    and [float] ([True == 1 == 1.0]); [None] equals only [None]; strings
    and lists of strings compare by content; values of other kinds
    differ. *)
Definition py_eq (x y : scalar) : bool :=
  match py_num x, py_num y with
  | Some a, Some b => Qeq_bool a b
  | _, _ =>
      match x, y with
      | SNone, SNone => true
      | SStr s, SStr t => String.eqb s t
      | SList l, SList l' => if list_eq_dec string_dec l l' then true else false
      | _, _ => false
      end
  end.

(** [find_intersect]: [[value for value in list1 if value in list2]]. *)
Definition find_intersect (list1 list2 : list scalar) : list scalar :=
  filter (fun value => existsb (py_eq value) list2) list1.

(** numpy stores a string array as fixed-width UCS4 ([<U]): an element
    reads back without its trailing NUL characters. *)
Fixpoint drop_nul (l : list ascii) : list ascii :=
  match l with
  | c :: t => if ascii_dec c "000"%char then drop_nul t else l
  | [] => []
  end.

Definition strip_nul (s : string) : string :=
  string_of_list_ascii (rev (drop_nul (rev (list_ascii_of_string s)))).

(** [aux[mask]] with [mask[0] = True] and [mask[i] = aux[i] != aux[i-1]]:
    the elements after [prev] that differ from their predecessor. *)
Fixpoint keep_changes (prev : string) (l : list string) : list string :=
  match l with
  | [] => []
  | x :: t => if String.eqb x prev then keep_changes x t else x :: keep_changes x t
  end.

(** [np.unique] on a list of strings: the array is sorted (by character
    code), then the first element of each run of equal ones is kept. *)
Definition np_unique (l : list string) : list string :=
  match sort_str (map strip_nul l) with
  | [] => []
  | x :: t => x :: keep_changes x t
  end.

(** [get_unique_list]: [list(np.unique(list_in))] on a list of strings. *)
Definition get_unique_list (list_in : list string) : list string :=
  np_unique list_in.

(* ------------------------------------------------------------------ *)
(** ** [get_connected_graph] *)

(** [n in G] / [n in nodes] on a node list. *)
Definition mem (n : scalar) (l : list scalar) : bool := existsb (scalar_eqb n) l.

(** [G._adj[v]]: the neighbours of [v], through its stored edges (both
    ends of an undirected edge see each other). *)
Definition neighbors (g : graph) (v : scalar) : list scalar :=
  List.concat
    (map (fun e =>
            (if scalar_eqb (source e) v then [sink e] else [])
            ++ (if negb (directed g) && scalar_eqb (sink e) v
                   && negb (scalar_eqb (source e) v)
                then [source e] else []))
         (edges g)).

(** The inner loop [for w in adj[v]: if w not in seen: seen.add(w);
    nextlevel.append(w)] on the state [(seen, nextlevel)]. *)
Definition visit (adjv : list scalar) (st : list scalar * list scalar)
    : list scalar * list scalar :=
  fold_left (fun st w => if mem w (fst st) then st
                         else (fst st ++ [w], snd st ++ [w])) adjv st.

(** [for v in thislevel: ...; if len(seen) == n: return seen]: either the
    state at the end of the level or the early result. *)
Fixpoint bfs_level (g : graph) (n : nat) (thislevel : list scalar)
    (st : list scalar * list scalar) : (list scalar * list scalar) + list scalar :=
  match thislevel with
  | [] => inl st
  | v :: rest =>
      let st' := visit (neighbors g v) st in
      if Nat.eqb (List.length (fst st')) n then inr (fst st')
      else bfs_level g n rest st'
  end.

(** [while nextlevel: ...]; each level that continues adds a node, so
    [len(G) + 1] rounds suffice. *)
Fixpoint bfs_loop (g : graph) (n fuel : nat) (seen nextlevel : list scalar)
    : list scalar :=
  match fuel with
  | O => seen
  | S fuel =>
      match nextlevel with
      | [] => seen
      | _ =>
          match bfs_level g n nextlevel (seen, []) with
          | inr s => s
          | inl (seen', next') => bfs_loop g n fuel seen' next'
          end
      end
  end.

(** networkx 3's [_plain_bfs(G, source)]: the set of nodes reachable from
    [source]. *)
Definition plain_bfs (g : graph) (source : scalar) : list scalar :=
  let n := List.length (nodes g) in
  bfs_loop g n (S n) [source] [source].

(** [connected_components(G)]: for each node [v] in order, not yet seen,
    the component found from [v]. *)
Fixpoint components_from (g : graph) (vs seen : list scalar) : list (list scalar) :=
  match vs with
  | [] => []
  | v :: rest =>
      if mem v seen then components_from g rest seen
      else let c := plain_bfs g v in c :: components_from g rest (seen ++ c)
  end.

Definition connected_components (g : graph) : list (list scalar) :=
  components_from g (nodes g) [].

(** [max(components, key=len)]: the first component of greatest size; an
    empty sequence raises [ValueError]. *)
Definition max_by_len (cs : list (list scalar)) : res (list scalar) :=
  match cs with
  | [] => Err (ValueError "max() arg is an empty sequence")
  | c :: t =>
      Ok (fold_left (fun best x => if Nat.ltb (List.length best) (List.length x)
                                   then x else best) t c)
  end.

(** [G.remove_nodes_from(ns)]: the nodes of [ns] and their edges go. *)
Definition remove_nodes_from (g : graph) (ns : list scalar) : graph :=
  mkGraph (directed g) (filter (fun n => negb (mem n ns)) (nodes g))
          (filter (fun e => negb (mem (source e) ns) && negb (mem (sink e) ns))
                  (edges g)).

(** [get_connected_graph(graph)]; [strongly_connected_components] is the
    networkx enumeration of the strongly connected components of a
    digraph, taken as given. *)
Definition get_connected_graph
    (strongly_connected_components : graph -> list (list scalar)) (g : graph)
    : res graph :=
  let sub := g in
  sub <- (if negb (directed g) then
            ns <- max_by_len (connected_components g) ;;
            Ok (remove_nodes_from sub (filter (fun n => negb (mem n ns)) (nodes g)))
          else Ok sub) ;;
  if directed g then
    ns <- max_by_len (strongly_connected_components g) ;;
    Ok (remove_nodes_from sub (filter (fun n => negb (mem n ns)) (nodes g)))
  else Ok sub.

(** [u -- v]: an edge leads from [u] to [v]. *)
Definition linked (g : graph) (u v : scalar) : Prop :=
  exists e, In e (edges g)
    /\ ((source e = u /\ sink e = v) \/ (directed g = false /\ source e = v /\ sink e = u)).

Definition reachable (g : graph) : scalar -> scalar -> Prop :=
  clos_refl_trans scalar (linked g).

(** A forest of two trees, on nodes 1-2 and 3-4-5. *)
Definition cc_example_graph : graph :=
  mkGraph false [SInt 1; SInt 2; SInt 3; SInt 4; SInt 5]
    [mkEdge (SInt 1) (SInt 2) []; mkEdge (SInt 3) (SInt 4) []; mkEdge (SInt 5) (SInt 4) []].


(** A digraph with the strongly connected components {A, B} and {C},
    and that enumeration of them. *)
Definition scc_example_graph : graph :=
  mkGraph true [SStr "A"; SStr "B"; SStr "C"]
    [mkEdge (SStr "A") (SStr "B") []; mkEdge (SStr "B") (SStr "A") [];
     mkEdge (SStr "B") (SStr "C") []].

Definition scc_example_components (g : graph) : list (list scalar) :=
  [[SStr "A"; SStr "B"]; [SStr "C"]].

(** A link of a node-link document without its [source] or [target]
    key. *)
Definition link_missing_end (l : dict) : Prop :=
  dict_get l "source" = None \/ dict_get l "target" = None.

Definition link_end (l : dict) (x : scalar) : Prop :=
  dict_get l "source" = Some x \/ dict_get l "target" = Some x.

(** A document whose only node is named [None]. *)
Definition null_id_doc : node_link_doc :=
  mkDoc (Some (SBool false)) (Some (SBool false)) [] [[("id", SNone)]] [].

(** A document with a node without [id] (named [1], its position) and a
    link whose [target] is [None]. *)
Definition null_link_doc : node_link_doc :=
  mkDoc (Some (SBool false)) (Some (SBool false)) []
        [[("id", SStr "A")]; []]
        [[("source", SStr "A"); ("target", SNone)]].

(** A document with a link that lacks its [target]. *)
Definition broken_link_doc : node_link_doc :=
  mkDoc (Some (SBool true)) (Some (SBool false)) []
        [[("id", SStr "A")]; [("id", SStr "B")]]
        [[("source", SStr "A"); ("target", SStr "B")]; [("source", SStr "B")]].

(** [x] is a reaction of [m] that, by the code's tests on its coefficient
    for [met_name], its reversibility and its flux interval in [tbl], can
    produce [met_name] ([can_produce]) or consume it ([can_consume]). *)
Definition can_produce (tbl : fva_table) (m : model) (met_name : string) (x : scalar) : Prop :=
  exists r c lo hi, In r m /\ x = SStr (r_id r) /\ In met_name (map fst (r_metabolites r))
    /\ get_coefficient r met_name = Ok c /\ fva_loc tbl (r_id r) = Ok (lo, hi)
    /\ ((reversibility r = false /\ 0 < c) \/ (reversibility r = true /\ 0 < c /\ 0 < hi)
        \/ (reversibility r = true /\ c < 0 /\ lo < 0)).

Definition can_consume (tbl : fva_table) (m : model) (met_name : string) (x : scalar) : Prop :=
  exists r c lo hi, In r m /\ x = SStr (r_id r) /\ In met_name (map fst (r_metabolites r))
    /\ get_coefficient r met_name = Ok c /\ fva_loc tbl (r_id r) = Ok (lo, hi)
    /\ ((reversibility r = false /\ c < 0) \/ (reversibility r = true /\ 0 < c /\ lo < 0)
        \/ (reversibility r = true /\ c < 0 /\ 0 < hi)).

(* ------------------------------------------------------------------ *)
(** ** [main] of [scripts/create_metabolic_network.py] *)

(** [args.<k>] on the parsed [Namespace]. *)
Definition ns_attr (ns : namespace) (k : string) : res scalar :=
  match dict_get ns k with
  | Some v => Ok v
  | None => Err (AttributeError ("'Namespace' object has no attribute '" ++ k ++ "'"))
  end.

(** [model=args.input_file, file_type=args.file_type]: the parser stores
    a string under both dests ([Store] actions), or the empty list for the
    value ["--"], with the defaults [""] and [None]. An empty list is not a
    [str] for [load_cobra_model_from_file], and as a file type it is falsy
    like [None]. A value of another type never reaches these calls. *)
Definition input_file_arg (v : scalar) : res model_input :=
  match v with
  | SStr s => Ok (InPath s)
  | SList l => Ok (InList l)
  | _ => Err TypeError
  end.

Definition file_type_arg (v : scalar) : res (option string) :=
  match v with
  | SNone => Ok None
  | SStr s => Ok (Some s)
  | SList [] => Ok None
  | _ => Err TypeError
  end.

(** [mn.load_cobra_model_from_file(model=args.input_file,
    file_type=args.file_type)]. *)
Definition script_model `{Cobra} (args : namespace) : res (option model) :=
  input_file <- ns_attr args "input_file" ;;
  file_type <- ns_attr args "file_type" ;;
  model_in <- input_file_arg input_file ;;
  ft <- file_type_arg file_type ;;
  load_cobra_model_from_file model_in ft.

(** The parameters of [mn.create_metabolic_network] and
    [mn.create_directed_metabolic_network]. *)
Definition create_metabolic_network_params : list string := ["model"; "file_type"].

Definition create_directed_metabolic_network_params : list string :=
  ["model"; "file_type"; "reciprocal_weight"; "do_loopless"; "fva_prop"].

(** Calling a Python function with keyword arguments: a keyword that names
    no parameter raises [TypeError] before the body runs. *)
Definition bind_keywords (params kwargs : list string) : res unit :=
  if forallb (fun k => in_names k params) kwargs then Ok tt else Err TypeError.

(** A float argument as cobra uses it: a string (what the parser stores for
    [-p]) fails in the arithmetic of [flux_variability_analysis]. *)
Definition py_float (v : scalar) : res Q :=
  match v with
  | SFloat q => Ok q
  | SInt z => Ok (inject_Z z)
  | SNpInt z => Ok (inject_Z z)
  | _ => Err TypeError
  end.

(** The model passed on to [create_*]: a model object, or [None] (which
    [load_cobra_model_from_file] then rejects for lack of a file type). *)
Definition pass_model `{Cobra} (mo : option model) (k : model_input -> res graph)
    : res graph :=
  match mo with
  | Some m => k (InModel m)
  | None => Err (AttributeError "If model isn't str, must provide file_type")
  end.

(** [main()]: the output path and the document [write_network] writes
    there. [print] calls have no effect on the result. *)
Definition script_main `{Cobra} (argv : list string) : res (scalar * node_link_doc) :=
  args <- parse_args argv ;;
  verbose <- ns_attr args "verbose" ;;
  model <- script_model args ;;
  directed <- ns_attr args "directed" ;;
  metabolic_network <-
    (if truthy directed then
       reciprocal <- ns_attr args "reciprocal" ;;
       loopless <- ns_attr args "loopless" ;;
       fva_prop <- ns_attr args "fva_prop" ;;
       _ <- bind_keywords create_directed_metabolic_network_params
              ["reciprocal_weight"; "do_loopless"; "fva_prop"; "verbose"] ;;
       pass_model model (fun model_in =>
         prop <- py_float fva_prop ;;
         create_directed_metabolic_network MetabolicNetwork model_in None
           (truthy reciprocal) (truthy loopless) prop)
     else
       _ <- bind_keywords create_metabolic_network_params ["verbose"] ;;
       pass_model model (fun model_in =>
         create_metabolic_network MetabolicNetwork model_in None)) ;;
  output_file <- ns_attr args "output_file" ;;
  doc <- write_network metabolic_network ;;
  Ok (output_file, doc).

(* ------------------------------------------------------------------ *)
(** ** A cobra stand-in with a fixed flux variability table *)

(** No file can be loaded; flux variability analysis returns [t]. *)
Definition fixed_fva_cobra (t : fva_table) : Cobra := {|
  load_json_model := fun _ => Err (LibraryError "no such file");
  read_sbml_model := fun _ => Err (LibraryError "no such file");
  load_yaml_model := fun _ => Err (LibraryError "no such file");
  load_matlab_model := fun _ => Err (LibraryError "no such file");
  flux_variability_analysis := fun _ _ _ => Ok t
|}.

(** Every file loads as the model [m]; flux variability analysis returns
    [t]. *)
Definition loading_cobra (m : model) (t : fva_table) : Cobra := {|
  load_json_model := fun _ => Ok m;
  read_sbml_model := fun _ => Ok m;
  load_yaml_model := fun _ => Ok m;
  load_matlab_model := fun _ => Ok m;
  flux_variability_analysis := fun _ _ _ => Ok t
|}.

(** An irreversible reaction (bounds [0, 1000]) and a reversible one
    (bounds [-1000, 1000]). *)
Definition irreversible_reaction (id : string) (mets : list (string * Q))
    : reaction := mkReaction id mets 0 1000.

Definition reversible_reaction (id : string) (mets : list (string * Q))
    : reaction := mkReaction id mets (-1000) 1000.

(* ================================================================== *)
(** * Properties *)

(* ------------------------------------------------------------------ *)
(** ** Evaluations at concrete inputs *)

(** A reversible reaction [R] with coefficient +1 for [M] and flux
    interval [-5, 3]: a source by its forward branch and a sink by its
    reverse branch. *)
Definition self_pair_model : model := [reversible_reaction "R" [("M", 1)]].
Definition self_pair_fva : fva_table := [("R", (-5, 3))].

(** [C1] (code_bug). metabolic_network.py emits the edge [(R, R)] for this
    input, while reaction_network.py drops it. *)
Theorem metabolic_network_self_loop :
  @create_directed_metabolic_network (fixed_fva_cobra self_pair_fva)
     MetabolicNetwork (InModel self_pair_model) None true false (95 # 100)
  = Ok (mkGraph true [SStr "R"]
          [mkEdge (SStr "R") (SStr "R")
             [("weight", SFloat (np_reciprocal (3 * 1 + epsilon)));
              ("metabolite", SStr "M")]])
  /\ @create_directed_metabolic_network (fixed_fva_cobra self_pair_fva)
       ReactionNetwork (InModel self_pair_model) None true false (95 # 100)
     = Ok (mkGraph true [SStr "R"] []).
Proof. split; vm_compute; reflexivity. Qed.

(** An irreversible source [A] (coefficient +1 for [M]) whose maximum flux
    is slightly negative, and an irreversible sink [B]. *)
Definition noisy_source_model : model :=
  [irreversible_reaction "A" [("M", 1)]; irreversible_reaction "B" [("M", -1)]].
Definition noisy_source_fva : fva_table :=
  [("A", (-1 # 1000000000, -1 # 1000000000)); ("B", (0, 4))].
Definition noisy_source_row : row :=
  mkRow (SStr "A") "M" false 1 (-1 # 1000000000) (-1 # 1000000000).

(** [C4] (code_bug). reaction_network.py turns the whole source row into
    zeros (reaction id, metabolite, coefficient and flux); the flux alone
    should become 0. metabolic_network.py does not clamp at all. *)
Theorem reaction_network_clamp_zeroes_row :
  source_df ReactionNetwork [noisy_source_row]
    = [mkEntry (SInt 0) (SInt 0) 0 0]
  /\ source_df MetabolicNetwork [noisy_source_row]
    = [mkEntry (SStr "A") (SStr "M") 1 (-1 # 1000000000)].
Proof. split; reflexivity. Qed.

(** [C9] (code_bug). For the same input the directed graph of
    reaction_network.py gains the node [0] (a numpy [int64], the only
    source of [edge_weight_df] being the int [0]), which is no reaction id,
    through the edge [(0, B)]. *)
Theorem reaction_network_foreign_node :
  exists g,
    @create_directed_metabolic_network (fixed_fva_cobra noisy_source_fva)
       ReactionNetwork (InModel noisy_source_model) None true false (95 # 100)
    = Ok g
    /\ In (SNpInt 0) (nodes g)
    /\ ~ In (SNpInt 0) (reaction_nodes noisy_source_model)
    /\ In (SNpInt 0) (map source (edges g)).
Proof.
  eexists; split; [vm_compute; reflexivity |].
  simpl; intuition discriminate.
Qed.

(** [C7] (code_bug). The graph of C9 is not written: its node [0] is a
    numpy [int64], which [json.dump] refuses with [TypeError], so
    [write_network] raises instead of storing a document that
    [read_network] could read back. *)
Theorem reaction_network_graph_not_written :
  exists g,
    @create_directed_metabolic_network (fixed_fva_cobra noisy_source_fva)
       ReactionNetwork (InModel noisy_source_model) None true false (95 # 100)
    = Ok g
    /\ In (SNpInt 0) (nodes g)
    /\ write_network g = Err TypeError.
Proof.
  eexists; split; [vm_compute; reflexivity|].
  split; [simpl; tauto|vm_compute; reflexivity].
Qed.

(** [C6] (code_bug). An unknown extension, and the extension [yml], whose
    listed spelling [".yml"] keeps the dot that the extension lookup drops,
    make the loader return [None] instead of failing. *)
Theorem load_unknown_format_returns_none :
  forall C : Cobra,
    @load_cobra_model_from_file C (InPath "model.txt") None = Ok None
    /\ @load_cobra_model_from_file C (InPath "model.yml") None = Ok None.
Proof. intros C; split; reflexivity. Qed.

(** The irreversible source [A] (coefficient +2, maximum flux 10) and the
    irreversible sink [B] (coefficient -1) of the spec's example. *)
Definition spec_example_model : model :=
  [irreversible_reaction "A" [("M", 2)]; irreversible_reaction "B" [("M", -1)]].
Definition spec_example_fva : fva_table := [("A", (0, 10)); ("B", (0, 4))].

(** [C5] (corrected). A model's reactions carry no flux intervals, yet the
    directed construction succeeds: it runs flux variability analysis
    itself. *)
Theorem directed_construction_without_stored_flux :
  exists g,
    @create_directed_metabolic_network (fixed_fva_cobra spec_example_fva)
       MetabolicNetwork (InModel spec_example_model) None true false (95 # 100)
    = Ok g.
Proof. eexists; vm_compute; reflexivity. Qed.

(** Two reactions sharing the metabolites [m1] and [m2]. *)
Definition two_shared_model : model :=
  [irreversible_reaction "A" [("m1", 1); ("m2", 1)];
   irreversible_reaction "B" [("m1", -1); ("m2", -1)]].

(** [C8] (corrected). The single edge between [A] and [B] carries [m2],
    the metabolite found last, not [m1], found first. *)
Theorem undirected_annotation_is_last_found :
  @create_metabolic_network (fixed_fva_cobra []) MetabolicNetwork
     (InModel two_shared_model) None
  = Ok (mkGraph false [SStr "A"; SStr "B"]
          [mkEdge (SStr "A") (SStr "B") [("metabolite", SStr "m2")]])
  /\ hd "" (map fst (r_metabolites (irreversible_reaction "A" [("m1", 1); ("m2", 1)])))
     = "m1".
Proof. split; reflexivity. Qed.

(* ------------------------------------------------------------------ *)
(** ** The reciprocal flag of the command line *)

Lemma dict_get_set : forall d k k' v,
  dict_get (dict_set d k v) k' =
  if String.eqb k' k then Some v else dict_get d k'.
Proof.
  induction d as [|[k0 v0] t IH]; intros k k' v; simpl.
  - reflexivity.
  - destruct (String.eqb_spec k k0) as [->|Hne]; simpl.
    + destruct (String.eqb k' k0); reflexivity.
    + rewrite IH.
      destruct (String.eqb_spec k' k0); destruct (String.eqb_spec k' k);
        subst; try congruence; reflexivity.
Qed.

(** *** The argument parser *)

Definition valid_action (args : list argument) (act : parser_action) : Prop :=
  match act with
  | HelpAction => True
  | ArgAction a => In a args
  end.

(** An action tuple as [consume_optional] builds it: an action of the
    parser with as many strings as it takes. *)
Definition tuple_ok (args : list argument) (t : action_tuple) : Prop :=
  valid_action args (fst t) /\ List.length (snd t) = arg_count (fst t).

Lemma option_string_actions_valid : forall args p,
  In p (option_string_actions args) -> valid_action args (snd p).
Proof.
  intros args p H; unfold option_string_actions in H.
  apply in_app_or in H; destruct H as [H|H].
  - simpl in H; destruct H as [<-|[<-|[]]]; exact I.
  - apply in_concat in H; destruct H as [l [Hl Hp]].
    apply in_map_iff in Hl; destruct Hl as [a [<- Ha]].
    apply in_map_iff in Hp; destruct Hp as [o [<- _]]; exact Ha.
Qed.

Lemma lookup_option_valid : forall args s act,
  lookup_option args s = Some act -> valid_action args act.
Proof.
  unfold lookup_option; intros args s act H.
  destruct (find _ _) as [p|] eqn:Hf; [|discriminate].
  injection H as <-; apply option_string_actions_valid.
  exact (proj1 (find_some _ _ Hf)).
Qed.

Lemma lookup_option_help : forall args s,
  lookup_option args s = Some HelpAction -> s = "-h" \/ s = "--help".
Proof.
  unfold lookup_option; intros args s H.
  destruct (find _ _) as [p|] eqn:Hf; [|discriminate].
  injection H as Hp.
  destruct (find_some _ _ Hf) as [Hin Hs]; apply String.eqb_eq in Hs; subst s.
  unfold option_string_actions in Hin; apply in_app_or in Hin; destruct Hin as [Hin|Hin].
  - simpl in Hin; destruct Hin as [<-|[<-|[]]]; [left|right]; reflexivity.
  - apply in_concat in Hin; destruct Hin as [l [Hl Hp']].
    apply in_map_iff in Hl; destruct Hl as [a [<- _]].
    apply in_map_iff in Hp'; destruct Hp' as [o [<- _]]; discriminate.
Qed.

Lemma get_option_tuples_valid : forall args s t act,
  In t (get_option_tuples args s) -> ot_action t = Some act -> valid_action args act.
Proof.
  intros args s t act H Ht; unfold get_option_tuples in H.
  destruct s as [|c1 [|c2 s]]; try contradiction.
  destruct (is_dash c2).
  - destruct (split_eq _) as [o e].
    apply in_map_iff in H; destruct H as [p [<- Hp]]; simpl in Ht; injection Ht as <-.
    apply filter_In in Hp; apply option_string_actions_valid; exact (proj1 Hp).
  - apply in_concat in H; destruct H as [l [Hl Ht']].
    apply in_map_iff in Hl; destruct Hl as [p [<- Hp]].
    destruct (String.eqb _ _); [|destruct (String.prefix _ _)];
      simpl in Ht'; try contradiction; destruct Ht' as [<-|[]]; simpl in Ht; injection Ht as <-;
      apply option_string_actions_valid; exact Hp.
Qed.

Ltac split_matches :=
  repeat match goal with
  | H : context [match ?x with _ => _ end] |- _ => destruct x eqn:?
  | |- context [match ?x with _ => _ end] => destruct x eqn:?
  end.

Lemma parse_optional_valid : forall args s t act,
  parse_optional args s = Ok (Some t) -> ot_action t = Some act -> valid_action args act.
Proof.
  intros args s t act H Ht; unfold parse_optional in H.
  split_matches; try discriminate;
    injection H as <-; simpl in Ht; try discriminate;
    try (injection Ht as <-; eapply lookup_option_valid; eassumption).
  all: repeat match goal with E : Some _ = Some _ |- _ => injection E as E; subst end;
    simpl in Ht; try discriminate; try (injection Ht as <-; eapply lookup_option_valid; eassumption).
  all: match goal with E : get_option_tuples _ _ = [_] |- _ =>
         eapply get_option_tuples_valid; [rewrite E; left; reflexivity|exact Ht] end.
Qed.

Lemma parse_optional_err : forall args s e,
  parse_optional args s = Err e -> e = SystemExit 2.
Proof.
  intros args s e H; unfold parse_optional in H.
  split_matches; try discriminate; injection H as <-; reflexivity.
Qed.

Lemma classify_err : forall args argv e,
  classify args argv = Err e -> e = SystemExit 2.
Proof.
  intros args argv; induction argv as [|s rest IH]; intros e H; simpl in H; [discriminate|].
  destruct (String.eqb s "--"); [discriminate|].
  destruct (parse_optional args s) as [o|e'] eqn:Ep; cbn [bind] in H;
    [|injection H as <-; exact (parse_optional_err _ _ _ Ep)].
  destruct (classify args rest) as [ks|e'] eqn:Ec; cbn [bind] in H; [discriminate|].
  injection H as <-; exact (IH _ eq_refl).
Qed.

Lemma classify_opt : forall args argv toks s t,
  classify args argv = Ok toks -> In (s, TOpt t) toks ->
  In s argv /\ parse_optional args s = Ok (Some t).
Proof.
  intros args argv; induction argv as [|s0 rest IH]; intros toks s t H Hin; simpl in H.
  - injection H as <-; contradiction.
  - destruct (String.eqb s0 "--").
    + injection H as <-; destruct Hin as [E|Hin]; [discriminate|].
      apply in_map_iff in Hin; destruct Hin as [x [E _]]; discriminate.
    + destruct (parse_optional args s0) as [o|e'] eqn:Ep; cbn [bind] in H; [|discriminate].
      destruct (classify args rest) as [ks|e'] eqn:Ec; cbn [bind] in H; [|discriminate].
      injection H as <-; destruct Hin as [E|Hin].
      * destruct o as [t'|]; [|discriminate].
        injection E as <- <-; split; [left; reflexivity|exact Ep].
      * destruct (IH _ _ _ eq_refl Hin) as [H1 H2]; split; [right; exact H1|exact H2].
Qed.

Lemma arg_count_cases : forall act, arg_count act = 0%nat \/ arg_count act = 1%nat.
Proof.
  intros [|a]; simpl; [left; reflexivity|destruct (action a); [right|left]; reflexivity].
Qed.

Lemma consume_following_ok : forall args act rest r,
  valid_action args act -> consume_following act rest = Ok r -> Forall (tuple_ok args) (fst r).
Proof.
  intros args act rest r Hv H; unfold consume_following in H.
  destruct (arg_count act) as [|k] eqn:Ea.
  - injection H as <-; constructor; [split; [exact Hv|simpl; rewrite Ea; reflexivity]|constructor].
  - destruct rest as [|[v [| |t]] rest']; try discriminate.
    injection H as <-; constructor; [|constructor].
    split; [exact Hv|]; simpl.
    destruct (arg_count_cases act) as [E|E]; congruence.
Qed.

Lemma consume_explicit_ok : forall args e act o rest r,
  valid_action args act -> consume_explicit args act o e rest = Ok r ->
  Forall (tuple_ok args) (fst r).
Proof.
  intros args e; induction e as [|c e' IH]; intros act o rest r Hv H; simpl in H.
  - destruct (arg_count act) as [|[|k]] eqn:Ea; try discriminate.
    injection H as <-; constructor; [split; [exact Hv|simpl; rewrite Ea; reflexivity]|constructor].
  - destruct (arg_count act) as [|[|k]] eqn:Ea; try discriminate.
    + destruct (second_is_dash o); [discriminate|].
      destruct (lookup_option args _) as [act'|] eqn:El; [|discriminate].
      pose proof (lookup_option_valid _ _ _ El) as Hv'.
      destruct (match e' with EmptyString => _ | _ => _ end) as [r'|e0] eqn:Er;
        cbn [bind] in H; [|discriminate].
      injection H as <-; constructor; [split; [exact Hv|simpl; rewrite Ea; reflexivity]|].
      destruct e' as [|c' e''].
      * exact (consume_following_ok _ _ _ _ Hv' Er).
      * exact (IH _ _ _ _ Hv' Er).
    + injection H as <-; constructor; [split; [exact Hv|simpl; rewrite Ea; reflexivity]|constructor].
Qed.

Lemma consume_following_err : forall act rest e,
  consume_following act rest = Err e -> e = SystemExit 2.
Proof.
  intros act rest e H; unfold consume_following in H.
  destruct (arg_count act); [discriminate|].
  destruct rest as [|[v [| |t]] rest']; try discriminate; injection H as <-; reflexivity.
Qed.

Lemma consume_explicit_err : forall args e act o rest err,
  consume_explicit args act o e rest = Err err -> err = SystemExit 2.
Proof.
  intros args e; induction e as [|c e' IH]; intros act o rest err H; simpl in H.
  - destruct (arg_count act) as [|[|k]]; try discriminate; injection H as <-; reflexivity.
  - destruct (arg_count act) as [|[|k]]; try discriminate; try (injection H as <-; reflexivity).
    destruct (second_is_dash o); [injection H as <-; reflexivity|].
    destruct (lookup_option args _) as [act'|]; [|injection H as <-; reflexivity].
    destruct (match e' with EmptyString => _ | _ => _ end) as [r'|e0] eqn:Er;
      cbn [bind] in H; [discriminate|].
    injection H as <-; destruct e' as [|c' e''].
    + exact (consume_following_err _ _ _ Er).
    + exact (IH _ _ _ _ Er).
Qed.

Lemma take_actions_err : forall ns ts e, take_actions ns ts = Err e -> e = SystemExit 0.
Proof.
  intros ns ts; revert ns; induction ts as [|t ts IH]; intros ns e H; simpl in H; [discriminate|].
  destruct (take_action ns t) as [ns'|e'] eqn:Et; cbn [bind] in H.
  - exact (IH _ _ H).
  - injection H as <-; unfold take_action in Et.
    destruct (fst t) as [|a]; [injection Et as <-; reflexivity|].
    destruct (action a); discriminate.
Qed.

Lemma consume_args_err : forall args n toks ns extras e,
  (List.length toks <= n)%nat -> consume_args args toks ns extras = Err e ->
  e = SystemExit 0 \/ e = SystemExit 2.
Proof.
  intros args n; induction n as [|n IH]; intros toks ns extras e Hn H.
  - destruct toks; [discriminate|simpl in Hn; lia].
  - destruct toks as [|[s k] rest]; [discriminate|]; simpl in Hn.
    simpl in H; destruct k as [| |[[act|] o ex]]; try (eapply IH; [|exact H]; lia).
    destruct (match ex with None => _ | Some _ => _ end) as [r|e'] eqn:Er; cbn [bind] in H.
    + destruct (take_actions ns (fst r)) as [ns'|e'] eqn:Et; cbn [bind] in H.
      * destruct (snd r); [destruct rest as [|x rest']|];
          (eapply IH; [|exact H]; simpl in *; lia).
      * injection H as <-; left; exact (take_actions_err _ _ _ Et).
    + injection H as <-; right; destruct ex.
      * exact (consume_explicit_err _ _ _ _ _ _ Er).
      * exact (consume_following_err _ _ _ Er).
Qed.

Lemma parse_args_of_err : forall args argv e,
  parse_args_of args argv = Err e -> e = SystemExit 0 \/ e = SystemExit 2.
Proof.
  intros args argv e H; unfold parse_args_of in H.
  destruct (classify args argv) as [toks|e'] eqn:Ec; cbn [bind] in H;
    [|injection H as <-; right; exact (classify_err _ _ _ Ec)].
  destruct (consume_args args toks _ []) as [r|e'] eqn:Ea; cbn [bind] in H.
  - destruct (snd r); [discriminate|injection H as <-; right; reflexivity].
  - injection H as <-; exact (consume_args_err _ _ _ _ _ _ (le_n _) Ea).
Qed.

Section ParseInvariant.

Variable args : list argument.
Variable P : namespace -> Prop.
Hypothesis HP : forall ns t ns',
  tuple_ok args t -> P ns -> take_action ns t = Ok ns' -> P ns'.

Lemma take_actions_inv : forall ts ns ns',
  Forall (tuple_ok args) ts -> P ns -> take_actions ns ts = Ok ns' -> P ns'.
Proof.
  intros ts; induction ts as [|t ts IH]; intros ns ns' Hts Hns H; simpl in H.
  - injection H as <-; exact Hns.
  - inversion Hts as [|? ? Ht Hts']; subst.
    destruct (take_action ns t) as [n1|e] eqn:Et; cbn [bind] in H; [|discriminate].
    exact (IH _ _ Hts' (HP _ _ _ Ht Hns Et) H).
Qed.

Definition toks_valid (toks : list (string * token_kind)) : Prop :=
  forall s t act, In (s, TOpt t) toks -> ot_action t = Some act -> valid_action args act.

Lemma consume_args_inv : forall n toks ns extras r,
  (List.length toks <= n)%nat -> toks_valid toks -> P ns ->
  consume_args args toks ns extras = Ok r -> P (fst r).
Proof.
  intros n; induction n as [|n IH]; intros toks ns extras r Hn Hv Hns H.
  - destruct toks; [injection H as <-; exact Hns|simpl in Hn; lia].
  - destruct toks as [|[s k] rest]; [injection H as <-; exact Hns|]; simpl in Hn.
    assert (Hv' : toks_valid rest) by (intros s' t act Hin; apply (Hv s'); right; exact Hin).
    simpl in H; destruct k as [| |[[act|] o ex]]; try (eapply IH; [|exact Hv'|exact Hns|exact H]; lia).
    assert (Hact : valid_action args act) by (apply (Hv s (mkOptionTuple (Some act) o ex)); [left|]; reflexivity).
    destruct (match ex with None => _ | Some _ => _ end) as [r'|e'] eqn:Er; cbn [bind] in H; [|discriminate].
    assert (Hts : Forall (tuple_ok args) (fst r')).
    { destruct ex; [exact (consume_explicit_ok _ _ _ _ _ _ Hact Er)|exact (consume_following_ok _ _ _ _ Hact Er)]. }
    destruct (take_actions ns (fst r')) as [ns'|e'] eqn:Et; cbn [bind] in H; [|discriminate].
    pose proof (take_actions_inv _ _ _ Hts Hns Et) as Hns'.
    destruct (snd r'); [destruct rest as [|x rest']|].
    + eapply IH; [|exact Hv'|exact Hns'|exact H]; simpl in *; lia.
    + eapply IH; [| |exact Hns'|exact H]; [simpl in *; lia|].
      intros s' t act' Hin; apply (Hv' s'); right; exact Hin.
    + eapply IH; [|exact Hv'|exact Hns'|exact H]; simpl in *; lia.
Qed.

Lemma classify_valid : forall argv toks, classify args argv = Ok toks -> toks_valid toks.
Proof.
  intros argv toks H s t act Hin Ht.
  destruct (classify_opt _ _ _ _ _ H Hin) as [_ Hp].
  exact (parse_optional_valid _ _ _ _ Hp Ht).
Qed.

Lemma parse_args_of_inv : forall argv ns,
  P (default_namespace args) -> parse_args_of args argv = Ok ns -> P ns.
Proof.
  intros argv ns H0 H; unfold parse_args_of in H.
  destruct (classify args argv) as [toks|e] eqn:Ec; cbn [bind] in H; [|discriminate].
  destruct (consume_args args toks _ []) as [r|e] eqn:Ea; cbn [bind] in H; [|discriminate].
  destruct (snd r); [injection H as <-|discriminate].
  exact (consume_args_inv _ _ _ _ _ (le_n _) (classify_valid _ _ Ec) H0 Ea).
Qed.

End ParseInvariant.

Lemma reciprocal_dest_store_true : forall a,
  In a parser_arguments -> dest a = "reciprocal" -> action a = StoreTrue.
Proof.
  intros a Ha Hd; simpl in Ha.
  repeat (destruct Ha as [<- | Ha]; [simpl in *; congruence |]); contradiction.
Qed.

Lemma set_keeps_reciprocal : forall ns a v,
  In a parser_arguments ->
  dict_get ns "reciprocal" = Some (SBool true) ->
  (action a = StoreTrue -> v = SBool true) ->
  dict_get (dict_set ns (dest a) v) "reciprocal" = Some (SBool true).
Proof.
  intros ns a v Ha Hns Hv; rewrite dict_get_set.
  destruct (String.eqb_spec "reciprocal" (dest a)) as [E|]; [|exact Hns].
  rewrite Hv; [reflexivity|].
  apply reciprocal_dest_store_true; auto.
Qed.

(** [C10] (confirmed). Whatever the command line, the parsed
    [reciprocal] option is [True]: [-r] is a store-true flag whose default
    is already [True], so the value passed on as [reciprocal_weight] is
    always true. *)
Theorem reciprocal_always_true : forall argv ns,
  parse_args argv = Ok ns ->
  dict_get ns "reciprocal" = Some (SBool true)
  /\ (match dict_get ns "reciprocal" with
      | Some v => truthy v
      | None => false
      end) = true.
Proof.
  intros argv ns H.
  assert (Hr : dict_get ns "reciprocal" = Some (SBool true))
    by (refine (parse_args_of_inv parser_arguments
                  (fun ns => dict_get ns "reciprocal" = Some (SBool true)) _ argv ns eq_refl H);
        intros ns0 t ns' [Hv _] H0 Ht; unfold take_action in Ht;
        destruct (fst t) as [|a]; [discriminate|];
        destruct (action a) eqn:Ea; injection Ht as <-;
        apply set_keeps_reciprocal; auto; congruence).
  rewrite Hr; split; reflexivity.
Qed.

Lemma reciprocal_always_true_witness :
  exists ns,
    parse_args ["-i"; "model.json"; "-o"; "out.json"; "-dv"; "--loop"] = Ok ns
    /\ dict_get ns "reciprocal" = Some (SBool true).
Proof.
  eexists; split; [vm_compute; reflexivity |].
  apply (reciprocal_always_true ["-i"; "model.json"; "-o"; "out.json"; "-dv"; "--loop"]).
  vm_compute; reflexivity.
Defined.

(* ------------------------------------------------------------------ *)
(** ** Generic facts *)

Lemma mapM_ok : forall {A B : Type} (f : A -> res B) (h : A -> B) l,
  (forall x, In x l -> f x = Ok (h x)) -> mapM f l = Ok (map h l).
Proof.
  intros A B f h l; induction l as [|x t IH]; intros Hf; simpl; [reflexivity|].
  rewrite (Hf x (or_introl eq_refl)); simpl.
  rewrite IH by (intros y Hy; apply Hf; right; exact Hy); reflexivity.
Qed.

Lemma mapM_map : forall {A B C : Type} (f : B -> res C) (g : A -> B) l,
  mapM f (map g l) = mapM (fun x => f (g x)) l.
Proof. intros A B C f g l; induction l as [|x t IH]; simpl; [|rewrite IH]; reflexivity. Qed.

Lemma NoDup_map_inj : forall {A B : Type} (f : A -> B) l x y,
  NoDup (map f l) -> In x l -> In y l -> f x = f y -> x = y.
Proof.
  intros A B f l; induction l as [|a t IH]; intros x y Hnd Hx Hy Hxy;
    [destruct Hx|].
  simpl in Hnd; inversion Hnd as [|? ? Hnot Hnd']; subst.
  destruct Hx as [<-|Hx], Hy as [<-|Hy]; auto.
  - exfalso; apply Hnot; rewrite Hxy; apply in_map; exact Hy.
  - exfalso; apply Hnot; rewrite <- Hxy; apply in_map; exact Hx.
Qed.

Lemma scalar_eqb_spec : forall x y, reflect (x = y) (scalar_eqb x y).
Proof.
  intros x y; unfold scalar_eqb; destruct (scalar_eq_dec x y); constructor; auto.
Qed.

Lemma list_prod_map : forall {A B C D : Type} (f : A -> C) (g : B -> D) l l',
  list_prod (map f l) (map g l') =
  map (fun p => (f (fst p), g (snd p))) (list_prod l l').
Proof.
  intros A B C D f g l l'; induction l as [|x t IH]; simpl; [reflexivity|].
  rewrite map_app, IH, !map_map; reflexivity.
Qed.

Lemma qlt_asym : forall x y, qlt x y = true -> qlt y x = false.
Proof.
  unfold qlt; intros x y H.
  apply negb_true_iff in H; apply negb_false_iff.
  apply Qle_bool_iff.
  destruct (Qle_bool y x) eqn:E; [discriminate|].
  assert (~ (y <= x)) by (intro Hc; apply Qle_bool_iff in Hc; congruence).
  apply Qlt_le_weak, Qnot_le_lt; assumption.
Qed.

(* ------------------------------------------------------------------ *)
(** ** Source rows and candidate weights *)

Definition clamp_if (i : impl) (e : entry) : entry :=
  match i with
  | MetabolicNetwork => e
  | ReactionNetwork => clamp_negative_flux e
  end.

(** The source entries one row contributes, whatever DataFrame holds it. *)
Definition source_of_row (i : impl) (r : row) : list entry :=
  if negb (reversible r) && qlt 0 (coefficient r)
  then [clamp_if i (flux_from_max r)]
  else if reversible r && qlt 0 (coefficient r) && qlt 0 (flux_max r)
  then [flux_from_max r]
  else if reversible r && qlt (coefficient r) 0 && qlt (flux_min r) 0
  then [flux_from_min_negated r]
  else [].

Lemma source_df_rows : forall i df e,
  In e (source_df i df) -> exists r, In r df /\ In e (source_of_row i r).
Proof.
  intros i df e He; unfold source_df in He.
  rewrite !in_app_iff in He.
  destruct He as [He|[He|He]].
  - assert (Hs : exists r, In r df /\ reversible r = false /\
                 qlt 0 (coefficient r) = true /\ e = clamp_if i (flux_from_max r)).
    { destruct i; unfold sources_irreversible_df, irreversible_df in He;
        [|apply in_map_iff in He; destruct He as [e0 [<- He]]];
        apply in_map_iff in He; destruct He as [r [<- Hr]];
        rewrite filter_In, filter_In, negb_true_iff in Hr;
        exists r; intuition. }
    destruct Hs as [r [Hr [Hrev [Hc ->]]]].
    exists r; split; [exact Hr|].
    unfold source_of_row; rewrite Hrev, Hc; left; reflexivity.
  - unfold reversible_source_pos_coef_df, reversible_df in He.
    apply in_map_iff in He; destruct He as [r [<- Hr]].
    rewrite filter_In, filter_In in Hr; destruct Hr as [[Hr Hrev] Hc].
    exists r; split; [exact Hr|].
    unfold source_of_row; rewrite Hrev; simpl; rewrite Hc; left; reflexivity.
  - unfold reversible_source_neg_coef_df, reversible_df in He.
    apply in_map_iff in He; destruct He as [r [<- Hr]].
    rewrite filter_In, filter_In in Hr; destruct Hr as [[Hr Hrev] Hc].
    apply andb_true_iff in Hc; destruct Hc as [Hc Hm].
    exists r; split; [exact Hr|].
    unfold source_of_row; rewrite Hrev; simpl.
    rewrite (qlt_asym _ _ Hc), Hc, Hm; left; reflexivity.
Qed.

Lemma source_of_row_shape : forall i r e,
  In e (source_of_row i r) ->
  (e = zero_row \/ e_rxn e = rxn r) /\ source_of_row i r = [e].
Proof.
  intros i r e He; unfold source_of_row in *.
  repeat match goal with
         | H : context [if ?b then _ else _] |- _ => destruct b
         end; simpl in He; try contradiction;
    destruct He as [<-|[]]; split; auto.
  destruct i; simpl; auto.
  unfold clamp_negative_flux; destruct (qlt _ 0); auto.
Qed.

(** Under distinct reaction ids in a metabolite group, two source entries
    with the same reaction are the same entry. *)
Lemma source_df_rxn_unique : forall i df,
  NoDup (map rxn df) -> (forall r, In r df -> exists s, rxn r = SStr s) ->
  forall e1 e2, In e1 (source_df i df) -> In e2 (source_df i df) ->
  e_rxn e1 = e_rxn e2 -> e1 = e2.
Proof.
  intros i df Hnd Hstr e1 e2 H1 H2 Heq.
  destruct (source_df_rows _ _ _ H1) as [r1 [Hr1 He1]].
  destruct (source_df_rows _ _ _ H2) as [r2 [Hr2 He2]].
  destruct (source_of_row_shape _ _ _ He1) as [[Z1|R1] L1];
  destruct (source_of_row_shape _ _ _ He2) as [[Z2|R2] L2].
  - congruence.
  - destruct (Hstr r2 Hr2) as [s Hs]. subst e1. simpl in Heq. congruence.
  - destruct (Hstr r1 Hr1) as [s Hs]. subst e2. simpl in Heq. congruence.
  - assert (r1 = r2) as <- by (apply (NoDup_map_inj rxn df); congruence).
    congruence.
Qed.

Lemma loc_source_unique : forall src e,
  (forall e1 e2, In e1 src -> In e2 src -> e_rxn e1 = e_rxn e2 -> e1 = e2) ->
  In e src -> loc_source src (e_rxn e) = Ok e.
Proof.
  intros src e Hu He; unfold loc_source.
  destruct (find _ src) as [e'|] eqn:Hf.
  - apply find_some in Hf; destruct Hf as [Hin Hb].
    destruct (scalar_eqb_spec (e_rxn e') (e_rxn e)); [|discriminate].
    f_equal; apply Hu; auto.
  - apply (find_none _ _ Hf) in He.
    destruct (scalar_eqb_spec (e_rxn e) (e_rxn e)); congruence.
Qed.

Lemma metabolite_candidates_spec : forall reciprocal_weight metabolite src snk,
  (forall e1 e2, In e1 src -> In e2 src -> e_rxn e1 = e_rxn e2 -> e1 = e2) ->
  metabolite_candidates reciprocal_weight metabolite src snk =
  Ok (map (fun p => mkCandidate (e_rxn (fst p)) (e_rxn (snd p))
                      (edge_weight reciprocal_weight (fst p)) metabolite)
          (list_prod src snk)).
Proof.
  intros rw met src snk Hu; unfold metabolite_candidates.
  rewrite list_prod_map, mapM_map.
  apply mapM_ok; intros [s k] Hp; simpl.
  apply in_prod_iff in Hp; destruct Hp as [Hs _].
  rewrite (loc_source_unique src s Hu Hs); reflexivity.
Qed.

(** [C3] (confirmed). In a metabolite group (reaction ids distinct, as in a
    cobra model), the candidates are exactly the source/sink pairs, each
    weighted [source.flux * source.coefficient], or its reciprocal after
    adding [1e-30]; for the spec's example (source [A]: coefficient +2,
    maximum flux 10; sink [B]) the resolved edge [(A, B)] weighs 20, or
    [1 / (20 + 1e-30)], within [1e-20] of [1/20], with reciprocal
    weights, in both copies. *)
Theorem candidate_weight_formula : forall i reciprocal_weight metabolite df,
  NoDup (map rxn df) ->
  (forall r, In r df -> exists s, rxn r = SStr s) ->
  (exists cs,
     metabolite_candidates reciprocal_weight metabolite
       (source_df i df) (sinks_df df) = Ok cs
     /\ forall c, In c cs <->
          exists s k, In s (source_df i df) /\ In k (sinks_df df)
            /\ c = mkCandidate (e_rxn s) (e_rxn k)
                     (if reciprocal_weight
                      then Qinv (e_flux s * e_coefficient s + (1 # (10 ^ 30)))
                      else e_flux s * e_coefficient s)
                     metabolite)
  /\ (exists w,
        @find_directed_edges_from_model (fixed_fva_cobra spec_example_fva) i
          spec_example_model false false (95 # 100)
        = Ok [mkEdge (SStr "A") (SStr "B")
                [("weight", SFloat w); ("metabolite", SStr "M")]]
        /\ w == 10 * 2)
  /\ (exists w,
        @find_directed_edges_from_model (fixed_fva_cobra spec_example_fva) i
          spec_example_model true false (95 # 100)
        = Ok [mkEdge (SStr "A") (SStr "B")
                [("weight", SFloat w); ("metabolite", SStr "M")]]
        /\ w == Qinv (20 + (1 # (10 ^ 30)))
        /\ Qabs (w - (1 # 20)) < 1 # (10 ^ 20)).
Proof.
  intros i rw met df Hnd Hstr.
  split; [|split].
  - eexists; split.
    + apply metabolite_candidates_spec, source_df_rxn_unique; assumption.
    + intros c; rewrite in_map_iff; split.
      * intros [[s k] [<- Hp]]; apply in_prod_iff in Hp.
        exists s, k; intuition.
      * intros [s [k [Hs [Hk ->]]]].
        exists (s, k); split; [reflexivity|apply in_prod; assumption].
  - destruct i; eexists; split; try (vm_compute; reflexivity).
  - destruct i; eexists; repeat split; vm_compute; reflexivity.
Qed.

Lemma candidate_weight_formula_witness :
  NoDup (map rxn [noisy_source_row]) /\
  exists cs,
    metabolite_candidates true "M" (source_df ReactionNetwork [noisy_source_row])
      (sinks_df [noisy_source_row]) = Ok cs.
Proof.
  assert (Hnd : NoDup (map rxn [noisy_source_row]))
    by (simpl; constructor; [intros []|constructor]).
  split; [exact Hnd|].
  destruct (candidate_weight_formula ReactionNetwork true "M" [noisy_source_row] Hnd)
    as [[cs [Hcs _]] _].
  - intros r [<-|[]]; exists "A"; reflexivity.
  - exists cs; exact Hcs.
Defined.

(* ------------------------------------------------------------------ *)
(** ** Edge resolution keeps the best, first-produced candidate *)

(** [x] is at least as good as [y]: smaller with reciprocal weights,
    larger otherwise. *)
Definition better (reciprocal_weight : bool) (x y : Q) : Prop :=
  if reciprocal_weight then x <= y else y <= x.

Lemma series_min_spec : forall l acc,
  (series_min acc l = acc \/ In (series_min acc l) l)
  /\ forall x, In x (acc :: l) -> series_min acc l <= x.
Proof.
  induction l as [|y t IH]; intros acc; simpl.
  - split; [left; reflexivity|]. intros x [<-|[]]; apply Qle_refl.
  - destruct (Qle_bool acc y) eqn:E.
    + destruct (IH acc) as [Hm Hle]; split; [tauto|].
      intros x [<-|[<-|Hx]];
        [apply Hle; left; reflexivity| |apply Hle; right; exact Hx].
      apply Qle_trans with acc; [apply Hle; left; reflexivity|].
      apply Qle_bool_iff; exact E.
    + destruct (IH y) as [Hm Hle]; split;
        [right; destruct Hm as [->|Hm]; [left|right]; auto|].
      intros x [<-|[<-|Hx]];
        [|apply Hle; left; reflexivity|apply Hle; right; exact Hx].
      apply Qle_trans with y; [apply Hle; left; reflexivity|].
      apply Qlt_le_weak, Qnot_le_lt; intro Hc; apply Qle_bool_iff in Hc; congruence.
Qed.

Lemma series_max_spec : forall l acc,
  (series_max acc l = acc \/ In (series_max acc l) l)
  /\ forall x, In x (acc :: l) -> x <= series_max acc l.
Proof.
  induction l as [|y t IH]; intros acc; simpl.
  - split; [left; reflexivity|]. intros x [<-|[]]; apply Qle_refl.
  - destruct (Qle_bool y acc) eqn:E.
    + destruct (IH acc) as [Hm Hle]; split; [tauto|].
      intros x [<-|[<-|Hx]];
        [apply Hle; left; reflexivity| |apply Hle; right; exact Hx].
      apply Qle_trans with acc; [|apply Hle; left; reflexivity].
      apply Qle_bool_iff; exact E.
    + destruct (IH y) as [Hm Hle]; split;
        [right; destruct Hm as [->|Hm]; [left|right]; auto|].
      intros x [<-|[<-|Hx]];
        [|apply Hle; left; reflexivity|apply Hle; right; exact Hx].
      apply Qle_trans with y; [|apply Hle; left; reflexivity].
      apply Qlt_le_weak, Qnot_le_lt; intro Hc; apply Qle_bool_iff in Hc; congruence.
Qed.

Lemma find_split : forall {A : Type} (f : A -> bool) l x,
  find f l = Some x ->
  exists l1 l2, l = l1 ++ x :: l2 /\ f x = true /\ forall y, In y l1 -> f y = false.
Proof.
  intros A f l; induction l as [|a t IH]; intros x H; simpl in H; [discriminate|].
  destruct (f a) eqn:E.
  - injection H as <-; exists [], t; simpl; intuition.
  - destruct (IH x H) as [l1 [l2 [-> [Hx Hl1]]]].
    exists (a :: l1), l2; simpl; split; [reflexivity|split; [exact Hx|]].
    intros y [<-|Hy]; auto.
Qed.

Lemma resolve_group_spec : forall reciprocal_weight k df,
  df <> [] ->
  exists l1 c l2,
    df = l1 ++ c :: l2
    /\ resolve_group reciprocal_weight k df = Ok (resolved_edge k c)
    /\ (forall d, In d df -> better reciprocal_weight (c_weight c) (c_weight d))
    /\ (forall d, In d l1 -> ~ c_weight d == c_weight c).
Proof.
  intros rw k df Hne.
  destruct df as [|c0 [|c1 t]]; [congruence| |].
  - exists [], c0, []; split; [reflexivity|split; [reflexivity|split]].
    + intros d [<-|[]]; unfold better; destruct rw; apply Qle_refl.
    + intros d [].
  - set (df := c0 :: c1 :: t).
    set (target := if rw then series_min (c_weight c0) (map c_weight (c1 :: t))
                   else series_max (c_weight c0) (map c_weight (c1 :: t))).
    assert (Hbest : forall d, In d df -> better rw target (c_weight d)).
    { intros d Hd; unfold better, target; destruct rw;
        [apply (series_min_spec _ _) | apply (series_max_spec _ _)];
        change (c_weight c0 :: map c_weight (c1 :: t)) with (map c_weight df);
        apply in_map; exact Hd. }
    assert (Hmem : exists d, In d df /\ c_weight d = target).
    { assert (Hw : target = c_weight c0 \/ In target (map c_weight (c1 :: t))).
      { unfold target; destruct rw;
          [apply (series_min_spec (map c_weight (c1 :: t)) (c_weight c0))
          |apply (series_max_spec (map c_weight (c1 :: t)) (c_weight c0))]. }
      destruct Hw as [E|E].
      - exists c0; split; [left; reflexivity|symmetry; exact E].
      - apply in_map_iff in E; destruct E as [d [Ed Hd]].
        exists d; split; [right; exact Hd|exact Ed]. }
    assert (Hres : resolve_group rw k df =
                   match find (fun c => Qeq_bool (c_weight c) target) df with
                   | Some c => Ok (resolved_edge k c)
                   | None => Err IndexError
                   end) by reflexivity.
    destruct (find (fun c => Qeq_bool (c_weight c) target) df) as [c|] eqn:Hf.
    + destruct (find_split _ _ _ Hf) as [l1 [l2 [Hsplit [Hc Hl1]]]].
      apply Qeq_bool_iff in Hc.
      exists l1, c, l2; split; [exact Hsplit|split; [exact Hres|split]].
      * intros d Hd; specialize (Hbest d Hd); unfold better in *.
        destruct rw; rewrite Hc; exact Hbest.
      * intros d Hd Heq; specialize (Hl1 d Hd).
        assert (Qeq_bool (c_weight d) target = true) by
          (apply Qeq_bool_iff; rewrite Heq; exact Hc).
        congruence.
    + exfalso; destruct Hmem as [d [Hd Ed]].
      apply (find_none _ _ Hf) in Hd; rewrite Ed in Hd.
      rewrite Qeq_bool_refl in Hd; discriminate.
Qed.

Lemma filter_concat : forall {A : Type} (f : A -> bool) L,
  filter f (List.concat L) = List.concat (map (filter f) L).
Proof.
  intros A f L; induction L as [|l L IH]; simpl; [reflexivity|].
  rewrite filter_app, IH; reflexivity.
Qed.

Lemma filter_all_true : forall {A : Type} (f : A -> bool) l,
  (forall x, In x l -> f x = true) -> filter f l = l.
Proof.
  intros A f l; induction l as [|x t IH]; intros H; simpl; [reflexivity|].
  rewrite (H x (or_introl eq_refl)), IH; auto.
  intros y Hy; apply H; right; exact Hy.
Qed.

Lemma filter_all_false : forall {A : Type} (f : A -> bool) l,
  (forall x, In x l -> f x = false) -> filter f l = [].
Proof.
  intros A f l; induction l as [|x t IH]; intros H; simpl; [reflexivity|].
  rewrite (H x (or_introl eq_refl)); apply IH.
  intros y Hy; apply H; right; exact Hy.
Qed.

Lemma pair_eqb_spec : forall x y, reflect (x = y) (pair_eqb x y).
Proof. intros x y; unfold pair_eqb; destruct (pair_eq_dec x y); constructor; auto. Qed.

Lemma concat_select : forall {B : Type} (X : scalar * scalar -> list B) keys key,
  NoDup keys -> In key keys ->
  List.concat (map (fun k => if pair_eqb k key then X k else []) keys) = X key.
Proof.
  intros B X keys key; induction keys as [|k ks IH]; intros Hnd Hin; [destruct Hin|].
  inversion Hnd as [|? ? Hnot Hnd']; subst; simpl.
  destruct (pair_eqb_spec k key) as [->|Hne].
  - assert (Hz : List.concat (map (fun k => if pair_eqb k key then X k else []) ks) = []).
    { clear IH Hin Hnd Hnd'; induction ks as [|k' ks' IHk]; simpl; [reflexivity|].
      destruct (pair_eqb_spec k' key) as [->|]; [exfalso; apply Hnot; left; reflexivity|].
      apply IHk; intro; apply Hnot; right; assumption. }
    rewrite Hz, app_nil_r; reflexivity.
  - destruct Hin as [->|Hin]; [congruence|]; simpl; apply IH; assumption.
Qed.

Lemma resolve_group_key : forall rw k df e,
  resolve_group rw k df = Ok e -> (source e, sink e) = k.
Proof.
  intros rw k df e H; unfold resolve_group in H.
  destruct df as [|c0 [|c1 t]].
  - simpl in H; discriminate.
  - injection H as <-; destruct k; reflexivity.
  - destruct (find _ (c0 :: c1 :: t)); [|discriminate].
    injection H as <-; destruct k; reflexivity.
Qed.

Lemma resolve_step_keys : forall i rw kg es,
  resolve_step i rw kg = Ok es -> forall e, In e es -> (source e, sink e) = fst kg.
Proof.
  intros i rw [k df] es H e He; simpl fst.
  assert (Hg : forall es', (e' <- resolve_group rw k df ;; Ok [e']) = Ok es' ->
                          In e es' -> (source e, sink e) = k).
  { intros es' H' He'.
    destruct (resolve_group rw k df) as [e0|] eqn:E; simpl in H'; [|discriminate].
    injection H' as <-; destruct He' as [<-|[]].
    exact (resolve_group_key _ _ _ _ E). }
  destruct i; [exact (Hg es H He)|].
  unfold resolve_step in H; simpl fst in H; simpl snd in H.
  destruct (scalar_eqb _ _); [injection H as <-; destruct He|exact (Hg es H He)].
Qed.

(** [C2] (confirmed). For an ordered pair with at least one candidate
    (other than a self-pair, which reaction_network.py drops, see [C1]),
    resolution emits exactly one edge for it, carrying the weight and
    metabolite of the candidate [c] that is minimal (reciprocal weights) or
    maximal among the pair's candidates and produced before every other
    candidate of equal weight. *)
Theorem resolution_keeps_best_first : forall i reciprocal_weight cs src snk,
  In (src, snk) (map pair_key cs) ->
  (i = ReactionNetwork -> src <> snk) ->
  exists es l1 c l2,
    resolve_edges i reciprocal_weight cs = Ok es
    /\ filter (fun c => pair_eqb (pair_key c) (src, snk)) cs = l1 ++ c :: l2
    /\ filter (fun e => pair_eqb (source e, sink e) (src, snk)) es
       = [mkEdge src snk [("weight", SFloat (c_weight c));
                          ("metabolite", SStr (c_metabolite c))]]
    /\ (forall d, In d (l1 ++ c :: l2) -> better reciprocal_weight (c_weight c) (c_weight d))
    /\ (forall d, In d l1 -> ~ c_weight d == c_weight c).
Proof.
  intros i rw cs src snk Hin Hself.
  set (key := (src, snk)).
  set (grp := fun k => filter (fun c => pair_eqb (pair_key c) k) cs).
  set (h := fun kg => match resolve_step i rw kg with Ok es => es | Err _ => [] end).
  assert (Hne : forall k, In k (map pair_key cs) -> grp k <> []).
  { intros k Hk; apply in_map_iff in Hk; destruct Hk as [c [Hc Hcin]].
    intros Hnil; assert (Hg : In c (grp k)).
    { unfold grp; apply filter_In; split; [exact Hcin|].
      destruct (pair_eqb_spec (pair_key c) k); congruence. }
    rewrite Hnil in Hg; destruct Hg. }
  assert (Hok : forall kg, In kg (candidate_groups cs) ->
                           resolve_step i rw kg = Ok (h kg)).
  { intros kg Hkg; unfold candidate_groups in Hkg.
    apply in_map_iff in Hkg; destruct Hkg as [k [<- Hk]].
    apply nodup_In in Hk.
    destruct (resolve_group_spec rw k (grp k) (Hne k Hk)) as [l1 [c [l2 [_ [Hr _]]]]].
    unfold h; simpl; fold (grp k).
    destruct i; simpl; [rewrite Hr; reflexivity|].
    destruct (scalar_eqb _ _); [reflexivity|rewrite Hr; reflexivity]. }
  destruct (resolve_group_spec rw key (grp key) (Hne key Hin))
    as [l1 [c [l2 [Hsplit [Hr [Hbest Hfirst]]]]]].
  exists (List.concat (map h (candidate_groups cs))), l1, c, l2.
  split; [unfold resolve_edges; rewrite (mapM_ok _ h _ Hok); reflexivity|].
  split; [exact Hsplit|].
  split; [|split; [rewrite <- Hsplit; exact Hbest | exact Hfirst]].
  rewrite filter_concat, map_map.
  unfold candidate_groups; rewrite map_map.
  transitivity (List.concat (map (fun k => if pair_eqb k key then h (k, grp k) else [])
                              (nodup pair_eq_dec (map pair_key cs)))).
  - f_equal; apply map_ext_in; intros k Hk.
    assert (Hks : forall e, In e (h (k, grp k)) -> (source e, sink e) = k).
    { intros e He; apply (resolve_step_keys i rw (k, grp k) (h (k, grp k))); [|exact He].
      apply Hok; unfold candidate_groups; apply in_map_iff; exists k; split; auto. }
    destruct (pair_eqb_spec k key) as [->|Hnk].
    + apply filter_all_true; intros e He.
      rewrite (Hks e He); destruct (pair_eqb_spec key key); congruence.
    + apply filter_all_false; intros e He.
      rewrite (Hks e He); destruct (pair_eqb_spec k key); congruence.
  - rewrite concat_select; [| apply NoDup_nodup | apply nodup_In; exact Hin].
    unfold h; simpl; fold (grp key).
    destruct i; simpl.
    + rewrite Hr; reflexivity.
    + destruct (scalar_eqb_spec src snk) as [E|_]; [exfalso; exact (Hself eq_refl E)|].
      rewrite Hr; reflexivity.
Qed.

(** Two candidates for [(A, B)], through [m1] (weight 1/2) and [m2]
    (weight 1/5), and one for [(A, C)]. *)
Definition two_candidates : list candidate :=
  [mkCandidate (SStr "A") (SStr "B") (1 # 2) "m1";
   mkCandidate (SStr "A") (SStr "C") (1 # 3) "m1";
   mkCandidate (SStr "A") (SStr "B") (1 # 5) "m2"].

Lemma resolution_keeps_best_first_witness :
  In (SStr "A", SStr "B") (map pair_key two_candidates) /\
  exists es l1 c l2,
    resolve_edges ReactionNetwork true two_candidates = Ok es
    /\ filter (fun c => pair_eqb (pair_key c) (SStr "A", SStr "B")) two_candidates
       = l1 ++ c :: l2
    /\ filter (fun e => pair_eqb (source e, sink e) (SStr "A", SStr "B")) es
       = [mkEdge (SStr "A") (SStr "B") [("weight", SFloat (c_weight c));
                                        ("metabolite", SStr (c_metabolite c))]]
    /\ (forall d, In d (l1 ++ c :: l2) -> better true (c_weight c) (c_weight d))
    /\ (forall d, In d l1 -> ~ c_weight d == c_weight c).
Proof.
  split; [left; reflexivity|].
  apply (resolution_keeps_best_first ReactionNetwork true two_candidates
           (SStr "A") (SStr "B")).
  - left; reflexivity.
  - intros _ H; discriminate H.
Defined.

(* ------------------------------------------------------------------ *)
(** ** Well-formed graphs *)

(** Attribute dicts of edges: distinct keys, none of them [source] or
    [target] (the keys [node_link_data] adds). *)
Definition attrs_ok (a : dict) : Prop :=
  NoDup (map fst a) /\ forall k, In k (map fst a) -> k <> "source" /\ k <> "target".

(** No stored edge is the edge of an earlier one. *)
Fixpoint distinct_pairs (d : bool) (es : list edge) : Prop :=
  match es with
  | [] => True
  | e :: t => (forall e', In e' t -> same_pair d (source e') (sink e') e = false)
              /\ distinct_pairs d t
  end.

Record graph_wf (g : graph) : Prop := {
  wf_nodes : NoDup (nodes g);
  wf_ends : forall e, In e (edges g) -> In (source e) (nodes g) /\ In (sink e) (nodes g);
  wf_pairs : distinct_pairs (directed g) (edges g);
  wf_attrs : forall e, In e (edges g) -> attrs_ok (attrs e)
}.

Lemma dict_set_keys : forall d k v,
  map fst (dict_set d k v) =
  if existsb (String.eqb k) (map fst d) then map fst d else map fst d ++ [k].
Proof.
  induction d as [|[k0 v0] t IH]; intros k v; simpl; [reflexivity|].
  destruct (String.eqb_spec k k0) as [->|Hne]; simpl; [reflexivity|].
  rewrite IH; destruct (existsb _ _); reflexivity.
Qed.

Lemma existsb_string_in : forall k l, existsb (String.eqb k) l = true <-> In k l.
Proof.
  intros k l; rewrite existsb_exists; split.
  - intros [x [Hx E]]; apply String.eqb_eq in E; subst; exact Hx.
  - intros H; exists k; split; [exact H|apply String.eqb_refl].
Qed.

Lemma dict_set_ok : forall d k v,
  attrs_ok d -> k <> "source" -> k <> "target" -> attrs_ok (dict_set d k v).
Proof.
  intros d k v [Hnd Hk] Hs Ht; unfold attrs_ok; rewrite dict_set_keys.
  destruct (existsb (String.eqb k) (map fst d)) eqn:E; [split; assumption|].
  split.
  - apply NoDup_app; [exact Hnd| |].
    + constructor; [intros []|constructor].
    + intros x Hx [<-|[]].
      assert (Hin : existsb (String.eqb k) (map fst d) = true)
        by (apply existsb_string_in; exact Hx).
      congruence.
  - intros x Hx; apply in_app_iff in Hx; destruct Hx as [Hx|[<-|[]]]; auto.
Qed.

Lemma dict_update_ok : forall a d,
  attrs_ok d -> attrs_ok a -> attrs_ok (dict_update d a).
Proof.
  unfold dict_update; induction a as [|[k v] t IH]; intros d Hd Ha; simpl; [exact Hd|].
  destruct Ha as [Hnd Hk].
  apply IH.
  - destruct (Hk k (or_introl eq_refl)); apply dict_set_ok; auto.
  - split; [inversion Hnd; assumption|].
    intros x Hx; apply Hk; right; exact Hx.
Qed.

Lemma distinct_pairs_app : forall d l x,
  distinct_pairs d l ->
  (forall e, In e l -> same_pair d (source x) (sink x) e = false) ->
  distinct_pairs d (l ++ [x]).
Proof.
  intros d l x; induction l as [|e t IH]; intros Hl Hx; simpl in *.
  - split; [intros _ []|exact I].
  - destruct Hl as [He Ht]; split.
    + intros e' He'; apply in_app_iff in He'; destruct He' as [He'|[<-|[]]]; auto.
    + apply IH; auto.
Qed.

Lemma distinct_pairs_map : forall d (f : edge -> edge) l,
  (forall e, source (f e) = source e /\ sink (f e) = sink e) ->
  distinct_pairs d l -> distinct_pairs d (map f l).
Proof.
  intros d f l Hf; induction l as [|e t IH]; simpl; [auto|].
  intros [He Ht]; split; [|auto].
  intros e' He'; apply in_map_iff in He'; destruct He' as [e0 [<- He0]].
  unfold same_pair in *; destruct (Hf e0) as [-> ->]; destruct (Hf e) as [-> ->].
  apply He; exact He0.
Qed.

Lemma add_node_wf : forall g n, graph_wf g -> graph_wf (add_node g n)
  /\ In n (nodes (add_node g n)) /\ (forall x, In x (nodes g) -> In x (nodes (add_node g n)))
  /\ directed (add_node g n) = directed g.
Proof.
  intros g n Hg; unfold add_node, has_node.
  destruct (existsb (scalar_eqb n) (nodes g)) eqn:E.
  - apply existsb_exists in E; destruct E as [x [Hx Ex]].
    destruct (scalar_eqb_spec n x); [subst|discriminate].
    exact (conj Hg (conj Hx (conj (fun y Hy => Hy) eq_refl))).
  - destruct Hg as [Hn He Hp Ha]; simpl.
    assert (Hnot : ~ In n (nodes g)).
    { intros Hin; assert (existsb (scalar_eqb n) (nodes g) = true); [|congruence].
      apply existsb_exists; exists n; split; [exact Hin|].
      destruct (scalar_eqb_spec n n); congruence. }
    split; [|split; [|split]].
    + constructor; simpl.
      * apply NoDup_app; [exact Hn| |].
        -- constructor; [intros []|constructor].
        -- intros x Hx [<-|[]]; contradiction.
      * intros e H; destruct (He e H); split; apply in_or_app; left; assumption.
      * exact Hp.
      * exact Ha.
    + simpl; apply in_or_app; right; left; reflexivity.
    + intros x Hx; simpl; apply in_or_app; left; exact Hx.
    + reflexivity.
Qed.

Lemma add_edge_wf : forall g u v a,
  graph_wf g -> attrs_ok a ->
  graph_wf (add_edge g u v a) /\ directed (add_edge g u v a) = directed g.
Proof.
  intros g u v a Hg Ha.
  destruct (add_node_wf g u Hg) as [Hg1 [Hu1 [Hs1 Hd1]]].
  destruct (add_node_wf _ v Hg1) as [Hg2 [Hv2 [Hs2 Hd2]]].
  set (g1 := add_node (add_node g u) v) in *.
  unfold add_edge; fold g1.
  destruct Hg2 as [Hn He Hp Hat].
  destruct (existsb (same_pair (directed g1) u v) (edges g1)) eqn:E;
    (split; [constructor; simpl | simpl; congruence]).
  - exact Hn.
  - intros e' H'; apply in_map_iff in H'; destruct H' as [e [<- He0]].
    destruct (same_pair _ u v e); simpl; apply He; exact He0.
  - apply distinct_pairs_map; [|exact Hp].
    intros e; destruct (same_pair _ u v e); simpl; auto.
  - intros e' H'; apply in_map_iff in H'; destruct H' as [e [<- He0]].
    destruct (same_pair _ u v e); simpl; [apply dict_update_ok|]; auto.
  - exact Hn.
  - intros e' H'; apply in_app_iff in H'; destruct H' as [H'|[<-|[]]].
    + apply He; exact H'.
    + simpl; split; [apply Hs2; exact Hu1 | exact Hv2].
  - apply distinct_pairs_app; [exact Hp|].
    intros e He0; simpl.
    destruct (same_pair _ u v e) eqn:Es; [|reflexivity].
    assert (existsb (same_pair (directed g1) u v) (edges g1) = true)
      by (apply existsb_exists; exists e; auto).
    congruence.
  - intros e' H'; apply in_app_iff in H'; destruct H' as [H'|[<-|[]]].
    + apply Hat; exact H'.
    + exact Ha.
Qed.

Lemma add_edges_from_wf : forall es g,
  graph_wf g -> (forall e, In e es -> attrs_ok (attrs e)) ->
  graph_wf (add_edges_from g es) /\ directed (add_edges_from g es) = directed g.
Proof.
  unfold add_edges_from; induction es as [|e t IH]; intros g Hg Hes; simpl; [auto|].
  destruct (add_edge_wf g (source e) (sink e) (attrs e) Hg (Hes e (or_introl eq_refl)))
    as [Hg' Hd'].
  destruct (IH _ Hg') as [Hw Hd]; [intros x Hx; apply Hes; right; exact Hx|].
  split; [exact Hw|congruence].
Qed.

Lemma add_nodes_wf : forall ns g,
  graph_wf g -> graph_wf (add_nodes g ns) /\ directed (add_nodes g ns) = directed g.
Proof.
  unfold add_nodes; induction ns as [|n t IH]; intros g Hg; simpl; [auto|].
  destruct (add_node_wf g n Hg) as [Hg' [_ [_ Hd']]].
  destruct (IH _ Hg') as [Hw Hd]; split; [exact Hw|congruence].
Qed.

Lemma empty_graph_wf : forall d, graph_wf (empty_graph d).
Proof.
  intros d; constructor; simpl; try (intros ? []); constructor.
Qed.

(** *** Attributes of the produced edges *)

Lemma mapM_in : forall {A B : Type} (f : A -> res B) l rs,
  mapM f l = Ok rs -> forall r, In r rs -> exists x, In x l /\ f x = Ok r.
Proof.
  intros A B f l; induction l as [|x t IH]; intros rs H r Hr; simpl in H.
  - injection H as <-; destruct Hr.
  - destruct (f x) as [y|] eqn:Ef; simpl in H; [|discriminate].
    destruct (mapM f t) as [ys|] eqn:Et; simpl in H; [|discriminate].
    injection H as <-; destruct Hr as [<-|Hr].
    + exists x; split; [left; reflexivity|exact Ef].
    + destruct (IH ys eq_refl r Hr) as [x' [Hx' E']].
      exists x'; split; [right; exact Hx'|exact E'].
Qed.

Lemma resolve_group_shape : forall rw k df e,
  resolve_group rw k df = Ok e -> exists c, e = resolved_edge k c.
Proof.
  intros rw k df e H; unfold resolve_group in H.
  destruct df as [|c0 [|c1 t]].
  - simpl in H; discriminate.
  - injection H as <-; eexists; reflexivity.
  - destruct (find _ (c0 :: c1 :: t)); [|discriminate].
    injection H as <-; eexists; reflexivity.
Qed.

Lemma resolved_edge_ok : forall k c, attrs_ok (attrs (resolved_edge k c)).
Proof.
  intros k c; split; simpl.
  - constructor; [simpl; intros [H|[]]; discriminate|constructor; [intros []|constructor]].
  - intros x [<-|[<-|[]]]; split; discriminate.
Qed.

Lemma resolve_step_ok : forall i rw kg es,
  resolve_step i rw kg = Ok es -> forall e, In e es -> attrs_ok (attrs e).
Proof.
  intros i rw [k df] es H e He.
  assert (Hg : forall es', (e' <- resolve_group rw k df ;; Ok [e']) = Ok es' ->
                          In e es' -> attrs_ok (attrs e)).
  { intros es' H' He'.
    destruct (resolve_group rw k df) as [e0|] eqn:E; simpl in H'; [|discriminate].
    injection H' as <-; destruct He' as [<-|[]].
    destruct (resolve_group_shape _ _ _ _ E) as [c ->]; apply resolved_edge_ok. }
  destruct i; [exact (Hg es H He)|].
  unfold resolve_step in H; simpl fst in H; simpl snd in H.
  destruct (scalar_eqb _ _); [injection H as <-; destruct He|exact (Hg es H He)].
Qed.

Lemma find_directed_edges_ok : forall `{Cobra} i m rw lp prop es,
  find_directed_edges_from_model i m rw lp prop = Ok es ->
  forall e, In e es -> attrs_ok (attrs e).
Proof.
  intros C i m rw lp prop es H e He.
  unfold find_directed_edges_from_model in H.
  destruct (flux_variability_analysis m lp prop); simpl in H; [|discriminate].
  destruct (mapM _ m); simpl in H; [|discriminate].
  destruct (all_candidates _ _ _); simpl in H; [|discriminate].
  unfold resolve_edges in H.
  destruct (mapM (resolve_step i rw) _) as [rs|] eqn:E; simpl in H; [|discriminate].
  injection H as <-.
  apply in_concat in He; destruct He as [es0 [Hes0 He]].
  destruct (mapM_in _ _ _ E es0 Hes0) as [kg [_ Ekg]].
  exact (resolve_step_ok _ _ _ _ Ekg e He).
Qed.

Lemma find_edges_ok : forall i m e,
  In e (find_edges_from_model i m) -> attrs_ok (attrs e).
Proof.
  intros i m e He; unfold find_edges_from_model in He.
  apply in_concat in He; destruct He as [es [Hes He]].
  apply in_map_iff in Hes; destruct Hes as [g [<- _]].
  apply in_map_iff in He; destruct He as [p [<- _]].
  split; simpl.
  - constructor; [intros []|constructor].
  - intros x [<-|[]]; split; discriminate.
Qed.

(** *** The graphs returned by the constructors are well formed *)

Lemma created_graph_wf : forall `{Cobra} i model_in ft G,
  create_metabolic_network i model_in ft = Ok G -> graph_wf G.
Proof.
  intros C i model_in ft G H; unfold create_metabolic_network in H.
  destruct (get_model model_in ft) as [m|]; simpl in H; [|discriminate].
  injection H as <-.
  destruct (add_nodes_wf (reaction_nodes m) _ (empty_graph_wf false)) as [Hw _].
  apply add_edges_from_wf; [exact Hw|].
  apply find_edges_ok.
Qed.

Lemma created_directed_graph_wf : forall `{Cobra} i model_in ft rw lp prop G,
  create_directed_metabolic_network i model_in ft rw lp prop = Ok G -> graph_wf G.
Proof.
  intros C i model_in ft rw lp prop G H; unfold create_directed_metabolic_network in H.
  destruct (get_model model_in ft) as [m|]; simpl in H; [|discriminate].
  destruct (find_directed_edges_from_model i m rw lp prop) as [es|] eqn:E;
    simpl in H; [|discriminate].
  injection H as <-.
  destruct (add_nodes_wf (reaction_nodes m) _ (empty_graph_wf true)) as [Hw _].
  apply add_edges_from_wf; [exact Hw|].
  exact (find_directed_edges_ok _ _ _ _ _ _ E).
Qed.

(** *** Reading back a written document *)

Lemma dict_set_absent : forall d k v,
  ~ In k (map fst d) -> dict_set d k v = d ++ [(k, v)].
Proof.
  intros d k v; induction d as [|[k' v'] t IH]; intros Hk; simpl; [reflexivity|].
  destruct (String.eqb_spec k k') as [->|Hne].
  - exfalso; apply Hk; left; reflexivity.
  - rewrite IH; [reflexivity|intros H; apply Hk; right; exact H].
Qed.

Lemma dict_get_absent_app : forall d r k,
  ~ In k (map fst d) -> dict_get (d ++ r) k = dict_get r k.
Proof.
  intros d r k; induction d as [|[k' v'] t IH]; intros Hk; simpl; [reflexivity|].
  destruct (String.eqb_spec k k') as [->|Hne].
  - exfalso; apply Hk; left; reflexivity.
  - apply IH; intros H; apply Hk; right; exact H.
Qed.

Lemma dict_remove_absent_app : forall d r k,
  ~ In k (map fst d) -> dict_remove (d ++ r) k = d ++ dict_remove r k.
Proof.
  intros d r k; induction d as [|[k' v'] t IH]; intros Hk; simpl; [reflexivity|].
  destruct (String.eqb_spec k' k) as [->|Hne].
  - exfalso; apply Hk; left; reflexivity.
  - simpl; rewrite IH; [reflexivity|intros H; apply Hk; right; exact H].
Qed.

Lemma link_fields : forall e, attrs_ok (attrs e) ->
  dict_item (link_of e) "source" = Ok (source e)
  /\ dict_item (link_of e) "target" = Ok (sink e)
  /\ dict_remove (dict_remove (link_of e) "source") "target" = attrs e.
Proof.
  intros e [_ Hk].
  assert (Hs : ~ In "source" (map fst (attrs e))) by (intros H; apply (proj1 (Hk _ H)); reflexivity).
  assert (Ht : ~ In "target" (map fst (attrs e))) by (intros H; apply (proj2 (Hk _ H)); reflexivity).
  assert (E : link_of e = attrs e ++ [("source", source e); ("target", sink e)]).
  { unfold link_of, dict_update; simpl.
    rewrite (dict_set_absent (attrs e) "source") by exact Hs.
    rewrite dict_set_absent.
    - rewrite <- app_assoc; reflexivity.
    - rewrite map_app; intros H; apply in_app_iff in H; destruct H as [H|[H|[]]];
        [exact (Ht H)|discriminate]. }
  rewrite E; unfold dict_item.
  rewrite !dict_get_absent_app by assumption.
  split; [reflexivity|split; [reflexivity|]].
  rewrite dict_remove_absent_app by exact Hs; simpl.
  rewrite dict_remove_absent_app by exact Ht; simpl.
  apply app_nil_r.
Qed.

Lemma not_in_existsb_false : forall n l,
  ~ In n l -> existsb (scalar_eqb n) l = false.
Proof.
  intros n l Hn; destruct (existsb (scalar_eqb n) l) eqn:E; [|reflexivity].
  apply existsb_exists in E; destruct E as [x [Hx Ex]].
  destruct (scalar_eqb_spec n x); [subst; contradiction|discriminate].
Qed.

Lemma add_node_present : forall g n, In n (nodes g) -> add_node g n = g.
Proof.
  intros g n Hn; unfold add_node, has_node.
  destruct (existsb (scalar_eqb n) (nodes g)) eqn:E; [reflexivity|].
  assert (existsb (scalar_eqb n) (nodes g) = true); [|congruence].
  apply existsb_exists; exists n; split; [exact Hn|].
  destruct (scalar_eqb_spec n n); congruence.
Qed.

Lemma add_nodes_fresh : forall ns d pre es,
  NoDup (pre ++ ns) -> add_nodes (mkGraph d pre es) ns = mkGraph d (pre ++ ns) es.
Proof.
  unfold add_nodes; induction ns as [|n t IH]; intros d pre es Hnd; simpl.
  - rewrite app_nil_r; reflexivity.
  - unfold add_node at 2, has_node; simpl.
    rewrite not_in_existsb_false
      by (intros H; apply (NoDup_remove_2 _ _ _ Hnd); apply in_or_app; left; exact H).
    rewrite IH; [rewrite <- app_assoc; reflexivity|].
    rewrite <- app_assoc; exact Hnd.
Qed.

Lemma distinct_pairs_later : forall d pre e l,
  distinct_pairs d (pre ++ e :: l) ->
  forall e', In e' pre -> same_pair d (source e) (sink e) e' = false.
Proof.
  intros d pre e l; induction pre as [|x t IH]; intros H e' He'; [destruct He'|].
  simpl in H; destruct H as [Hx Ht]; destruct He' as [<-|He'].
  - apply Hx; apply in_or_app; right; left; reflexivity.
  - exact (IH Ht e' He').
Qed.

Lemma is_none_false : forall x, x <> SNone -> is_none x = false.
Proof. intros [] H; [contradiction|reflexivity..]. Qed.

Lemma fold_links : forall d N, (forall x, In x N -> x <> SNone) -> forall l pre,
  (forall e, In e l -> In (source e) N /\ In (sink e) N) ->
  (forall e, In e l -> attrs_ok (attrs e)) ->
  distinct_pairs d (pre ++ l) ->
  fold_left add_link (map link_of l) (Ok (mkGraph d N pre))
  = Ok (mkGraph d N (pre ++ l)).
Proof.
  intros d N HN; induction l as [|e t IH]; intros pre Hends Hat Hp; cbn [map fold_left].
  - rewrite app_nil_r; reflexivity.
  - destruct (link_fields e (Hat e (or_introl eq_refl))) as [Es [Et Er]].
    destruct (Hends e (or_introl eq_refl)) as [Hs Ht].
    assert (Estep : add_link (Ok (mkGraph d N pre)) (link_of e)
                    = Ok (add_edge (mkGraph d N pre) (source e) (sink e) (attrs e))).
    { unfold add_link; simpl; rewrite Es; simpl; rewrite Et; simpl; rewrite Er.
      unfold add_edge_checked; rewrite (is_none_false _ (HN _ Hs)), (is_none_false _ (HN _ Ht)).
      reflexivity. }
    rewrite Estep; unfold add_edge.
    rewrite (add_node_present (mkGraph d N pre) (source e)) by exact Hs.
    rewrite (add_node_present (mkGraph d N pre) (sink e)) by exact Ht.
    simpl.
    replace (existsb (same_pair d (source e) (sink e)) pre) with false.
    2:{ symmetry; apply not_true_iff_false; intros E.
        apply existsb_exists in E; destruct E as [e' [He' E']].
        rewrite (distinct_pairs_later d pre e t Hp e' He') in E'; discriminate. }
    replace (mkEdge (source e) (sink e) (attrs e)) with e by (destruct e; reflexivity).
    rewrite IH.
    + rewrite <- app_assoc; reflexivity.
    + intros x Hx; apply Hends; right; exact Hx.
    + intros x Hx; apply Hat; right; exact Hx.
    + rewrite <- app_assoc; exact Hp.
Qed.

Lemma scalar_eqb_sym : forall x y, scalar_eqb x y = scalar_eqb y x.
Proof.
  intros x y; destruct (scalar_eqb_spec x y), (scalar_eqb_spec y x); congruence.
Qed.

Lemma same_pair_sym : forall d a b,
  same_pair d (source b) (sink b) a = same_pair d (source a) (sink a) b.
Proof.
  intros d a b; unfold same_pair.
  rewrite (scalar_eqb_sym (source b) (source a)), (scalar_eqb_sym (sink b) (sink a)),
    (scalar_eqb_sym (source b) (sink a)), (scalar_eqb_sym (sink b) (source a)).
  destruct (scalar_eqb (source a) (source b)), (scalar_eqb (sink a) (sink b)),
    (scalar_eqb (source a) (sink b)), (scalar_eqb (sink a) (source b)), d;
    reflexivity.
Qed.

Lemma distinct_pairs_perm : forall d l l',
  Permutation l l' -> distinct_pairs d l -> distinct_pairs d l'.
Proof.
  intros d l l' HP; induction HP as [|x l l' HP IH|y x l|l l' l'' _ IH1 _ IH2];
    simpl; intros H.
  - exact I.
  - destruct H as [Hx Hl]; split; [|exact (IH Hl)].
    intros e' He'; apply Hx; apply (Permutation_in e' (Permutation_sym HP)); exact He'.
  - destruct H as [Hy [Hx Hl]]; split; [|split; [|exact Hl]].
    + intros e' [<-|He'].
      * rewrite same_pair_sym; apply Hy; left; reflexivity.
      * apply Hx; exact He'.
    + intros e' He'; apply Hy; right; exact He'.
  - exact (IH2 (IH1 H)).
Qed.

Lemma same_pair_listed : forall d a a0 b b0,
  listed_as d a a0 -> listed_as d b b0 ->
  same_pair d (source b) (sink b) a = same_pair d (source b0) (sink b0) a0.
Proof.
  intros d a a0 b b0 Ha Hb.
  destruct Ha as [->|[Hd ->]], Hb as [->|[Hd' ->]]; try reflexivity;
    subst d; unfold same_pair, flip_edge; simpl;
    destruct (scalar_eqb (source a0) (source b0)), (scalar_eqb (sink a0) (sink b0)),
      (scalar_eqb (source a0) (sink b0)), (scalar_eqb (sink a0) (source b0)),
      (scalar_eqb (sink a0) (sink b0)); reflexivity.
Qed.

Lemma Forall2_in_l : forall {A B : Type} (R : A -> B -> Prop) l l0 x,
  Forall2 R l l0 -> In x l -> exists x0, In x0 l0 /\ R x x0.
Proof.
  intros A B R l l0 x H; induction H as [|a b t t0 Hab _ IH]; intros Hx; [destruct Hx|].
  destruct Hx as [<-|Hx].
  - exists b; split; [left; reflexivity|exact Hab].
  - destruct (IH Hx) as [x0 [Hx0 Rx]]; exists x0; split; [right; exact Hx0|exact Rx].
Qed.

Lemma distinct_pairs_listed : forall d l l0,
  Forall2 (listed_as d) l l0 -> distinct_pairs d l0 -> distinct_pairs d l.
Proof.
  intros d l l0 H; induction H as [|a a0 t t0 Ha Ht IH]; simpl; [auto|].
  intros [Hx Hl]; split; [|exact (IH Hl)].
  intros e' He'; destruct (Forall2_in_l _ _ _ _ Ht He') as [e0 [He0 Re]].
  rewrite (same_pair_listed d a a0 e' e0 Ha Re); apply Hx; exact He0.
Qed.

Lemma edge_listing_props : forall g l,
  graph_wf g -> edge_listing (directed g) l (edges g) ->
  distinct_pairs (directed g) l
  /\ (forall e, In e l -> In (source e) (nodes g) /\ In (sink e) (nodes g))
  /\ (forall e, In e l -> attrs_ok (attrs e)).
Proof.
  intros g l [Hn He Hp Ha] [l0 [HP HF]].
  split; [|split].
  - apply (distinct_pairs_listed _ _ _ HF).
    exact (distinct_pairs_perm _ _ _ (Permutation_sym HP) Hp).
  - intros e Hin; destruct (Forall2_in_l _ _ _ _ HF Hin) as [e0 [He0 [->|[_ ->]]]];
      destruct (He e0 (Permutation_in _ HP He0)); simpl; auto.
  - intros e Hin; destruct (Forall2_in_l _ _ _ _ HF Hin) as [e0 [He0 [->|[_ ->]]]];
      simpl; apply Ha; exact (Permutation_in _ HP He0).
Qed.

Lemma add_doc_nodes_ids : forall ns g k,
  (forall x, In x ns -> x <> SNone) ->
  add_doc_nodes g k (map (fun n => [("id", n)]) ns) = Ok (add_nodes g ns).
Proof.
  induction ns as [|n t IH]; intros g k Hn; simpl; [reflexivity|].
  unfold doc_node_id; simpl.
  rewrite (is_none_false _ (Hn n (or_introl eq_refl))).
  apply IH; intros x Hx; apply Hn; right; exact Hx.
Qed.

(** A well-formed graph is read back from any listing of its edges, with
    the edges in the listed order and orientation. *)
Lemma node_link_roundtrip : forall g l directed0,
  graph_wf g -> (forall x, In x (nodes g) -> x <> SNone) ->
  edge_listing (directed g) l (edges g) ->
  node_link_graph (node_link_data_of g l) directed0
  = Ok (mkGraph (directed g) (nodes g) l).
Proof.
  intros g l directed0 Hwf HN Hl.
  destruct (edge_listing_props g l Hwf Hl) as [Hp [Hends Hat]].
  unfold node_link_graph, node_link_data_of; cbn [nl_multigraph nl_directed nl_nodes nl_links truthy].
  rewrite (add_doc_nodes_ids _ _ _ HN); cbn [bind]; unfold empty_graph.
  rewrite add_nodes_fresh by exact (wf_nodes g Hwf); simpl.
  exact (fold_links (directed g) (nodes g) HN l [] Hends Hat Hp).
Qed.

Lemma edge_listing_refl : forall d es, edge_listing d es es.
Proof.
  intros d es; exists es; split; [apply Permutation_refl|].
  induction es as [|e t IH]; constructor; [left; reflexivity|exact IH].
Qed.


(** *** The metabolite order of [groupby] *)

Lemma str_leb_refl : forall s, String.leb s s = true.
Proof.
  intros s; unfold String.leb.
  replace (String.compare s s) with Eq; [reflexivity|].
  induction s as [|c s IH]; simpl; [reflexivity|].
  unfold Ascii.compare; rewrite N.compare_refl; exact IH.
Qed.

Lemma str_leb_trans : forall a b c,
  String.leb a b = true -> String.leb b c = true -> String.leb a c = true.
Proof.
  unfold String.leb.
  induction a as [|x a IH]; intros [|y b] [|z c] H1 H2; simpl in *;
    try discriminate; try reflexivity.
  unfold Ascii.compare in *.
  destruct (N.compare_spec (N_of_ascii x) (N_of_ascii y)) as [Exy|Lxy|Gxy];
  destruct (N.compare_spec (N_of_ascii y) (N_of_ascii z)) as [Eyz|Lyz|Gyz];
  try discriminate;
  destruct (N.compare_spec (N_of_ascii x) (N_of_ascii z)) as [Exz|Lxz|Gxz];
  try reflexivity; try lia.
  exact (IH b c H1 H2).
Qed.

Lemma str_leb_flip : forall a b, String.leb a b = false -> String.leb b a = true.
Proof.
  intros a b H; destruct (String.leb_total a b) as [H'|H']; [congruence|exact H'].
Qed.

Definition str_le (x y : string) : Prop := String.leb x y = true.

Lemma insert_str_in : forall s l x, In x (insert_str s l) <-> s = x \/ In x l.
Proof.
  intros s l x; induction l as [|h t IH]; simpl.
  - tauto.
  - destruct (String.leb s h); simpl; [tauto|].
    rewrite IH; tauto.
Qed.

Lemma sort_str_in : forall l x, In x (sort_str l) <-> In x l.
Proof.
  intros l x; induction l as [|h t IH]; simpl; [tauto|].
  rewrite insert_str_in, IH; split; intros [H|H]; auto.
Qed.

Lemma insert_str_sorted : forall s l,
  StronglySorted str_le l -> StronglySorted str_le (insert_str s l).
Proof.
  intros s l; induction l as [|h t IH]; intros Hs; simpl.
  - constructor; constructor.
  - apply StronglySorted_inv in Hs; destruct Hs as [Ht Hh].
    destruct (String.leb s h) eqn:E.
    + constructor; [constructor; assumption|].
      constructor; [exact E|].
      eapply Forall_impl; [|exact Hh]; intros y Hy; exact (str_leb_trans _ _ _ E Hy).
    + constructor; [exact (IH Ht)|].
      apply Forall_forall; intros y Hy; apply insert_str_in in Hy.
      destruct Hy as [<-|Hy]; [exact (str_leb_flip _ _ E)|].
      rewrite Forall_forall in Hh; exact (Hh y Hy).
Qed.

Lemma sort_str_sorted : forall l, StronglySorted str_le (sort_str l).
Proof.
  induction l as [|h t IH]; simpl; [constructor|].
  apply insert_str_sorted; exact IH.
Qed.

(** The last key of a sorted list satisfying [P] is its greatest one. *)
Lemma fold_last_key : forall (P : string -> bool) keys (o0 : option string),
  StronglySorted str_le keys ->
  ((forall k, In k keys -> P k = false)
   /\ fold_left (fun o k => if P k then Some k else o) keys o0 = o0)
  \/ (exists k, fold_left (fun o k => if P k then Some k else o) keys o0 = Some k
      /\ In k keys /\ P k = true
      /\ forall k', In k' keys -> P k' = true -> str_le k' k).
Proof.
  intros P; induction keys as [|h t IH]; intros o0 Hs; simpl.
  - left; split; [intros k []|reflexivity].
  - apply StronglySorted_inv in Hs; destruct Hs as [Ht Hh].
    rewrite Forall_forall in Hh.
    destruct (IH (if P h then Some h else o0) Ht) as [[Hnone Hf]|[k [Hf [Hk [HPk Hmax]]]]].
    + rewrite Hf; destruct (P h) eqn:Eh.
      * right; exists h; split; [reflexivity|split; [left; reflexivity|split; [exact Eh|]]].
        intros k' [<-|Hk'] HP; [apply str_leb_refl|].
        rewrite (Hnone k' Hk') in HP; discriminate.
      * left; split; [|reflexivity].
        intros k [<-|Hk]; [exact Eh|exact (Hnone k Hk)].
    + right; exists k; split; [exact Hf|split; [right; exact Hk|split; [exact HPk|]]].
      intros k' [<-|Hk'] HP; [exact (Hh k Hk)|exact (Hmax k' Hk' HP)].
Qed.

(** *** The edge of one pair of nodes *)

Lemma add_node_directed : forall g n, directed (add_node g n) = directed g.
Proof. intros g n; unfold add_node; destruct (has_node g n); reflexivity. Qed.

Lemma add_node_edges : forall g n, edges (add_node g n) = edges g.
Proof. intros g n; unfold add_node; destruct (has_node g n); reflexivity. Qed.

Lemma add_nodes_directed_edges : forall ns g,
  directed (add_nodes g ns) = directed g /\ edges (add_nodes g ns) = edges g.
Proof.
  unfold add_nodes; induction ns as [|n t IH]; intros g; simpl; [auto|].
  destruct (IH (add_node g n)) as [-> ->].
  rewrite add_node_directed, add_node_edges; auto.
Qed.

Lemma add_edge_directed : forall g u v a, directed (add_edge g u v a) = directed g.
Proof.
  intros g u v a; unfold add_edge; cbv zeta.
  destruct (existsb _ _); simpl; rewrite !add_node_directed; reflexivity.
Qed.

Lemma add_edges_from_directed : forall es g, directed (add_edges_from g es) = directed g.
Proof.
  unfold add_edges_from; induction es as [|e t IH]; intros g; simpl; [reflexivity|].
  rewrite IH; apply add_edge_directed.
Qed.

(** Whether an edge is the edge [(u, v)] depends on its end points only. *)
Lemma same_pair_ends : forall d u v e X Y a,
  same_pair d u v e = true -> same_pair d X Y e = same_pair d X Y (mkEdge u v a).
Proof.
  intros d u v [s t a0] X Y a H; unfold same_pair in *; simpl in *.
  destruct (scalar_eqb_spec s u), (scalar_eqb_spec t v); simpl in H; subst.
  - reflexivity.
  - destruct d; simpl in H; [discriminate|].
    destruct (scalar_eqb_spec u v), (scalar_eqb_spec t u); simpl in H; try discriminate; subst.
    congruence.
  - destruct d; simpl in H; [discriminate|].
    destruct (scalar_eqb_spec s v), (scalar_eqb_spec v u); simpl in H; try discriminate; subst.
    congruence.
  - destruct d; simpl in H; [discriminate|].
    destruct (scalar_eqb_spec s v), (scalar_eqb_spec t u); simpl in H; try discriminate; subst.
    simpl.
    destruct (scalar_eqb v X), (scalar_eqb u Y), (scalar_eqb v Y), (scalar_eqb u X);
      reflexivity.
Qed.

Lemma filter_map_stable : forall {A : Type} (p : A -> bool) (f : A -> A) l,
  (forall x, p (f x) = p x) -> filter p (map f l) = map f (filter p l).
Proof.
  intros A p f l Hp; induction l as [|x t IH]; simpl; [reflexivity|].
  rewrite Hp; destruct (p x); simpl; rewrite IH; reflexivity.
Qed.

Section PairEdge.
Variables (A B : scalar).

Definition pair_edges (g : graph) : list edge :=
  filter (same_pair (directed g) A B) (edges g).

Lemma add_edge_pair_edges : forall g u v a,
  pair_edges (add_edge g u v a) =
  if same_pair (directed g) A B (mkEdge u v a) then
    match pair_edges g with
    | [] => [mkEdge u v a]
    | es => map (fun e => mkEdge (source e) (sink e) (dict_update (attrs e) a)) es
    end
  else pair_edges g.
Proof.
  intros g u v a; unfold pair_edges; rewrite add_edge_directed.
  unfold add_edge; cbv zeta; rewrite !add_node_directed, !add_node_edges.
  set (d := directed g).
  set (f := fun e => if same_pair d u v e
                     then mkEdge (source e) (sink e) (dict_update (attrs e) a) else e).
  assert (Hf : forall e, same_pair d A B (f e) = same_pair d A B e).
  { intros e; unfold f; destruct (same_pair d u v e); reflexivity. }
  destruct (same_pair d A B (mkEdge u v a)) eqn:Euv.
  - assert (Hiff : forall e, same_pair d u v e = same_pair d A B e).
    { intros e; destruct (same_pair d u v e) eqn:E1.
      - rewrite (same_pair_ends d u v e A B a E1); symmetry; exact Euv.
      - destruct (same_pair d A B e) eqn:E2; [|reflexivity].
        rewrite (same_pair_ends d A B e u v a E2) in E1.
        pose proof (same_pair_sym d (mkEdge A B a) (mkEdge u v a)) as S; simpl in S.
        congruence. }
    destruct (filter (same_pair d A B) (edges g)) as [|e0 t] eqn:Ef.
    + replace (existsb (same_pair d u v) (edges g)) with false.
      * cbn [edges]; rewrite filter_app, Ef; simpl; rewrite Euv; reflexivity.
      * symmetry; apply not_true_iff_false; intros Ex.
        apply existsb_exists in Ex; destruct Ex as [e [He Ee]].
        rewrite Hiff in Ee.
        assert (In e (filter (same_pair d A B) (edges g))) by (apply filter_In; auto).
        rewrite Ef in H; destruct H.
    + replace (existsb (same_pair d u v) (edges g)) with true.
      * cbn [edges]; fold f; rewrite filter_map_stable by exact Hf; rewrite Ef.
        apply map_ext_in; intros e He.
        unfold f; rewrite Hiff.
        rewrite <- Ef in He; apply filter_In in He; destruct He as [_ ->]; reflexivity.
      * symmetry; apply existsb_exists; exists e0.
        assert (In e0 (filter (same_pair d A B) (edges g))) by (rewrite Ef; left; reflexivity).
        apply filter_In in H; rewrite Hiff; exact H.
  - destruct (existsb (same_pair d u v) (edges g)); cbn [edges].
    + fold f; rewrite filter_map_stable by exact Hf.
      rewrite <- (map_id (filter (same_pair d A B) (edges g))) at 2.
      apply map_ext_in; intros e He; apply filter_In in He; destruct He as [_ He].
      unfold f; destruct (same_pair d u v e) eqn:E1; [|reflexivity].
      rewrite (same_pair_ends d u v e A B a E1), Euv in He; discriminate.
    + rewrite filter_app; simpl; rewrite Euv, app_nil_r; reflexivity.
Qed.

End PairEdge.

Section PairAnnotation.
Variables (A B : scalar).

(** The ["metabolite"] value the edge [(A, B)] holds after one more edge. *)
Definition pair_annotation (d : bool) (o : option scalar) (e : edge) : option scalar :=
  if same_pair d A B e then dict_get (attrs e) "metabolite" else o.

Definition pair_state (g : graph) (o : option scalar) : Prop :=
  match o with
  | None => pair_edges A B g = []
  | Some x => exists e1, pair_edges A B g = [e1] /\ attrs e1 = [("metabolite", x)]
  end.

Lemma add_edges_from_pair : forall es g o,
  (forall e, In e es -> exists x, attrs e = [("metabolite", x)]) ->
  pair_state g o ->
  pair_state (add_edges_from g es) (fold_left (pair_annotation (directed g)) es o).
Proof.
  unfold add_edges_from; induction es as [|e t IH]; intros g o Hes Hs; simpl; [exact Hs|].
  destruct (Hes e (or_introl eq_refl)) as [x Hx].
  pose proof (IH (add_edge g (source e) (sink e) (attrs e))
                 (pair_annotation (directed g) o e)) as IH'.
  rewrite add_edge_directed in IH'.
  apply IH'; [intros e' He'; apply Hes; right; exact He'|].
  unfold pair_state, pair_annotation; rewrite add_edge_pair_edges.
  replace (mkEdge (source e) (sink e) (attrs e)) with e by (destruct e; reflexivity).
  destruct (same_pair (directed g) A B e).
  - rewrite Hx; simpl; exists (match pair_edges A B g with
                               | [] => e
                               | e0 :: _ => mkEdge (source e0) (sink e0) (dict_update (attrs e0) (attrs e))
                               end).
    destruct o as [y|]; simpl in Hs.
    + destruct Hs as [e1 [-> Ha1]]; simpl; rewrite Ha1, Hx; split; reflexivity.
    + rewrite Hs; split; [reflexivity|exact Hx].
  - exact Hs.
Qed.

Lemma fold_pair_annotation_const : forall d l o x,
  (forall e, In e l -> attrs e = [("metabolite", x)]) ->
  fold_left (pair_annotation d) l o
  = if existsb (same_pair d A B) l then Some x else o.
Proof.
  intros d l; induction l as [|e t IH]; intros o x Hl; simpl; [reflexivity|].
  rewrite (IH _ x) by (intros e' He'; apply Hl; right; exact He').
  unfold pair_annotation; rewrite (Hl e (or_introl eq_refl)); simpl.
  destruct (same_pair d A B e), (existsb (same_pair d A B) t); reflexivity.
Qed.

End PairAnnotation.

Lemma fold_left_concat_map : forall {X Y Z : Type} (f : Z -> Y -> Z) (F : X -> list Y) l z,
  fold_left f (List.concat (map F l)) z = fold_left (fun z x => fold_left f (F x) z) l z.
Proof.
  intros X Y Z f F l; induction l as [|x t IH]; intros z; simpl; [reflexivity|].
  rewrite fold_left_app; apply IH.
Qed.

Lemma fold_option_map : forall (P : string -> bool) keys (o : option string),
  fold_left (fun o k => if P k then Some (SStr k) else o) keys (option_map SStr o)
  = option_map SStr (fold_left (fun o k => if P k then Some k else o) keys o).
Proof.
  intros P; induction keys as [|k t IH]; intros o; simpl; [reflexivity|].
  destruct (P k); [apply (IH (Some k))|apply IH].
Qed.

Lemma same_pair_undirected_iff : forall A B x y a,
  same_pair false A B (mkEdge x y a) = true <-> (x = A /\ y = B) \/ (x = B /\ y = A).
Proof.
  intros A B x y a; unfold same_pair; simpl.
  destruct (scalar_eqb_spec x A), (scalar_eqb_spec y B),
    (scalar_eqb_spec x B), (scalar_eqb_spec y A); simpl; intuition congruence.
Qed.

Lemma combinations2_in : forall {X : Type} (l : list X) x y,
  In (x, y) (combinations2 l) -> In x l /\ In y l.
Proof.
  intros X l; induction l as [|h t IH]; intros x y H; simpl in H; [destruct H|].
  apply in_app_iff in H; destruct H as [H|H].
  - apply in_map_iff in H; destruct H as [z [E Hz]]; injection E as <- <-.
    split; [left; reflexivity|right; exact Hz].
  - destruct (IH x y H); split; right; assumption.
Qed.

Lemma combinations2_complete : forall {X : Type} (l : list X) x y,
  x <> y -> In x l -> In y l ->
  In (x, y) (combinations2 l) \/ In (y, x) (combinations2 l).
Proof.
  intros X l; induction l as [|h t IH]; intros x y Hne Hx Hy; [destruct Hx|].
  simpl; destruct Hx as [<-|Hx], Hy as [<-|Hy].
  - contradiction.
  - left; apply in_or_app; left; apply in_map; exact Hy.
  - right; apply in_or_app; left; apply in_map; exact Hx.
  - destruct (IH x y Hne Hx Hy); [left|right]; apply in_or_app; right; assumption.
Qed.

Lemma group_members : forall (P : list (scalar * string)) k x,
  In x (map fst (filter (fun r => String.eqb (snd r) k) P)) <-> In (x, k) P.
Proof.
  intros P k x; rewrite in_map_iff; split.
  - intros [[x' k'] [E H]]; simpl in E; subst x'.
    apply filter_In in H; destruct H as [H Ek]; simpl in Ek.
    apply String.eqb_eq in Ek; subst k'; exact H.
  - intros H; exists (x, k); split; [reflexivity|].
    apply filter_In; split; [exact H|apply String.eqb_refl].
Qed.

Lemma same_projection : forall m m',
  map (fun r => (r_id r, r_metabolites r)) m' = map (fun r => (r_id r, r_metabolites r)) m ->
  rxn_met_pairs m' = rxn_met_pairs m /\ reaction_nodes m' = reaction_nodes m.
Proof.
  induction m as [|r t IH]; intros [|r' t'] H; simpl in H; try discriminate; [auto|].
  injection H as Hid Hmets Ht.
  destruct (IH t' Ht) as [Hp Hn].
  unfold rxn_met_pairs, reaction_nodes in *; simpl.
  rewrite Hid, Hmets, Hp, Hn; auto.
Qed.

(** The edges [find_edges_from_model] emits for one metabolite group. *)
Definition group_edges (i : impl) (g : string * list (scalar * string)) : list edge :=
  let pairs := combinations2 (map fst (snd g)) in
  let pairs := match i with
               | MetabolicNetwork => pairs
               | ReactionNetwork =>
                   filter (fun p => negb (scalar_eqb (fst p) (snd p))) pairs
               end in
  map (fun p => mkEdge (fst p) (snd p) [("metabolite", SStr (fst g))]) pairs.

Lemma find_edges_groups : forall i m,
  find_edges_from_model i m
  = List.concat (map (group_edges i) (groupby snd (rxn_met_pairs m))).
Proof. reflexivity. Qed.

Lemma group_edges_attrs : forall i g e,
  In e (group_edges i g) -> attrs e = [("metabolite", SStr (fst g))].
Proof.
  intros i g e He; unfold group_edges in He; cbv zeta in He.
  apply in_map_iff in He; destruct He as [p [<- _]]; reflexivity.
Qed.

Lemma group_edges_pair : forall i k rows a b, a <> b ->
  existsb (same_pair false (SStr a) (SStr b)) (group_edges i (k, rows)) = true
  <-> In (SStr a) (map fst rows) /\ In (SStr b) (map fst rows).
Proof.
  intros i k rows a b Hab.
  assert (Hpairs : forall p, In p (match i with
                     | MetabolicNetwork => combinations2 (map fst rows)
                     | ReactionNetwork =>
                         filter (fun p => negb (scalar_eqb (fst p) (snd p)))
                                (combinations2 (map fst rows))
                     end) -> In p (combinations2 (map fst rows))).
  { intros p Hp; destruct i; [exact Hp|apply filter_In in Hp; apply Hp]. }
  unfold group_edges; cbv zeta; rewrite existsb_exists; split.
  - intros [e [He Ee]]; apply in_map_iff in He; destruct He as [[x y] [<- Hp]].
    apply Hpairs in Hp; apply combinations2_in in Hp; destruct Hp as [Hx Hy].
    apply same_pair_undirected_iff in Ee; simpl in Ee.
    destruct Ee as [[-> ->]|[-> ->]]; auto.
  - intros [Ha Hb].
    assert (Hne : SStr a <> SStr b) by congruence.
    assert (Hkeep : forall p, In p (combinations2 (map fst rows)) ->
                    (fst p = SStr a /\ snd p = SStr b) \/ (fst p = SStr b /\ snd p = SStr a) ->
                    In p (match i with
                          | MetabolicNetwork => combinations2 (map fst rows)
                          | ReactionNetwork =>
                              filter (fun p => negb (scalar_eqb (fst p) (snd p)))
                                     (combinations2 (map fst rows))
                          end)).
    { intros p Hp Hab'; destruct i; [exact Hp|].
      apply filter_In; split; [exact Hp|].
      destruct (scalar_eqb_spec (fst p) (snd p)) as [E|E]; [|reflexivity].
      destruct Hab' as [[E1 E2]|[E1 E2]]; congruence. }
    destruct (combinations2_complete _ _ _ Hne Ha Hb) as [Hp|Hp].
    + exists (mkEdge (SStr a) (SStr b) [("metabolite", SStr k)]); split.
      * apply in_map_iff; exists (SStr a, SStr b); split; [reflexivity|].
        apply Hkeep; [exact Hp|left; auto].
      * apply same_pair_undirected_iff; left; auto.
    + exists (mkEdge (SStr b) (SStr a) [("metabolite", SStr k)]); split.
      * apply in_map_iff; exists (SStr b, SStr a); split; [reflexivity|].
        apply Hkeep; [exact Hp|right; auto].
      * apply same_pair_undirected_iff; right; auto.
Qed.

Lemma fold_left_ext_in : forall {X Z : Type} (f g : Z -> X -> Z) l z,
  (forall z x, In x l -> f z x = g z x) -> fold_left f l z = fold_left g l z.
Proof.
  intros X Z f g l; induction l as [|x t IH]; intros z H; simpl; [reflexivity|].
  rewrite (H z x (or_introl eq_refl)); apply IH.
  intros z' x' Hx'; apply H; right; exact Hx'.
Qed.

Lemma fold_left_map' : forall {X Y Z : Type} (f : Z -> Y -> Z) (h : X -> Y) l z,
  fold_left f (map h l) z = fold_left (fun z x => f z (h x)) l z.
Proof.
  intros X Y Z f h l; induction l as [|x t IH]; intros z; simpl; [reflexivity|apply IH].
Qed.

(** [C8] (corrected). In undirected mode, for two distinct reaction ids
    [a] and [b] that share at least one metabolite (both occur with it in
    the reaction-metabolite table [rxn_met_pairs]), the graph holds exactly
    one edge between [a] and [b], in either orientation, and its only
    attribute is the shared metabolite with the greatest id: each later
    (ascending) metabolite group overwrites the attribute. The graph is
    undirected, and it does not depend on flux data: any model with the
    same reaction ids and metabolite coefficients, under any cobra
    library (with any flux variability analysis), gives the same graph. *)
Theorem undirected_edge_greatest_shared_metabolite :
  forall `{Cobra} i m ft G a b,
  create_metabolic_network i (InModel m) ft = Ok G ->
  a <> b ->
  (exists k, In (SStr a, k) (rxn_met_pairs m) /\ In (SStr b, k) (rxn_met_pairs m)) ->
  directed G = false
  /\ (exists e k,
        filter (same_pair false (SStr a) (SStr b)) (edges G) = [e]
        /\ attrs e = [("metabolite", SStr k)]
        /\ In (SStr a, k) (rxn_met_pairs m) /\ In (SStr b, k) (rxn_met_pairs m)
        /\ forall k', In (SStr a, k') (rxn_met_pairs m) ->
                      In (SStr b, k') (rxn_met_pairs m) -> String.leb k' k = true)
  /\ (forall (C' : Cobra) m' ft',
        map (fun r => (r_id r, r_metabolites r)) m'
        = map (fun r => (r_id r, r_metabolites r)) m ->
        @create_metabolic_network C' i (InModel m') ft' = Ok G).
Proof.
  intros C i m ft G a b HG Hab [k0 [Ha0 Hb0]].
  unfold create_metabolic_network in HG; simpl in HG; injection HG as <-.
  destruct (add_nodes_directed_edges (reaction_nodes m) (empty_graph false)) as [Hd0 He0].
  set (g0 := add_nodes (empty_graph false) (reaction_nodes m)) in *.
  set (P := rxn_met_pairs m) in *.
  split; [rewrite add_edges_from_directed; exact Hd0|].
  split.
  - set (Pk := fun k => existsb (same_pair false (SStr a) (SStr b))
                          (group_edges i (k, filter (fun r => String.eqb (snd r) k) P))).
    set (keys := sort_str (nodup string_dec (map snd P))).
    assert (Hkeys : forall k, In k keys <-> In k (map snd P)).
    { intros k; unfold keys; rewrite sort_str_in; apply nodup_In. }
    assert (HPk : forall k, Pk k = true <-> In (SStr a, k) P /\ In (SStr b, k) P).
    { intros k; unfold Pk; rewrite group_edges_pair by exact Hab.
      rewrite !group_members; tauto. }
    assert (Hattrs : forall e, In e (find_edges_from_model i m) ->
                     exists x, attrs e = [("metabolite", x)]).
    { intros e He; rewrite find_edges_groups in He.
      apply in_concat in He; destruct He as [es [Hes He]].
      apply in_map_iff in Hes; destruct Hes as [g [<- _]].
      exists (SStr (fst g)); exact (group_edges_attrs i g e He). }
    assert (Hinit : pair_state (SStr a) (SStr b) g0 None).
    { simpl; unfold pair_edges; rewrite He0; reflexivity. }
    pose proof (add_edges_from_pair (SStr a) (SStr b) (find_edges_from_model i m) g0 None
                  Hattrs Hinit) as Hst.
    assert (Hfold : fold_left (pair_annotation (SStr a) (SStr b) (directed g0))
                      (find_edges_from_model i m) None
                    = option_map SStr (fold_left (fun o k => if Pk k then Some k else o)
                                                  keys None)).
    { rewrite <- fold_option_map, Hd0, find_edges_groups, fold_left_concat_map.
      unfold groupby; rewrite fold_left_map'.
      apply fold_left_ext_in; intros o k _.
      rewrite (fold_pair_annotation_const (SStr a) (SStr b) false _ o (SStr k)).
      - reflexivity.
      - intros e He; exact (group_edges_attrs i _ e He). }
    rewrite Hfold in Hst.
    destruct (fold_last_key Pk keys None (sort_str_sorted _))
      as [[Hnone _]|[k [Hk [Hin [HPkk Hmax]]]]].
    + exfalso.
      assert (Pk k0 = true) as E by (apply HPk; auto).
      rewrite (Hnone k0) in E; [discriminate|].
      apply Hkeys; apply in_map_iff; exists (SStr a, k0); auto.
    + rewrite Hk in Hst; simpl in Hst; destruct Hst as [e1 [He1 Ha1]].
      unfold pair_edges in He1; rewrite add_edges_from_directed, Hd0 in He1.
      apply HPk in HPkk; destruct HPkk as [Hak Hbk].
      exists e1, k; split; [exact He1|split; [exact Ha1|split; [exact Hak|split; [exact Hbk|]]]].
      intros k' Hak' Hbk'; apply Hmax.
      * apply Hkeys; apply in_map_iff; exists (SStr a, k'); auto.
      * apply HPk; auto.
  - intros C' m' ft' Hproj.
    destruct (same_projection m m' Hproj) as [Hp Hn].
    unfold create_metabolic_network; simpl.
    unfold find_edges_from_model; rewrite Hp, Hn; reflexivity.
Qed.

Lemma undirected_edge_greatest_shared_metabolite_witness :
  let G := mkGraph false [SStr "A"; SStr "B"]
             [mkEdge (SStr "A") (SStr "B") [("metabolite", SStr "m2")]] in
  @create_metabolic_network (fixed_fva_cobra []) MetabolicNetwork
     (InModel two_shared_model) None = Ok G
  /\ exists e k,
       filter (same_pair false (SStr "A") (SStr "B")) (edges G) = [e]
       /\ attrs e = [("metabolite", SStr k)].
Proof.
  intros G.
  assert (E : @create_metabolic_network (fixed_fva_cobra []) MetabolicNetwork
                (InModel two_shared_model) None = Ok G) by reflexivity.
  split; [exact E|].
  assert (Hab : "A" <> "B") by discriminate.
  assert (Hsh : exists k, In (SStr "A", k) (rxn_met_pairs two_shared_model)
                          /\ In (SStr "B", k) (rxn_met_pairs two_shared_model)).
  { exists "m1"; split; simpl; auto. }
  destruct (undirected_edge_greatest_shared_metabolite MetabolicNetwork two_shared_model
              None G "A" "B" E Hab Hsh) as [_ [[e [k [He [Ha _]]]] _]].
  exists e, k; split; [exact He|exact Ha].
Defined.

(** *** Directed construction needs no stored flux data *)

Lemma mapM_exists : forall {X Y : Type} (f : X -> res Y) l,
  (forall x, In x l -> exists y, f x = Ok y) -> exists ys, mapM f l = Ok ys.
Proof.
  intros X Y f l; induction l as [|x t IH]; intros H; simpl; [eexists; reflexivity|].
  destruct (H x (or_introl eq_refl)) as [y ->]; simpl.
  destruct IH as [ys ->]; [intros x' Hx'; apply H; right; exact Hx'|].
  eexists; reflexivity.
Qed.

Lemma find_in_some : forall {X : Type} (p : X -> bool) l x,
  In x l -> p x = true -> exists y, find p l = Some y.
Proof.
  intros X p l x Hx Hp; destruct (find p l) as [y|] eqn:E; [eexists; reflexivity|].
  rewrite (find_none _ _ E x Hx) in Hp; discriminate.
Qed.

Lemma reaction_rows_ok : forall tbl r,
  (r_metabolites r <> [] -> exists mm, In (r_id r, mm) tbl) ->
  exists rows, reaction_rows tbl r = Ok rows.
Proof.
  intros tbl r Htbl; unfold reaction_rows; apply mapM_exists.
  intros [met c] Hmc.
  destruct Htbl as [mm Hmm]; [intros E; rewrite E in Hmc; destruct Hmc|].
  cbv zeta; unfold get_coefficient; cbn [fst].
  destruct (find_in_some (fun mc => String.eqb (fst mc) met) (r_metabolites r) (met, c) Hmc
              (String.eqb_refl met)) as [[met' c'] ->].
  unfold fva_loc.
  destruct (find_in_some (fun x => String.eqb (fst x) (r_id r)) tbl (r_id r, mm) Hmm
              (String.eqb_refl _)) as [[id mm'] ->].
  simpl; eexists; reflexivity.
Qed.

Lemma metabolite_candidates_ok : forall rw met src snk,
  exists cs, metabolite_candidates rw met src snk = Ok cs.
Proof.
  intros rw met src snk; unfold metabolite_candidates; apply mapM_exists.
  intros [s k] Hp; apply in_prod_iff in Hp; destruct Hp as [Hs _]; simpl in Hs.
  apply in_map_iff in Hs; destruct Hs as [e [<- He]].
  cbn [fst snd]; unfold loc_source.
  destruct (find_in_some (fun e' => scalar_eqb (e_rxn e') (e_rxn e)) src e He)
    as [e' ->]; [destruct (scalar_eqb_spec (e_rxn e) (e_rxn e)); congruence|].
  simpl; eexists; reflexivity.
Qed.

Lemma resolve_edges_ok : forall i rw cs, exists es, resolve_edges i rw cs = Ok es.
Proof.
  intros i rw cs; unfold resolve_edges.
  destruct (mapM_exists (resolve_step i rw) (candidate_groups cs)) as [rs ->].
  - intros [k df] Hkg; unfold candidate_groups in Hkg.
    apply in_map_iff in Hkg; destruct Hkg as [k' [E Hk']]; injection E as <- <-.
    apply nodup_In, in_map_iff in Hk'; destruct Hk' as [c [Ec Hc]].
    assert (Hne : filter (fun c0 => pair_eqb (pair_key c0) k') cs <> []).
    { intros E; assert (Hin : In c (filter (fun c0 => pair_eqb (pair_key c0) k') cs)).
      { apply filter_In; split; [exact Hc|].
        destruct (pair_eqb_spec (pair_key c) k'); congruence. }
      rewrite E in Hin; destruct Hin. }
    destruct (resolve_group_spec rw k' _ Hne) as [l1 [c0 [l2 [_ [Er _]]]]].
    unfold resolve_step; simpl fst; simpl snd.
    destruct i; [rewrite Er; simpl; eexists; reflexivity|].
    destruct (scalar_eqb _ _); [eexists; reflexivity|rewrite Er; simpl; eexists; reflexivity].
  - simpl; eexists; reflexivity.
Qed.

Lemma mapM_err : forall {X Y : Type} (f : X -> res Y) l e,
  mapM f l = Err e -> exists x, In x l /\ f x = Err e.
Proof.
  intros X Y f l; induction l as [|x t IH]; intros e H; simpl in H; [discriminate|].
  destruct (f x) as [y|e'] eqn:Ef; simpl in H.
  - destruct (mapM f t) as [ys|e''] eqn:Et; simpl in H; [discriminate|].
    injection H as <-; destruct (IH e'' eq_refl) as [x' [Hx' E']].
    exists x'; split; [right; exact Hx'|exact E'].
  - injection H as <-; exists x; split; [left; reflexivity|exact Ef].
Qed.

Lemma reaction_rows_err : forall tbl r e, reaction_rows tbl r = Err e -> e = KeyError.
Proof.
  intros tbl r e H; unfold reaction_rows in H.
  destruct (mapM_err _ _ _ H) as [[met c] [_ Ee]]; cbv zeta in Ee.
  unfold get_coefficient, fva_loc in Ee.
  destruct (find _ (r_metabolites r)) as [[? ?]|]; simpl in Ee; [|congruence].
  destruct (find _ tbl) as [[? ?]|]; simpl in Ee; congruence.
Qed.

Lemma all_candidates_ok : forall i rw rows, exists cs, all_candidates i rw rows = Ok cs.
Proof.
  intros i rw rows; unfold all_candidates.
  destruct (mapM_exists (fun g => metabolite_candidates rw (fst g)
                                    (source_df i (snd g)) (sinks_df (snd g)))
              (groupby met rows)) as [css ->].
  - intros g _; apply metabolite_candidates_ok.
  - simpl; eexists; reflexivity.
Qed.

Lemma find_directed_edges_succeeds : forall `{Cobra} i m rw lp prop tbl rowss,
  flux_variability_analysis m lp prop = Ok tbl ->
  mapM (reaction_rows tbl) m = Ok rowss ->
  exists es, find_directed_edges_from_model i m rw lp prop = Ok es.
Proof.
  intros C i m rw lp prop tbl rowss Hfva Hrows.
  unfold find_directed_edges_from_model; rewrite Hfva; cbn [bind]; rewrite Hrows; cbn [bind].
  destruct (all_candidates_ok i rw (List.concat rowss)) as [cs ->]; cbn [bind].
  apply resolve_edges_ok.
Qed.

Lemma find_directed_edges_err : forall `{Cobra} i m rw lp prop e,
  find_directed_edges_from_model i m rw lp prop = Err e ->
  flux_variability_analysis m lp prop = Err e \/ e = KeyError.
Proof.
  intros C i m rw lp prop e He.
  destruct (flux_variability_analysis m lp prop) as [tbl|e'] eqn:Ef.
  - right.
    destruct (mapM (reaction_rows tbl) m) as [rowss|e'] eqn:Er.
    + destruct (find_directed_edges_succeeds i m rw lp prop tbl rowss Ef Er) as [es Ees].
      congruence.
    + unfold find_directed_edges_from_model in He; rewrite Ef in He; cbn [bind] in He.
      rewrite Er in He; cbn [bind] in He; injection He as <-.
      destruct (mapM_err _ _ _ Er) as [r [_ Ee]]; exact (reaction_rows_err _ _ _ Ee).
  - left; unfold find_directed_edges_from_model in He; rewrite Ef in He.
    cbn [bind] in He; injection He as ->; reflexivity.
Qed.

(** [C5] (corrected). Directed construction from a model object runs flux
    variability analysis on the model itself: an error of the analysis is
    the error of the construction; when the analysis returns a table with
    an interval for every reaction that has metabolites, the construction
    returns a graph (no missing-data error exists); any other failure is a
    [KeyError] from a reaction missing from that table. Undirected
    construction from a model object always returns a graph. *)
Theorem directed_construction_runs_fva : forall `{Cobra} i m ft rw lp prop,
  (forall e, flux_variability_analysis m lp prop = Err e ->
     create_directed_metabolic_network i (InModel m) ft rw lp prop = Err e)
  /\ (forall tbl, flux_variability_analysis m lp prop = Ok tbl ->
      (forall r, In r m -> r_metabolites r <> [] -> exists mm, In (r_id r, mm) tbl) ->
      exists G, create_directed_metabolic_network i (InModel m) ft rw lp prop = Ok G)
  /\ (forall e, create_directed_metabolic_network i (InModel m) ft rw lp prop = Err e ->
      flux_variability_analysis m lp prop = Err e \/ e = KeyError)
  /\ (exists G, create_metabolic_network i (InModel m) ft = Ok G).
Proof.
  intros C i m ft rw lp prop.
  assert (Hc : create_directed_metabolic_network i (InModel m) ft rw lp prop
               = (es <- find_directed_edges_from_model i m rw lp prop ;;
                  Ok (add_edges_from (add_nodes (empty_graph true) (reaction_nodes m)) es)))
    by reflexivity.
  split; [|split; [|split]].
  - intros e Hf; rewrite Hc.
    unfold find_directed_edges_from_model; rewrite Hf; reflexivity.
  - intros tbl Hf Htbl; rewrite Hc.
    destruct (mapM_exists (reaction_rows tbl) m) as [rowss Er].
    + intros r Hr; apply reaction_rows_ok; exact (Htbl r Hr).
    + destruct (find_directed_edges_succeeds i m rw lp prop tbl rowss Hf Er) as [es ->].
      eexists; reflexivity.
  - intros e He; rewrite Hc in He.
    destruct (find_directed_edges_from_model i m rw lp prop) as [es|e'] eqn:Ef;
      cbn [bind] in He; [discriminate|].
    injection He as <-; exact (find_directed_edges_err i m rw lp prop e' Ef).
  - eexists; reflexivity.
Qed.

Lemma directed_construction_runs_fva_witness :
  exists G,
    @create_directed_metabolic_network (fixed_fva_cobra spec_example_fva)
       MetabolicNetwork (InModel spec_example_model) None true false (95 # 100)
    = Ok G.
Proof.
  assert (Hfva : @flux_variability_analysis (fixed_fva_cobra spec_example_fva)
                   spec_example_model false (95 # 100) = Ok spec_example_fva)
    by reflexivity.
  assert (Htbl : forall r, In r spec_example_model -> r_metabolites r <> [] ->
                 exists mm, In (r_id r, mm) spec_example_fva).
  { intros r [<-|[<-|[]]] _; simpl; eexists; [left|right; left]; reflexivity. }
  destruct (@directed_construction_runs_fva (fixed_fva_cobra spec_example_fva)
              MetabolicNetwork spec_example_model None true false (95 # 100))
    as [_ [Hok _]].
  exact (Hok spec_example_fva Hfva Htbl).
Defined.

(* ------------------------------------------------------------------ *)
(** ** Nodes and end points of the produced graphs *)

Lemma add_node_nodes_iff : forall g n x,
  In x (nodes (add_node g n)) <-> In x (nodes g) \/ x = n.
Proof.
  intros g n x; unfold add_node, has_node.
  destruct (existsb (scalar_eqb n) (nodes g)) eqn:E; simpl.
  - apply existsb_exists in E; destruct E as [y [Hy Ey]].
    destruct (scalar_eqb_spec n y); [subst|discriminate].
    split; [intros H; left; exact H|intros [H| ->]; assumption].
  - rewrite in_app_iff; simpl; split.
    + intros [H|[<-|[]]]; auto.
    + intros [H| ->]; auto.
Qed.

Lemma add_edge_nodes_iff : forall g u v a x,
  In x (nodes (add_edge g u v a)) <-> In x (nodes g) \/ x = u \/ x = v.
Proof.
  intros g u v a x.
  assert (Hn : nodes (add_edge g u v a) = nodes (add_node (add_node g u) v)).
  { unfold add_edge; cbv zeta; destruct (existsb _ _); reflexivity. }
  rewrite Hn, !add_node_nodes_iff; tauto.
Qed.

Lemma add_nodes_nodes_iff : forall ns g x,
  In x (nodes (add_nodes g ns)) <-> In x (nodes g) \/ In x ns.
Proof.
  unfold add_nodes; induction ns as [|n t IH]; intros g x; simpl.
  - tauto.
  - rewrite IH, add_node_nodes_iff; split; intros H; intuition congruence.
Qed.

Lemma add_edge_known_nodes : forall g u v a,
  In u (nodes g) -> In v (nodes g) -> nodes (add_edge g u v a) = nodes g.
Proof.
  intros g u v a Hu Hv; unfold add_edge; cbv zeta.
  rewrite (add_node_present g u Hu), (add_node_present g v Hv).
  destruct (existsb _ _); reflexivity.
Qed.

(** Adding edges between known nodes adds no node. *)
Lemma add_edges_from_known_nodes : forall es g,
  (forall e, In e es -> In (source e) (nodes g) /\ In (sink e) (nodes g)) ->
  nodes (add_edges_from g es) = nodes g.
Proof.
  unfold add_edges_from; induction es as [|e t IH]; intros g H; simpl; [reflexivity|].
  destruct (H e (or_introl eq_refl)) as [Hs Ht].
  rewrite IH; [apply add_edge_known_nodes; assumption|].
  intros e' He'; rewrite add_edge_known_nodes by assumption.
  apply H; right; exact He'.
Qed.

Lemma add_edge_edge_ends : forall g u v a e,
  In e (edges (add_edge g u v a)) ->
  (exists e0, In e0 (edges g) /\ source e = source e0 /\ sink e = sink e0)
  \/ (source e = u /\ sink e = v).
Proof.
  intros g u v a e.
  set (g1 := add_node (add_node g u) v).
  assert (E1 : edges g1 = edges g) by (unfold g1; rewrite !add_node_edges; reflexivity).
  unfold add_edge; fold g1.
  destruct (existsb (same_pair (directed g1) u v) (edges g1)); simpl; rewrite E1.
  - intros He; apply in_map_iff in He; destruct He as [e0 [<- He0]].
    left; exists e0; destruct (same_pair _ u v e0); simpl; auto.
  - intros He; apply in_app_iff in He; destruct He as [He|[<-|[]]].
    + left; exists e; auto.
    + right; auto.
Qed.

(** A property of end points held by the stored edges and by the added
    ones holds for every edge of the result. *)
Lemma add_edges_from_edge_ends : forall (P : scalar -> scalar -> Prop) es g,
  (forall e, In e (edges g) -> P (source e) (sink e)) ->
  (forall e, In e es -> P (source e) (sink e)) ->
  forall e, In e (edges (add_edges_from g es)) -> P (source e) (sink e).
Proof.
  intros P; unfold add_edges_from; induction es as [|e t IH]; intros g Hg Hes; simpl.
  - exact Hg.
  - apply IH; [|intros x Hx; apply Hes; right; exact Hx].
    intros x Hx; destruct (add_edge_edge_ends _ _ _ _ _ Hx) as [[e0 [He0 [-> ->]]]|[-> ->]].
    + apply Hg; exact He0.
    + apply Hes; left; reflexivity.
Qed.

Lemma groupby_in : forall {A : Type} (key : A -> string) rows g,
  In g (groupby key rows) -> snd g = filter (fun r => String.eqb (key r) (fst g)) rows.
Proof.
  intros A key rows g Hg; unfold groupby in Hg.
  apply in_map_iff in Hg; destruct Hg as [k [<- _]]; reflexivity.
Qed.

Lemma rxn_met_pairs_in : forall m x k,
  In (x, k) (rxn_met_pairs m) -> In x (reaction_nodes m).
Proof.
  intros m x k H; unfold rxn_met_pairs in H.
  apply in_concat in H; destruct H as [l [Hl H]].
  apply in_map_iff in Hl; destruct Hl as [r [<- Hr]].
  apply in_map_iff in H; destruct H as [mc [E _]]; injection E as Ex _.
  unfold reaction_nodes; rewrite <- Ex; apply (in_map (fun r => SStr (r_id r))); exact Hr.
Qed.

(** The undirected edges join reactions of the model. *)
Lemma find_edges_ends : forall i m e,
  In e (find_edges_from_model i m) ->
  In (source e) (reaction_nodes m) /\ In (sink e) (reaction_nodes m).
Proof.
  intros i m e He; rewrite find_edges_groups in He.
  apply in_concat in He; destruct He as [es [Hes He]].
  apply in_map_iff in Hes; destruct Hes as [[k rows] [<- Hg]].
  pose proof (groupby_in _ _ _ Hg) as Hrows; simpl in Hrows; subst rows.
  unfold group_edges in He; cbv zeta in He.
  apply in_map_iff in He; destruct He as [[x y] [<- Hp]].
  assert (Hc : In (x, y) (combinations2 (map fst (filter (fun r => String.eqb (snd r) k)
                                                       (rxn_met_pairs m))))).
  { destruct i; [exact Hp|apply filter_In in Hp; apply Hp]. }
  apply combinations2_in in Hc; destruct Hc as [Hx Hy].
  apply group_members in Hx; apply group_members in Hy.
  simpl; split; eapply rxn_met_pairs_in; eassumption.
Qed.

(** reaction_network.py emits no undirected edge from a reaction to itself. *)
Lemma find_edges_no_loop : forall m e,
  In e (find_edges_from_model ReactionNetwork m) -> source e <> sink e.
Proof.
  intros m e He; rewrite find_edges_groups in He.
  apply in_concat in He; destruct He as [es [Hes He]].
  apply in_map_iff in Hes; destruct Hes as [g [<- _]].
  unfold group_edges in He; cbv zeta in He.
  apply in_map_iff in He; destruct He as [p [<- Hp]].
  apply filter_In in Hp; destruct Hp as [_ Hp]; simpl.
  destruct (scalar_eqb_spec (fst p) (snd p)); [discriminate|assumption].
Qed.

Lemma source_df_mn_rxn : forall df e,
  In e (source_df MetabolicNetwork df) -> exists r, In r df /\ e_rxn e = rxn r.
Proof.
  intros df e He; destruct (source_df_rows _ _ _ He) as [r [Hr He']].
  exists r; split; [exact Hr|].
  unfold source_of_row, clamp_if in He'.
  repeat match goal with
         | H : context [if ?b then _ else _] |- _ => destruct b
         end; simpl in He'; try contradiction; destruct He' as [<-|[]]; reflexivity.
Qed.

Lemma sinks_df_rxn : forall df e,
  In e (sinks_df df) -> exists r, In r df /\ e_rxn e = rxn r.
Proof.
  intros df e He.
  unfold sinks_df, sinks_irreversible_df, reversible_sink_pos_coef_df,
    reversible_sink_neg_coef_df, irreversible_df, reversible_df in He.
  rewrite !in_app_iff in He.
  destruct He as [He|[He|He]]; apply in_map_iff in He; destruct He as [r [<- Hr]];
    rewrite !filter_In in Hr; exists r; (split; [tauto|reflexivity]).
Qed.

Lemma metabolite_candidates_ends : forall rw met src snk cs c,
  metabolite_candidates rw met src snk = Ok cs -> In c cs ->
  In (c_source c) (map e_rxn src) /\ In (c_sink c) (map e_rxn snk).
Proof.
  intros rw met src snk cs c H Hc; unfold metabolite_candidates in H.
  destruct (mapM_in _ _ _ H c Hc) as [p [Hp Ep]].
  destruct (loc_source src (fst p)); cbn [bind] in Ep; [|discriminate].
  injection Ep as <-; destruct p as [x y]; simpl; apply in_prod_iff in Hp; exact Hp.
Qed.

Lemma all_candidates_ends : forall i rw rows cs c,
  all_candidates i rw rows = Ok cs -> In c cs ->
  exists g, In g (groupby met rows)
    /\ In (c_source c) (map e_rxn (source_df i (snd g)))
    /\ In (c_sink c) (map e_rxn (sinks_df (snd g))).
Proof.
  intros i rw rows cs c H Hc; unfold all_candidates in H.
  destruct (mapM _ _) as [css|] eqn:E; cbn [bind] in H; [|discriminate].
  injection H as <-; apply in_concat in Hc; destruct Hc as [cs0 [Hcs0 Hc]].
  destruct (mapM_in _ _ _ E cs0 Hcs0) as [g [Hg Eg]].
  exists g; split; [exact Hg|exact (metabolite_candidates_ends _ _ _ _ _ _ Eg Hc)].
Qed.

Lemma resolve_edges_ends : forall i rw cs es e,
  resolve_edges i rw cs = Ok es -> In e es ->
  exists c, In c cs /\ (source e, sink e) = pair_key c.
Proof.
  intros i rw cs es e H He; unfold resolve_edges in H.
  destruct (mapM _ _) as [rs|] eqn:E; cbn [bind] in H; [|discriminate].
  injection H as <-; apply in_concat in He; destruct He as [es0 [Hes0 He]].
  destruct (mapM_in _ _ _ E es0 Hes0) as [kg [Hkg Ekg]].
  rewrite (resolve_step_keys _ _ _ _ Ekg e He).
  unfold candidate_groups in Hkg; apply in_map_iff in Hkg; destruct Hkg as [k [<- Hk]].
  apply nodup_In, in_map_iff in Hk; destruct Hk as [c [Ec Hc]].
  exists c; split; [exact Hc|simpl; symmetry; exact Ec].
Qed.

(** reaction_network.py resolves no edge from a reaction to itself. *)
Lemma resolve_edges_no_loop : forall rw cs es e,
  resolve_edges ReactionNetwork rw cs = Ok es -> In e es -> source e <> sink e.
Proof.
  intros rw cs es e H He; unfold resolve_edges in H.
  destruct (mapM _ _) as [rs|] eqn:E; cbn [bind] in H; [|discriminate].
  injection H as <-; apply in_concat in He; destruct He as [es0 [Hes0 He]].
  destruct (mapM_in _ _ _ E es0 Hes0) as [[k df] [_ Ekg]].
  pose proof (resolve_step_keys _ _ _ _ Ekg e He) as Hk; cbn [fst] in Hk.
  cbn [resolve_step fst snd] in Ekg.
  destruct (scalar_eqb (fst k) (snd k)) eqn:Eb.
  - injection Ekg as <-; destruct He.
  - intros Est; rewrite <- Hk in Eb; cbn [fst snd] in Eb; rewrite Est in Eb.
    destruct (scalar_eqb_spec (sink e) (sink e)); [discriminate|contradiction].
Qed.

Lemma find_directed_edges_parts : forall `{Cobra} i m rw lp prop es,
  find_directed_edges_from_model i m rw lp prop = Ok es ->
  exists tbl rowss cs, mapM (reaction_rows tbl) m = Ok rowss
    /\ all_candidates i rw (List.concat rowss) = Ok cs
    /\ resolve_edges i rw (source_column cs) = Ok es.
Proof.
  intros C i m rw lp prop es H; unfold find_directed_edges_from_model in H.
  destruct (flux_variability_analysis m lp prop) as [tbl|]; cbn [bind] in H; [|discriminate].
  destruct (mapM (reaction_rows tbl) m) as [rowss|] eqn:E1; cbn [bind] in H; [|discriminate].
  destruct (all_candidates i rw (List.concat rowss)) as [cs|] eqn:E2;
    cbn [bind] in H; [|discriminate].
  exists tbl, rowss, cs; split; [|split]; assumption.
Qed.

Lemma reaction_rows_rxn : forall tbl m rowss x,
  mapM (reaction_rows tbl) m = Ok rowss -> In x (List.concat rowss) ->
  In (rxn x) (reaction_nodes m).
Proof.
  intros tbl m rowss x H Hx; apply in_concat in Hx; destruct Hx as [rows [Hrows Hx]].
  destruct (mapM_in _ _ _ H rows Hrows) as [r [Hr Er]].
  unfold reaction_rows in Er.
  destruct (mapM_in _ _ _ Er x Hx) as [mc [_ Emc]]; cbv zeta in Emc.
  destruct (get_coefficient r (fst mc)); cbn [bind] in Emc; [|discriminate].
  destruct (fva_loc tbl (r_id r)); cbn [bind] in Emc; [|discriminate].
  injection Emc as <-; simpl.
  unfold reaction_nodes; apply (in_map (fun r => SStr (r_id r))); exact Hr.
Qed.

Lemma source_column_in : forall cs c', In c' (source_column cs) ->
  exists c, In c cs
    /\ (c_source c' = c_source c \/ c_source c' = to_int64 (c_source c))
    /\ c_sink c' = c_sink c.
Proof.
  intros cs c' H; unfold source_column in H.
  destruct (forallb _ cs).
  - apply in_map_iff in H; destruct H as [c [<- Hc]]; exists c; simpl; auto.
  - exists c'; auto.
Qed.

Lemma reaction_nodes_int64 : forall m x, In x (reaction_nodes m) -> to_int64 x = x.
Proof.
  intros m x H; unfold reaction_nodes in H; apply in_map_iff in H.
  destruct H as [r [<- _]]; reflexivity.
Qed.

Lemma all_candidates_mn_sources : forall tbl m rowss rw cs c,
  mapM (reaction_rows tbl) m = Ok rowss ->
  all_candidates MetabolicNetwork rw (List.concat rowss) = Ok cs -> In c cs ->
  In (c_source c) (reaction_nodes m).
Proof.
  intros tbl m rowss rw cs c Er Ec Hc.
  destruct (all_candidates_ends _ _ _ _ _ Ec Hc) as [g [Hg [Hs _]]].
  pose proof (groupby_in _ _ _ Hg) as Hrows.
  apply in_map_iff in Hs; destruct Hs as [e1 [<- He1]].
  destruct (source_df_mn_rxn _ _ He1) as [r1 [Hr1 ->]].
  rewrite Hrows in Hr1; apply filter_In in Hr1.
  eapply reaction_rows_rxn; [exact Er|apply Hr1].
Qed.

(** In metabolic_network.py every source is a reaction id, a string, so the
    [source] column keeps its Python objects. *)
Lemma mn_source_column : forall tbl m rowss rw cs,
  mapM (reaction_rows tbl) m = Ok rowss ->
  all_candidates MetabolicNetwork rw (List.concat rowss) = Ok cs ->
  source_column cs = cs.
Proof.
  intros tbl m rowss rw cs Er Ec; unfold source_column.
  destruct cs as [|c cs']; [reflexivity|].
  assert (Hc : In (c_source c) (reaction_nodes m))
    by (eapply all_candidates_mn_sources; [exact Er|exact Ec|left; reflexivity]).
  unfold reaction_nodes in Hc; apply in_map_iff in Hc; destruct Hc as [r [Er' _]].
  simpl; rewrite <- Er'; reflexivity.
Qed.

(** metabolic_network.py's directed edges join reactions of the model. *)
Lemma find_directed_edges_ends_mn : forall `{Cobra} m rw lp prop es e,
  find_directed_edges_from_model MetabolicNetwork m rw lp prop = Ok es -> In e es ->
  In (source e) (reaction_nodes m) /\ In (sink e) (reaction_nodes m).
Proof.
  intros C m rw lp prop es e H He.
  destruct (find_directed_edges_parts _ _ _ _ _ _ H) as [tbl [rowss [cs [Er [Ec Es]]]]].
  destruct (resolve_edges_ends _ _ _ _ _ Es He) as [c' [Hc' Ek]].
  destruct (source_column_in _ _ Hc') as [c [Hc [Hsrc Hsnk]]].
  unfold pair_key in Ek; injection Ek as -> ->; rewrite Hsnk.
  destruct (all_candidates_ends _ _ _ _ _ Ec Hc) as [g [Hg [Hs Ht]]].
  pose proof (groupby_in _ _ _ Hg) as Hrows.
  apply in_map_iff in Hs; destruct Hs as [e1 [Es1 He1]].
  apply in_map_iff in Ht; destruct Ht as [e2 [<- He2]].
  destruct (source_df_mn_rxn _ _ He1) as [r1 [Hr1 Er1]].
  destruct (sinks_df_rxn _ _ He2) as [r2 [Hr2 ->]].
  rewrite Hrows in Hr1, Hr2; apply filter_In in Hr1; apply filter_In in Hr2.
  assert (H1 : In (c_source c) (reaction_nodes m)).
  { rewrite <- Es1, Er1; eapply reaction_rows_rxn; [exact Er|apply Hr1]. }
  split; [|eapply reaction_rows_rxn; [exact Er|apply Hr2]].
  destruct Hsrc as [-> | ->]; [exact H1|rewrite (reaction_nodes_int64 _ _ H1); exact H1].
Qed.

(** [X1]. The graphs of reaction_network.py, undirected and directed,
    contain no edge from a reaction to itself. *)
Theorem reaction_network_no_self_loops :
  forall `{Cobra} model_in ft rw lp prop G,
  (create_metabolic_network ReactionNetwork model_in ft = Ok G
   \/ create_directed_metabolic_network ReactionNetwork model_in ft rw lp prop = Ok G) ->
  forall e, In e (edges G) -> source e <> sink e.
Proof.
  intros C model_in ft rw lp prop G HG.
  destruct HG as [HG|HG].
  - unfold create_metabolic_network in HG.
    destruct (get_model model_in ft) as [m|]; cbn [bind] in HG; [|discriminate].
    injection HG as <-.
    apply (add_edges_from_edge_ends (fun u v => u <> v)).
    + rewrite (proj2 (add_nodes_directed_edges _ _)); intros e [].
    + apply find_edges_no_loop.
  - unfold create_directed_metabolic_network in HG.
    destruct (get_model model_in ft) as [m|]; cbn [bind] in HG; [|discriminate].
    destruct (find_directed_edges_from_model ReactionNetwork m rw lp prop) as [es|] eqn:E;
      cbn [bind] in HG; [|discriminate].
    injection HG as <-.
    destruct (find_directed_edges_parts _ _ _ _ _ _ E) as [tbl [rowss [cs [_ [_ Es]]]]].
    apply (add_edges_from_edge_ends (fun u v => u <> v)).
    + rewrite (proj2 (add_nodes_directed_edges _ _)); intros e [].
    + intros e He; exact (resolve_edges_no_loop _ _ _ _ Es He).
Qed.

Lemma reaction_network_no_self_loops_witness :
  let G := mkGraph true [SStr "A"; SStr "B"]
             [mkEdge (SStr "A") (SStr "B")
                [("weight", SFloat (np_reciprocal (10 * 2 + epsilon)));
                 ("metabolite", SStr "M")]] in
  @create_directed_metabolic_network (fixed_fva_cobra spec_example_fva)
     ReactionNetwork (InModel spec_example_model) None true false (95 # 100)
  = Ok G
  /\ forall e, In e (edges G) -> source e <> sink e.
Proof.
  intros G.
  assert (E : @create_directed_metabolic_network (fixed_fva_cobra spec_example_fva)
                ReactionNetwork (InModel spec_example_model) None true false (95 # 100)
              = Ok G) by (vm_compute; reflexivity).
  split; [exact E|].
  exact (@reaction_network_no_self_loops (fixed_fva_cobra spec_example_fva)
           (InModel spec_example_model) None true false (95 # 100) G (or_intror E)).
Defined.

(** [X2]. The nodes of the undirected graph (both copies) and of the
    directed graph of metabolic_network.py are exactly the reaction ids of
    the model, each once: no edge adds a node. Every edge joins two
    reactions of the model. With distinct reaction ids, the nodes are the
    reaction ids in model order. *)
Theorem created_nodes_are_reactions :
  forall `{Cobra} i model_in ft rw lp prop m G,
  get_model model_in ft = Ok m ->
  (create_metabolic_network i model_in ft = Ok G
   \/ create_directed_metabolic_network MetabolicNetwork model_in ft rw lp prop = Ok G) ->
  (forall x, In x (nodes G) <-> In x (reaction_nodes m))
  /\ NoDup (nodes G)
  /\ (forall e, In e (edges G) ->
        In (source e) (reaction_nodes m) /\ In (sink e) (reaction_nodes m))
  /\ (NoDup (reaction_nodes m) -> nodes G = reaction_nodes m).
Proof.
  intros C i model_in ft rw lp prop m G Hm HG.
  assert (Hwf : graph_wf G).
  { destruct HG as [HG|HG];
      [exact (created_graph_wf _ _ _ _ HG)|exact (created_directed_graph_wf _ _ _ _ _ _ _ HG)]. }
  assert (Hshape : exists d es,
            G = add_edges_from (add_nodes (empty_graph d) (reaction_nodes m)) es
            /\ forall e, In e es ->
                 In (source e) (reaction_nodes m) /\ In (sink e) (reaction_nodes m)).
  { destruct HG as [HG|HG].
    - unfold create_metabolic_network in HG; rewrite Hm in HG; cbn [bind] in HG.
      injection HG as <-; exists false, (find_edges_from_model i m); split;
        [reflexivity|apply find_edges_ends].
    - unfold create_directed_metabolic_network in HG; rewrite Hm in HG; cbn [bind] in HG.
      destruct (find_directed_edges_from_model MetabolicNetwork m rw lp prop) as [es|] eqn:E;
        cbn [bind] in HG; [|discriminate].
      injection HG as <-; exists true, es; split; [reflexivity|].
      intros e He; exact (find_directed_edges_ends_mn _ _ _ _ _ _ E He). }
  destruct Hshape as [d [es [-> Hes]]].
  assert (Hn : nodes (add_edges_from (add_nodes (empty_graph d) (reaction_nodes m)) es)
               = nodes (add_nodes (empty_graph d) (reaction_nodes m))).
  { apply add_edges_from_known_nodes; intros e He.
    rewrite !add_nodes_nodes_iff; destruct (Hes e He); auto. }
  split; [|split; [apply Hwf|split]].
  - intros x; rewrite Hn, add_nodes_nodes_iff; simpl; tauto.
  - apply (add_edges_from_edge_ends
             (fun u v => In u (reaction_nodes m) /\ In v (reaction_nodes m))).
    + rewrite (proj2 (add_nodes_directed_edges _ _)); intros e [].
    + exact Hes.
  - intros Hnd; rewrite Hn; unfold empty_graph.
    rewrite (add_nodes_fresh (reaction_nodes m) d [] [] Hnd); reflexivity.
Qed.

Lemma created_nodes_are_reactions_witness :
  let G := mkGraph true [SStr "A"; SStr "B"]
             [mkEdge (SStr "A") (SStr "B")
                [("weight", SFloat (np_reciprocal (10 * 2 + epsilon)));
                 ("metabolite", SStr "M")]] in
  @create_directed_metabolic_network (fixed_fva_cobra spec_example_fva)
     MetabolicNetwork (InModel spec_example_model) None true false (95 # 100)
  = Ok G
  /\ nodes G = reaction_nodes spec_example_model.
Proof.
  intros G.
  assert (E : @create_directed_metabolic_network (fixed_fva_cobra spec_example_fva)
                MetabolicNetwork (InModel spec_example_model) None true false (95 # 100)
              = Ok G) by (vm_compute; reflexivity).
  split; [exact E|].
  refine (proj2 (proj2 (proj2
    (@created_nodes_are_reactions (fixed_fva_cobra spec_example_fva) MetabolicNetwork
       (InModel spec_example_model) None true false (95 # 100) spec_example_model G
       eq_refl (or_intror E)))) _).
  simpl; constructor; [intros [H|[]]; discriminate|constructor; [intros []|constructor]].
Defined.

(* ------------------------------------------------------------------ *)
(** ** The file type inferred from the path *)

Lemma list_ascii_app : forall s1 s2,
  list_ascii_of_string (s1 ++ s2) = list_ascii_of_string s1 ++ list_ascii_of_string s2.
Proof.
  induction s1 as [|c s IH]; intros s2; simpl; [reflexivity|rewrite IH; reflexivity].
Qed.

Lemma take_until_dot_app : forall l1 l2,
  ~ In "."%char l1 -> take_until_dot (l1 ++ "."%char :: l2) = (l1, true).
Proof.
  induction l1 as [|c t IH]; intros l2 H; simpl.
  - reflexivity.
  - destruct (ascii_dec c "."); [exfalso; apply H; left; congruence|].
    rewrite IH; [reflexivity|intros Hin; apply H; right; exact Hin].
Qed.

Lemma take_until_dot_none : forall l, ~ In "."%char l -> take_until_dot l = (l, false).
Proof.
  induction l as [|c t IH]; intros H; simpl; [reflexivity|].
  destruct (ascii_dec c "."); [exfalso; apply H; left; congruence|].
  rewrite IH; [reflexivity|intros Hin; apply H; right; exact Hin].
Qed.

Lemma lower_not_dot : forall l, forallb is_lower l = true -> ~ In "."%char l.
Proof.
  intros l H Hin; rewrite forallb_forall in H; specialize (H _ Hin); discriminate.
Qed.

Lemma findall_ext_suffix : forall p ext,
  ext <> "" -> forallb is_lower (list_ascii_of_string ext) = true ->
  findall_ext (p ++ String "." ext) = [String "." ext].
Proof.
  intros p ext Hne Hl; unfold findall_ext.
  rewrite list_ascii_app; simpl (list_ascii_of_string (String _ _)).
  set (le := list_ascii_of_string ext) in *.
  set (lp := list_ascii_of_string p).
  assert (Hrev : rev (lp ++ "."%char :: le) = rev le ++ "."%char :: rev lp).
  { rewrite rev_app_distr; simpl; rewrite <- app_assoc; reflexivity. }
  assert (Hlr : forallb is_lower (rev le) = true).
  { rewrite forallb_forall in *; intros x Hx; apply Hl; apply in_rev; exact Hx. }
  assert (Hbody : match rev (lp ++ "."%char :: le) with
                  | c :: r => if ascii_dec c "010"%char then rev r else lp ++ "."%char :: le
                  | [] => lp ++ "."%char :: le
                  end = lp ++ "."%char :: le).
  { rewrite Hrev; destruct (rev le) as [|c r] eqn:Er.
    - exfalso; apply Hne. destruct ext; [reflexivity|].
      apply (f_equal (@List.length ascii)) in Er; rewrite length_rev in Er; discriminate.
    - simpl in Hlr; apply andb_true_iff in Hlr; destruct Hlr as [Hc _].
      cbn [app]; destruct (ascii_dec c "010"%char) as [->|]; [discriminate|reflexivity]. }
  rewrite Hbody, Hrev, take_until_dot_app by (apply lower_not_dot; exact Hlr).
  rewrite Hlr, rev_involutive; unfold le; rewrite string_of_list_ascii_of_string.
  destruct ext as [|c0 e0]; [contradiction|].
  simpl.
  rewrite length_app, PeanoNat.Nat.add_comm; reflexivity.
Qed.

Lemma findall_ext_no_dot : forall s,
  ~ In "."%char (list_ascii_of_string s) -> findall_ext s = [].
Proof.
  intros s H; unfold findall_ext.
  set (cs := list_ascii_of_string s) in *.
  assert (Hb : forall body, (forall x, In x body -> In x cs) ->
                 take_until_dot (rev body) = (rev body, false)).
  { intros body Hsub; apply take_until_dot_none; intros Hin.
    apply H, Hsub, in_rev; exact Hin. }
  destruct (rev cs) as [|c r] eqn:Er.
  - rewrite (Hb cs (fun x Hx => Hx)); reflexivity.
  - destruct (ascii_dec c "010"%char).
    + rewrite (Hb (rev r)); [reflexivity|].
      intros x Hx; rewrite <- in_rev in Hx.
      apply in_rev; rewrite Er; right; exact Hx.
    + rewrite (Hb cs (fun x Hx => Hx)); reflexivity.
Qed.

Lemma findall_ext_bad_last : forall p c,
  is_lower c = false -> c <> "010"%char -> findall_ext (p ++ String c "") = [].
Proof.
  intros p c Hc Hn; unfold findall_ext; rewrite list_ascii_app.
  simpl (list_ascii_of_string (String c "")); rewrite rev_unit.
  destruct (ascii_dec c "010"%char) as [E|_]; [contradiction|].
  rewrite rev_unit; simpl.
  destruct (ascii_dec c "."); [reflexivity|].
  destruct (take_until_dot (rev (list_ascii_of_string p))); simpl.
  rewrite Hc, !andb_false_r; reflexivity.
Qed.

Lemma substring_whole : forall s n, (String.length s <= n)%nat -> substring 0 n s = s.
Proof.
  induction s as [|c s IH]; intros n Hn; simpl; [destruct n; reflexivity|].
  destruct n as [|n]; simpl in Hn; [lia|rewrite IH by lia; reflexivity].
Qed.

(** [X3]. Without a file type ([None] or [""]), a path ending in a dot
    and a non-empty run of lower-case letters is loaded exactly as if that
    extension had been passed as the file type; only the last dot counts
    ([model.v2.json] loads as [json]). *)
Theorem loader_type_from_extension : forall `{Cobra} p ext ft,
  ext <> "" -> forallb is_lower (list_ascii_of_string ext) = true -> falsy_str ft = true ->
  load_cobra_model_from_file (InPath (p ++ String "." ext)) ft
  = load_cobra_model_from_file (InPath (p ++ String "." ext)) (Some ext).
Proof.
  intros C p ext ft Hne Hl Hft; unfold load_cobra_model_from_file.
  rewrite Hft, findall_ext_suffix by assumption.
  assert (Hf : falsy_str (Some ext) = false)
    by (simpl; apply String.eqb_neq; exact Hne).
  rewrite Hf; simpl rev; cbn iota beta.
  replace (substring 1 (String.length (String "." ext)) (String "." ext)) with ext
    by (simpl; symmetry; apply substring_whole; lia); reflexivity.
Qed.

Lemma loader_type_from_extension_witness :
  @load_cobra_model_from_file (fixed_fva_cobra []) (InPath ("iML1515" ++ String "." "json")) None
  = (m <- @load_json_model (fixed_fva_cobra []) (InPath ("iML1515" ++ String "." "json")) ;;
     Ok (Some m)).
Proof.
  rewrite (@loader_type_from_extension (fixed_fva_cobra []) "iML1515" "json" None);
    [reflexivity|discriminate|reflexivity|reflexivity].
Defined.

(** [X4]. Without a file type, a path that contains no dot (the empty
    path included), or whose last character is neither a lower-case letter
    nor a newline (as in [model.JSON] or [model.]), makes the loader fail
    with [IndexError] (the empty result of [re.findall] indexed by [-1]);
    both graph constructors fail with it too. *)
Theorem loader_index_error_without_extension : forall `{Cobra} s ft,
  falsy_str ft = true ->
  (~ In "."%char (list_ascii_of_string s)
   \/ exists p c, s = (p ++ String c "")%string /\ is_lower c = false /\ c <> "010"%char) ->
  load_cobra_model_from_file (InPath s) ft = Err IndexError
  /\ forall i, create_metabolic_network i (InPath s) ft = Err IndexError
     /\ forall rw lp prop,
          create_directed_metabolic_network i (InPath s) ft rw lp prop = Err IndexError.
Proof.
  intros C s ft Hft Hs.
  assert (Hf : findall_ext s = []).
  { destruct Hs as [Hs|[p [c [-> [Hc Hn]]]]];
      [apply findall_ext_no_dot|apply findall_ext_bad_last]; assumption. }
  assert (Hl : load_cobra_model_from_file (InPath s) ft = Err IndexError).
  { unfold load_cobra_model_from_file; rewrite Hft, Hf; reflexivity. }
  split; [exact Hl|intros i; split].
  - unfold create_metabolic_network, get_model; rewrite Hl; reflexivity.
  - intros rw lp prop; unfold create_directed_metabolic_network, get_model.
    rewrite Hl; reflexivity.
Qed.

Lemma loader_index_error_without_extension_witness :
  @load_cobra_model_from_file (fixed_fva_cobra []) (InPath "model.JSON") None
  = Err IndexError.
Proof.
  refine (proj1 (@loader_index_error_without_extension (fixed_fva_cobra [])
                   "model.JSON" None eq_refl _)).
  right; exists "model.JSO", "N"%char; split; [reflexivity|split; [reflexivity|discriminate]].
Defined.

(* ------------------------------------------------------------------ *)
(** ** The command-line script never writes a network *)

Lemma dict_set_keeps_key : forall ns k v k',
  dict_get ns k' <> None -> dict_get (dict_set ns k v) k' <> None.
Proof.
  intros ns k v k' H; rewrite dict_get_set.
  destruct (String.eqb k' k); [discriminate|exact H].
Qed.

(** Every dest of the parser is an attribute of the parsed namespace. *)
Lemma parse_args_attr : forall argv ns k,
  parse_args argv = Ok ns -> In k (map dest parser_arguments) ->
  exists v, ns_attr ns k = Ok v.
Proof.
  intros argv ns k H Hk; unfold ns_attr.
  assert (Hd : dict_get ns k <> None).
  { refine (parse_args_of_inv parser_arguments (fun ns => dict_get ns k <> None) _ argv ns _ H).
    - intros ns0 t ns' _ H0 Ht; unfold take_action in Ht.
      destruct (fst t) as [|a]; [discriminate|].
      destruct (action a); injection Ht as <-; apply dict_set_keeps_key; exact H0.
    - simpl in Hk; repeat (destruct Hk as [<-|Hk]; [simpl; discriminate|]); destruct Hk. }
  destruct (dict_get ns k) as [v|]; [exists v; reflexivity|contradiction].
Qed.

(** [X5]. [main] of scripts/create_metabolic_network.py never writes a
    network: whatever the command line, it ends in an exception. When the
    arguments parse and the model loads, that exception is the [TypeError]
    of the keyword [verbose], which neither [create_metabolic_network] nor
    [create_directed_metabolic_network] accepts. *)
Theorem create_metabolic_network_script_fails : forall `{Cobra} argv,
  (forall out, script_main argv <> Ok out)
  /\ (forall ns mo, parse_args argv = Ok ns -> script_model ns = Ok mo ->
      script_main argv = Err TypeError).
Proof.
  intros C argv.
  assert (Hty : forall ns mo, parse_args argv = Ok ns -> script_model ns = Ok mo ->
                script_main argv = Err TypeError).
  { intros ns mo Hp Hm; unfold script_main; rewrite Hp; cbn [bind].
    destruct (parse_args_attr argv ns "verbose" Hp) as [vb ->]; [simpl; tauto|].
    cbn [bind]; rewrite Hm; cbn [bind].
    destruct (parse_args_attr argv ns "directed" Hp) as [dr ->]; [simpl; tauto|].
    cbn [bind]; destruct (truthy dr); [|reflexivity].
    destruct (parse_args_attr argv ns "reciprocal" Hp) as [rc ->]; [simpl; tauto|].
    destruct (parse_args_attr argv ns "loopless" Hp) as [lp ->]; [simpl; tauto|].
    destruct (parse_args_attr argv ns "fva_prop" Hp) as [fp ->]; [simpl; tauto|].
    reflexivity. }
  split; [|exact Hty].
  intros out Hout.
  destruct (parse_args argv) as [ns|e] eqn:Hp; [|unfold script_main in Hout; rewrite Hp in Hout; discriminate].
  destruct (script_model ns) as [mo|e] eqn:Hm.
  - rewrite (Hty ns mo eq_refl Hm) in Hout; discriminate.
  - unfold script_main in Hout; rewrite Hp in Hout; cbn [bind] in Hout.
    destruct (parse_args_attr argv ns "verbose" Hp) as [vb Hvb]; [simpl; tauto|].
    rewrite Hvb, Hm in Hout; discriminate.
Qed.

Lemma create_metabolic_network_script_fails_witness :
  @script_main (loading_cobra spec_example_model spec_example_fva)
    ["-i"; "model.json"; "-o"; "graph.json"; "-d"] = Err TypeError.
Proof.
  destruct (@create_metabolic_network_script_fails
              (loading_cobra spec_example_model spec_example_fva)
              ["-i"; "model.json"; "-o"; "graph.json"; "-d"]) as [_ H].
  eapply H; vm_compute; reflexivity.
Defined.

(* ------------------------------------------------------------------ *)
(** ** [find_intersect] and [get_unique_list] *)

Lemma py_eq_refl : forall x, py_eq x x = true.
Proof.
  intros [|b|i|q|s|l|n]; unfold py_eq; cbn [py_num];
    try reflexivity; try (apply Qeq_bool_iff; reflexivity); try apply String.eqb_refl.
  destruct (list_eq_dec string_dec l l) as [_|n]; [reflexivity|contradiction].
Qed.

Lemma py_eq_sym : forall x y, py_eq x y = py_eq y x.
Proof.
  intros [|b|i|q|s|l|n] [|b'|i'|q'|s'|l'|n']; unfold py_eq; cbn [py_num]; try reflexivity;
    try apply String.eqb_sym;
    try (destruct (list_eq_dec string_dec l l'), (list_eq_dec string_dec l' l);
         try reflexivity; congruence);
    match goal with
    | |- Qeq_bool ?a ?b = Qeq_bool ?b ?a =>
        destruct (Qeq_bool a b) eqn:E1, (Qeq_bool b a) eqn:E2; try reflexivity;
        [apply Qeq_bool_iff in E1; apply Qeq_bool_neq in E2; exfalso; apply E2; symmetry; exact E1
        |apply Qeq_bool_iff in E2; apply Qeq_bool_neq in E1; exfalso; apply E1; symmetry; exact E2]
    end.
Qed.

Lemma py_eq_trans : forall x y z, py_eq x y = true -> py_eq y z = true -> py_eq x z = true.
Proof.
  intros [|b|i|q|s|l|n] [|b'|i'|q'|s'|l'|n'] [|b''|i''|q''|s''|l''|n''];
    unfold py_eq; cbn [py_num]; intros H1 H2; try discriminate; try reflexivity;
    try (destruct (list_eq_dec string_dec l l') as [<-|]; [|discriminate];
         exact H2);
    try (apply Qeq_bool_iff; apply Qeq_bool_iff in H1; apply Qeq_bool_iff in H2;
         exact (Qeq_trans _ _ _ H1 H2));
    (apply String.eqb_eq in H1; apply String.eqb_eq in H2; apply String.eqb_eq; congruence).
Qed.

Lemma existsb_py_eq_filter : forall x l2 l3,
  existsb (py_eq x) (filter (fun w => existsb (py_eq w) l3) l2)
  = existsb (py_eq x) l2 && existsb (py_eq x) l3.
Proof.
  intros x l2 l3; apply eq_true_iff_eq.
  rewrite andb_true_iff, !existsb_exists; split.
  - intros [w [Hw Hxw]]; apply filter_In in Hw; destruct Hw as [Hw Hw3].
    apply existsb_exists in Hw3; destruct Hw3 as [z [Hz Hwz]].
    split; [exists w; auto|exists z; split; [exact Hz|exact (py_eq_trans _ _ _ Hxw Hwz)]].
  - intros [[y [Hy Hxy]] [z [Hz Hxz]]]; exists y; split; [|exact Hxy].
    apply filter_In; split; [exact Hy|].
    apply existsb_exists; exists z; split; [exact Hz|].
    rewrite py_eq_sym in Hxy; exact (py_eq_trans _ _ _ Hxy Hxz).
Qed.

(** [X6]. [find_intersect(list1, list2)] keeps the values of [list1]
    equal (Python [==]) to some value of [list2], with [list1]'s order and
    repetitions: it distributes over concatenation of [list1], returns
    [list1] itself when both arguments are [list1], and intersecting with
    [list2] then [list3] is intersecting with [find_intersect(list2, list3)]. *)
Theorem find_intersect_spec : forall list1 list2 list3,
  (forall x, In x (find_intersect list1 list2)
             <-> In x list1 /\ exists y, In y list2 /\ py_eq x y = true)
  /\ (forall a b, find_intersect (a ++ b) list2
                  = find_intersect a list2 ++ find_intersect b list2)
  /\ find_intersect list1 list1 = list1
  /\ find_intersect (find_intersect list1 list2) list3
     = find_intersect list1 (find_intersect list2 list3).
Proof.
  intros list1 list2 list3; unfold find_intersect; split; [|split; [|split]].
  - intros x; rewrite filter_In, existsb_exists; reflexivity.
  - intros a b; apply filter_app.
  - apply filter_all_true; intros x Hx; apply existsb_exists.
    exists x; split; [exact Hx|apply py_eq_refl].
  - induction list1 as [|x t IH]; simpl; [reflexivity|].
    rewrite existsb_py_eq_filter.
    destruct (existsb (py_eq x) list2) eqn:E2, (existsb (py_eq x) list3) eqn:E3;
      simpl; rewrite ?E3, ?IH; reflexivity.
Qed.

Lemma keep_changes_in : forall prev t x, In x (keep_changes prev t) -> In x t.
Proof.
  intros prev t; revert prev; induction t as [|y t IH]; intros prev x H; simpl in H;
    [destruct H|].
  destruct (String.eqb y prev); [right; eapply IH; exact H|].
  destruct H as [<-|H]; [left; reflexivity|right; eapply IH; exact H].
Qed.

Lemma keep_changes_complete : forall prev t x,
  In x (prev :: t) -> In x (prev :: keep_changes prev t).
Proof.
  intros prev t; revert prev; induction t as [|y t IH]; intros prev x H; simpl; [exact H|].
  destruct (String.eqb_spec y prev) as [->|Hne].
  - destruct H as [<-|H]; [left; reflexivity|exact (IH prev x H)].
  - destruct H as [<-|H]; [left; reflexivity|right; exact (IH y x H)].
Qed.

Lemma keep_changes_sorted : forall prev t,
  StronglySorted str_le (prev :: t) ->
  StronglySorted str_le (prev :: keep_changes prev t) /\ NoDup (prev :: keep_changes prev t).
Proof.
  intros prev t; revert prev; induction t as [|y t IH]; intros prev Hs; simpl.
  - split; [repeat constructor|constructor; [intros []|constructor]].
  - apply StronglySorted_inv in Hs; destruct Hs as [Hs Hf].
    pose proof Hs as Hs'; apply StronglySorted_inv in Hs'; destruct Hs' as [_ Hfy].
    rewrite Forall_forall in Hf, Hfy.
    destruct (String.eqb_spec y prev) as [->|Hne]; [exact (IH prev Hs)|].
    destruct (IH y Hs) as [IHs IHn].
    split.
    + constructor; [exact IHs|].
      apply Forall_forall; intros z [<-|Hz]; apply Hf; [left; reflexivity|].
      right; eapply keep_changes_in; exact Hz.
    + constructor; [|exact IHn].
      intros [E|Hp]; [congruence|].
      apply Hne, String.leb_antisym; [apply Hfy; eapply keep_changes_in; exact Hp|].
      apply Hf; left; reflexivity.
Qed.

Lemma np_unique_spec : forall l,
  StronglySorted str_le (np_unique l) /\ NoDup (np_unique l)
  /\ (forall x, In x (np_unique l) <-> In x (map strip_nul l)).
Proof.
  intros l; unfold np_unique.
  pose proof (sort_str_sorted (map strip_nul l)) as Hs.
  pose proof (sort_str_in (map strip_nul l)) as Hin.
  destruct (sort_str (map strip_nul l)) as [|x t].
  - split; [constructor|split; [constructor|]].
    intros y; rewrite <- Hin; simpl; tauto.
  - destruct (keep_changes_sorted x t Hs) as [H1 H2]; split; [exact H1|split; [exact H2|]].
    intros y; rewrite <- Hin; split.
    + intros [<-|H]; [left; reflexivity|right; eapply keep_changes_in; exact H].
    + apply keep_changes_complete.
Qed.

Lemma sorted_nodup_unique : forall l1 l2,
  StronglySorted str_le l1 -> NoDup l1 -> StronglySorted str_le l2 -> NoDup l2 ->
  (forall x, In x l1 <-> In x l2) -> l1 = l2.
Proof.
  induction l1 as [|a t1 IH]; intros [|b t2] S1 N1 S2 N2 H.
  - reflexivity.
  - exfalso; apply (proj2 (H b)); left; reflexivity.
  - exfalso; apply (proj1 (H a)); left; reflexivity.
  - apply StronglySorted_inv in S1; apply StronglySorted_inv in S2.
    destruct S1 as [S1 F1], S2 as [S2 F2]; rewrite Forall_forall in F1, F2.
    apply NoDup_cons_iff in N1; destruct N1 as [Hn1 N1].
    apply NoDup_cons_iff in N2; destruct N2 as [Hn2 N2].
    assert (Hab : a = b).
    { destruct (proj1 (H a) (or_introl eq_refl)) as [E|Ha]; [congruence|].
      destruct (proj2 (H b) (or_introl eq_refl)) as [E|Hb]; [congruence|].
      apply String.leb_antisym; [apply F1; exact Hb|apply F2; exact Ha]. }
    subst b; f_equal; apply IH; try assumption.
    intros x; split; intros Hx.
    + destruct (proj1 (H x) (or_intror Hx)) as [<-|Hx']; [contradiction|exact Hx'].
    + destruct (proj2 (H x) (or_intror Hx)) as [<-|Hx']; [contradiction|exact Hx'].
Qed.

Lemma drop_nul_idem : forall l, drop_nul (drop_nul l) = drop_nul l.
Proof.
  induction l as [|c t IH]; simpl; [reflexivity|].
  destruct (ascii_dec c "000"%char); [exact IH|simpl].
  destruct (ascii_dec c "000"%char); [contradiction|reflexivity].
Qed.

Lemma strip_nul_idem : forall s, strip_nul (strip_nul s) = strip_nul s.
Proof.
  intros s; unfold strip_nul.
  rewrite list_ascii_of_string_of_list_ascii, rev_involutive, drop_nul_idem; reflexivity.
Qed.

Lemma strip_nul_no_nul : forall s,
  ~ In "000"%char (list_ascii_of_string s) -> strip_nul s = s.
Proof.
  intros s H; unfold strip_nul.
  destruct (rev (list_ascii_of_string s)) as [|c t] eqn:E; simpl.
  - destruct s as [|c s]; [reflexivity|].
    simpl in E; apply (f_equal (@List.length ascii)) in E.
    rewrite length_app in E; simpl in E; lia.
  - destruct (ascii_dec c "000"%char) as [->|_].
    + exfalso; apply H, in_rev; rewrite E; left; reflexivity.
    + rewrite <- E, rev_involutive, string_of_list_ascii_of_string; reflexivity.
Qed.

(** [X7]. [get_unique_list] returns the distinct values of its input in
    ascending character-code order, each once; its values are exactly the
    input strings as numpy stores them (trailing NUL characters dropped), so
    every input string without a NUL character is in the result. *)
Theorem get_unique_list_spec : forall list_in,
  StronglySorted str_le (get_unique_list list_in) /\ NoDup (get_unique_list list_in)
  /\ (forall x, In x (get_unique_list list_in) <-> exists y, In y list_in /\ strip_nul y = x)
  /\ (forall y, In y list_in -> ~ In "000"%char (list_ascii_of_string y) ->
      In y (get_unique_list list_in)).
Proof.
  intros list_in; unfold get_unique_list.
  destruct (np_unique_spec list_in) as [Hs [Hn Hin]].
  split; [exact Hs|split; [exact Hn|split]].
  - intros x; rewrite Hin, in_map_iff; split; intros [y [H1 H2]]; exists y; auto.
  - intros y Hy Hnul; apply Hin, in_map_iff; exists y; split; [apply strip_nul_no_nul|]; assumption.
Qed.

(** [X8]. [get_unique_list] depends only on which strings occur in its
    input (not on their order or repetitions), and applying it twice gives
    the same list as applying it once. *)
Theorem get_unique_list_set : 
  (forall l1 l2, (forall x, In x l1 <-> In x l2) -> get_unique_list l1 = get_unique_list l2)
  /\ (forall l, get_unique_list (get_unique_list l) = get_unique_list l).
Proof.
  unfold get_unique_list; split.
  - intros l1 l2 H.
    destruct (np_unique_spec l1) as [S1 [N1 I1]], (np_unique_spec l2) as [S2 [N2 I2]].
    apply sorted_nodup_unique; try assumption.
    intros x; rewrite I1, I2, !in_map_iff.
    split; intros [y [Hy1 Hy2]]; exists y; split; try apply H; assumption.
  - intros l.
    destruct (np_unique_spec l) as [S1 [N1 I1]], (np_unique_spec (np_unique l)) as [S2 [N2 I2]].
    apply sorted_nodup_unique; try assumption.
    intros x; rewrite I2, in_map_iff; split.
    + intros [y [<- Hy]]; apply I1 in Hy; apply in_map_iff in Hy; destruct Hy as [z [<- Hz]].
      rewrite strip_nul_idem; apply I1, in_map_iff; exists z; auto.
    + intros Hx; exists x; split; [|exact Hx].
      apply I1 in Hx; apply in_map_iff in Hx; destruct Hx as [z [<- Hz]].
      apply strip_nul_idem.
Qed.

Lemma get_unique_list_spec_witness :
  get_unique_list ["b"; "a"; "b"] = ["a"; "b"] /\ In "b" (get_unique_list ["b"; "a"; "b"]).
Proof.
  split; [reflexivity|].
  apply (proj2 (proj2 (proj2 (get_unique_list_spec ["b"; "a"; "b"])))).
  - left; reflexivity.
  - simpl; intros [H|[]]; discriminate.
Defined.

Lemma get_unique_list_set_witness :
  get_unique_list ["b"; "a"] = get_unique_list ["a"; "b"; "a"; "b"].
Proof.
  apply (proj1 get_unique_list_set); intros x; simpl; tauto.
Defined.

Lemma mem_In : forall n l, mem n l = true <-> In n l.
Proof.
  intros n l; unfold mem; rewrite existsb_exists; split.
  - intros [x [Hx E]]; destruct (scalar_eqb_spec n x); [subst; exact Hx|discriminate].
  - intros H; exists n; split; [exact H|destruct (scalar_eqb_spec n n); congruence].
Qed.

Lemma neighbors_spec : forall g v w, In w (neighbors g v) <-> linked g v w.
Proof.
  intros g v w; unfold neighbors, linked; rewrite in_concat; split.
  - intros [l [Hl Hw]]; apply in_map_iff in Hl; destruct Hl as [e [<- He]].
    exists e; split; [exact He|].
    apply in_app_iff in Hw; destruct Hw as [Hw|Hw].
    + destruct (scalar_eqb_spec (source e) v); [|destruct Hw].
      destruct Hw as [<-|[]]; left; auto.
    + destruct (directed g), (scalar_eqb_spec (sink e) v), (scalar_eqb_spec (source e) v);
        simpl in Hw; try destruct Hw as [<-|[]]; try contradiction; right; auto.
  - intros [e [He H]].
    exists ((if scalar_eqb (source e) v then [sink e] else [])
            ++ (if negb (directed g) && scalar_eqb (sink e) v
                   && negb (scalar_eqb (source e) v)
                then [source e] else [])).
    split; [apply in_map_iff; exists e; auto|].
    apply in_app_iff.
    destruct H as [[Hs Ht]|[Hd [Hs Ht]]].
    + left; destruct (scalar_eqb_spec (source e) v); [left; exact Ht|contradiction].
    + destruct (scalar_eqb_spec (source e) v) as [E|E].
      * left; left; congruence.
      * right; rewrite Hd; destruct (scalar_eqb_spec (sink e) v); [|contradiction].
        left; exact Hs.
Qed.

Section Bfs.
Local Open Scope nat_scope.

Variable g : graph.
Variable s : scalar.
Hypothesis Hwf : graph_wf g.
Hypothesis Hs : In s (nodes g).

Let R := reachable g s.
Let n := List.length (nodes g).

Lemma reach_step : forall v w, R v -> In w (neighbors g v) -> R w.
Proof.
  intros v w Hv Hw; apply neighbors_spec in Hw.
  eapply rt_trans; [exact Hv|apply rt_step; exact Hw].
Qed.

Lemma neighbors_nodes : forall v w, In w (neighbors g v) -> In w (nodes g).
Proof.
  intros v w Hw; apply neighbors_spec in Hw; destruct Hw as [e [He [[_ <-]|[_ [<- _]]]]];
    destruct (wf_ends _ Hwf e He); assumption.
Qed.

Lemma reach_nodes : forall x, R x -> In x (nodes g).
Proof.
  intros x Hx; apply clos_rt_rtn1 in Hx; destruct Hx as [|y z Hyz _]; [exact Hs|].
  destruct Hyz as [e [He [[_ <-]|[_ [<- _]]]]]; destruct (wf_ends _ Hwf e He); assumption.
Qed.

Definition good (seen : list scalar) : Prop :=
  NoDup seen /\ (forall x, In x seen -> In x (nodes g)) /\ (forall x, In x seen -> R x).

Lemma visit_spec : forall adjv seen next,
  exists d, visit adjv (seen, next) = (seen ++ d, next ++ d)
    /\ (NoDup seen -> NoDup (seen ++ d))
    /\ (forall w, In w adjv -> In w (seen ++ d))
    /\ (forall x, In x d -> In x adjv).
Proof.
  induction adjv as [|w t IH]; intros seen next; simpl.
  - exists []; rewrite !app_nil_r; split; [reflexivity|split; [auto|split; intros ? []]].
  - destruct (mem w seen) eqn:Em.
    + destruct (IH seen next) as [d [E [N [C D]]]]; exists d; split; [exact E|].
      split; [exact N|split].
      * intros x [<-|Hx]; [apply in_or_app; left; apply mem_In; exact Em|apply C; exact Hx].
      * intros x Hx; right; apply D; exact Hx.
    + destruct (IH (seen ++ [w]) (next ++ [w])) as [d [E [N [C D]]]].
      exists (w :: d); rewrite <- !app_assoc in E; split; [exact E|].
      rewrite <- !app_assoc in N, C; split; [|split].
      * intros Hn; apply N; apply NoDup_app; [exact Hn|constructor; [intros []|constructor]|].
        intros x Hx [Ex|[]]; subst x; apply (proj2 (mem_In w seen)) in Hx; congruence.
      * intros x [<-|Hx]; [apply in_or_app; right; left; reflexivity|apply C; exact Hx].
      * intros x [<-|Hx]; [left; reflexivity|right; apply D; exact Hx].
Qed.

Definition closed_except (seen rest next : list scalar) : Prop :=
  forall u, In u seen -> ~ In u rest -> ~ In u next ->
    forall w, In w (neighbors g u) -> In w seen.

Lemma bfs_level_spec : forall this seen next,
  good seen -> (forall x, In x this -> In x seen) -> (forall x, In x next -> In x seen) ->
  closed_except seen this next ->
  match bfs_level g n this (seen, next) with
  | inl (seen', next') =>
      (exists d, seen' = seen ++ d /\ next' = next ++ d)
      /\ good seen' /\ (forall x, In x next' -> In x seen') /\ closed_except seen' [] next'
  | inr r => good r /\ List.length r = n
  end.
Proof.
  induction this as [|v rest IH]; intros seen next Hg Hthis Hnext Hcl; simpl.
  - split; [exists []; rewrite !app_nil_r; auto|split; [exact Hg|split; [exact Hnext|exact Hcl]]].
  - destruct (visit_spec (neighbors g v) seen next) as [d [E [N [C D]]]].
    rewrite E; simpl fst.
    destruct Hg as [Hn [Hin HR]].
    assert (Hv : In v seen) by (apply Hthis; left; reflexivity).
    assert (Hg' : good (seen ++ d)).
    { split; [exact (N Hn)|split]; intros x Hx; apply in_app_iff in Hx; destruct Hx as [Hx|Hx];
        [apply Hin; exact Hx|eapply neighbors_nodes; apply D; exact Hx
        |apply HR; exact Hx|eapply reach_step; [apply HR; exact Hv|apply D; exact Hx]]. }
    destruct (Nat.eqb_spec (List.length (seen ++ d)) n) as [En|En]; [split; assumption|].
    assert (IH' := IH (seen ++ d) (next ++ d) Hg').
    destruct (bfs_level g n rest (seen ++ d, next ++ d)) as [[seen' next']|r].
    + destruct IH' as [[d' [E1 E2]] [Hg2 [Hn2 Hc2]]].
      * intros x Hx; apply in_or_app; left; apply Hthis; right; exact Hx.
      * intros x Hx; apply in_app_iff in Hx; destruct Hx as [Hx|Hx];
          apply in_or_app; [left; apply Hnext; exact Hx|right; exact Hx].
      * intros u Hu Hur Hun w Hw.
        apply in_app_iff in Hu; destruct Hu as [Hu|Hu];
          [|exfalso; apply Hun; apply in_or_app; right; exact Hu].
        destruct (scalar_eq_dec u v) as [->|Huv]; [apply C; exact Hw|].
        apply in_or_app; left; apply (Hcl u Hu); [intros [E'|E']; [congruence|contradiction]| |exact Hw].
        intros Hx; apply Hun; apply in_or_app; left; exact Hx.
      * split; [exists (d ++ d'); rewrite E1, E2, !app_assoc; auto|auto].
    + apply IH'.
      * intros x Hx; apply in_or_app; left; apply Hthis; right; exact Hx.
      * intros x Hx; apply in_app_iff in Hx; destruct Hx as [Hx|Hx];
          apply in_or_app; [left; apply Hnext; exact Hx|right; exact Hx].
      * intros u Hu Hur Hun w Hw.
        apply in_app_iff in Hu; destruct Hu as [Hu|Hu];
          [|exfalso; apply Hun; apply in_or_app; right; exact Hu].
        destruct (scalar_eq_dec u v) as [->|Huv]; [apply C; exact Hw|].
        apply in_or_app; left; apply (Hcl u Hu); [intros [E'|E']; [congruence|contradiction]| |exact Hw].
        intros Hx; apply Hun; apply in_or_app; left; exact Hx.
Qed.


Lemma good_length : forall seen, good seen -> List.length seen <= n.
Proof.
  intros seen [Hn [Hin _]]; apply NoDup_incl_length; [exact Hn|intros x; apply Hin].
Qed.

Lemma closed_reach : forall seen, In s seen ->
  (forall u, In u seen -> forall w, In w (neighbors g u) -> In w seen) ->
  forall x, R x -> In x seen.
Proof.
  intros seen Hs' Hcl x Hx; apply clos_rt_rtn1 in Hx; induction Hx as [|y z Hyz _ IH];
    [exact Hs'|].
  apply (Hcl y IH); apply neighbors_spec; exact Hyz.
Qed.

Lemma full_reach : forall r, good r -> List.length r = n -> forall x, R x -> In x r.
Proof.
  intros r [Hn [Hin _]] Hl x Hx.
  apply (NoDup_length_incl (l' := nodes g) Hn); [unfold n in Hl; lia|intros y; apply Hin|apply reach_nodes; exact Hx].
Qed.

Lemma bfs_loop_spec : forall fuel seen next,
  good seen -> In s seen -> (forall x, In x next -> In x seen) ->
  closed_except seen [] next ->
  (next = [] \/ n < List.length seen + fuel) ->
  good (bfs_loop g n fuel seen next) /\ forall x, R x -> In x (bfs_loop g n fuel seen next).
Proof.
  induction fuel as [|fuel IH]; intros seen next Hg Hs' Hnext Hcl Hf.
  - simpl; split; [exact Hg|].
    destruct Hf as [->|Hf]; [|apply good_length in Hg; lia].
    apply closed_reach; [exact Hs'|intros u Hu; apply (Hcl u Hu); intros []].
  - simpl; destruct next as [|v0 next0] eqn:En.
    + split; [exact Hg|apply closed_reach; [exact Hs'|intros u Hu; apply (Hcl u Hu); intros []]].
    + rewrite <- En; rewrite <- En in Hnext, Hcl.
      assert (L := bfs_level_spec next seen [] Hg Hnext (fun x H => match H with end)).
      destruct (bfs_level g n next (seen, [])) as [[seen' next']|r].
      * destruct L as [[d [E1 E2]] [Hg' [Hn' Hc']]].
        { intros u Hu Hur _; apply (Hcl u Hu); [intros []|exact Hur]. }
        simpl in E2; subst seen' next'.
        apply IH; [exact Hg'|apply in_or_app; left; exact Hs'|exact Hn'|exact Hc'|].
        destruct d as [|x d]; [left; reflexivity|right].
        rewrite length_app; simpl; destruct Hf as [Hf|Hf]; [discriminate|lia].
      * destruct L as [Hg' Hl].
        { intros u Hu Hur _; apply (Hcl u Hu); [intros []|exact Hur]. }
        split; [exact Hg'|apply full_reach; assumption].
Qed.

Lemma plain_bfs_spec : good (plain_bfs g s) /\ forall x, In x (plain_bfs g s) <-> R x.
Proof.
  assert (Hg0 : good [s]).
  { split; [constructor; [intros []|constructor]|split; intros x [<-|[]]];
      [exact Hs|apply rt_refl]. }
  destruct (bfs_loop_spec (S n) [s] [s] Hg0 (or_introl eq_refl)) as [Hg Hr].
  - intros x Hx; exact Hx.
  - intros u Hu _ Hun; exfalso; apply Hun; exact Hu.
  - right; simpl; lia.
  - unfold plain_bfs; fold n; split; [exact Hg|intros x; split; [apply Hg|apply Hr]].
Qed.

End Bfs.

Lemma linked_sym : forall g u v, directed g = false -> linked g u v -> linked g v u.
Proof.
  intros g u v Hd [e [He [[Hs Ht]|[_ [Hs Ht]]]]]; exists e; (split; [exact He|]).
  - right; auto.
  - left; auto.
Qed.

Lemma reachable_sym : forall g u v, directed g = false -> reachable g u v -> reachable g v u.
Proof.
  intros g u v Hd H; induction H as [x y Hxy|x|x y z _ IH1 _ IH2].
  - apply rt_step; apply linked_sym; assumption.
  - apply rt_refl.
  - eapply rt_trans; eassumption.
Qed.

Lemma components_from_in : forall g vs seen c,
  In c (components_from g vs seen) -> exists v, In v vs /\ c = plain_bfs g v.
Proof.
  intros g; induction vs as [|v t IH]; intros seen c Hc; simpl in Hc; [destruct Hc|].
  destruct (mem v seen).
  - destruct (IH seen c Hc) as [w [Hw E]]; exists w; split; [right|]; assumption.
  - destruct Hc as [<-|Hc]; [exists v; split; [left|]; reflexivity|].
    destruct (IH _ c Hc) as [w [Hw E]]; exists w; split; [right|]; assumption.
Qed.

Lemma components_from_cover : forall g, graph_wf g -> forall vs seen w,
  (forall x, In x vs -> In x (nodes g)) -> In w vs ->
  In w seen \/ exists c, In c (components_from g vs seen) /\ In w c.
Proof.
  intros g Hwf; induction vs as [|v t IH]; intros seen w Hvs Hw; [destruct Hw|simpl].
  assert (Ht : forall x, In x t -> In x (nodes g)) by (intros x Hx; apply Hvs; right; exact Hx).
  destruct (mem v seen) eqn:Em.
  - destruct Hw as [<-|Hw]; [left; apply mem_In; exact Em|].
    destruct (IH seen w Ht Hw) as [H|[c [Hc Hwc]]]; [left; exact H|right; exists c; auto].
  - destruct Hw as [<-|Hw].
    + right; exists (plain_bfs g v); split; [left; reflexivity|].
      apply (plain_bfs_spec g v Hwf (Hvs v (or_introl eq_refl))); apply rt_refl.
    + destruct (IH (seen ++ plain_bfs g v) w Ht Hw) as [H|[c [Hc Hwc]]].
      * apply in_app_iff in H; destruct H as [H|H]; [left; exact H|].
        right; exists (plain_bfs g v); split; [left; reflexivity|exact H].
      * right; exists c; split; [right; exact Hc|exact Hwc].
Qed.

Lemma max_by_len_fold : forall (t : list (list scalar)) best,
  let m := fold_left (fun best x => if Nat.ltb (List.length best) (List.length x)
                                    then x else best) t best in
  In m (best :: t) /\ forall x, In x (best :: t) -> (List.length x <= List.length m)%nat.
Proof.
  induction t as [|y t IH]; intros best; simpl.
  - split; [left; reflexivity|intros x [<-|[]]; lia].
  - destruct (Nat.ltb_spec (List.length best) (List.length y)) as [Hlt|Hge].
    + destruct (IH y) as [Hin Hmax]; split.
      * destruct Hin as [E|E]; [right; left; exact E|right; right; exact E].
      * intros x [<-|[<-|Hx]]; [specialize (Hmax y (or_introl eq_refl)); lia
                               |apply Hmax; left; reflexivity|apply Hmax; right; exact Hx].
    + destruct (IH best) as [Hin Hmax]; split.
      * destruct Hin as [E|E]; [left; exact E|right; right; exact E].
      * intros x [<-|[<-|Hx]]; [apply Hmax; left; reflexivity
                               |specialize (Hmax best (or_introl eq_refl)); lia
                               |apply Hmax; right; exact Hx].
Qed.

Lemma max_by_len_spec : forall cs m, max_by_len cs = Ok m ->
  In m cs /\ forall x, In x cs -> (List.length x <= List.length m)%nat.
Proof.
  intros [|c t] m E; simpl in E; [discriminate|].
  injection E as <-; apply max_by_len_fold.
Qed.

Lemma mem_removed : forall (keep all : list scalar) x, In x all ->
  mem x (filter (fun n => negb (mem n keep)) all) = negb (mem x keep).
Proof.
  intros keep all x Hx.
  destruct (mem x (filter _ all)) eqn:E1, (mem x keep) eqn:E2; try reflexivity.
  - apply mem_In, filter_In in E1; rewrite E2 in E1; destruct E1 as [_ E1]; discriminate.
  - exfalso; assert (In x (filter (fun n => negb (mem n keep)) all))
      by (apply filter_In; rewrite E2; auto).
    apply mem_In in H; congruence.
Qed.

(** [X9]. On a well-formed undirected graph, [get_connected_graph] fails
    with [ValueError] when the graph has no node; otherwise it returns an
    undirected graph whose nodes are those reachable from some node [v] of
    the input, whose edges are the input's edges with their source in that set, which is
    connected, and no connected component of the input has more nodes. *)
Theorem get_connected_graph_undirected :
  forall scc g, graph_wf g -> directed g = false ->
  (nodes g = [] ->
     get_connected_graph scc g = Err (ValueError "max() arg is an empty sequence"))
  /\ (nodes g <> [] ->
      exists H v, get_connected_graph scc g = Ok H /\ directed H = false
      /\ In v (nodes g)
      /\ (forall x, In x (nodes H) <-> reachable g v x)
      /\ (forall e, In e (edges H) <-> In e (edges g) /\ reachable g v (source e))
      /\ (forall x y, In x (nodes H) -> In y (nodes H) -> reachable H x y)
      /\ (forall w L, In w (nodes g) -> NoDup L -> (forall x, In x L -> reachable g w x) ->
            (List.length L <= List.length (nodes H))%nat)).
Proof.
  intros scc g Hwf Hd; unfold get_connected_graph; rewrite Hd; cbn [negb].
  split.
  - intros Hn; unfold connected_components; rewrite Hn; reflexivity.
  - intros Hn.
    destruct (max_by_len (connected_components g)) as [C|err] eqn:EC.
    2:{ exfalso; unfold connected_components in EC; destruct (nodes g) as [|v0 t] eqn:En;
        [contradiction|simpl in EC; discriminate]. }
    destruct (max_by_len_spec _ _ EC) as [HCin HCmax].
    destruct (components_from_in g (nodes g) [] C HCin) as [v [Hv ->]].
    destruct (plain_bfs_spec g v Hwf Hv) as [[HND [HCn _]] HC].
    set (C := plain_bfs g v) in *.
    set (H := remove_nodes_from g (filter (fun n => negb (mem n C)) (nodes g))).
    assert (HnH : forall x, In x (nodes H) <-> In x C).
    { intros x; unfold H, remove_nodes_from; cbn [nodes]; rewrite filter_In; split.
      - intros [Hx E]; rewrite mem_removed in E by exact Hx.
        apply mem_In; destruct (mem x C); [reflexivity|discriminate].
      - intros Hx; split; [apply HCn; exact Hx|].
        rewrite mem_removed by (apply HCn; exact Hx).
        apply mem_In in Hx; rewrite Hx; reflexivity. }
    assert (HeH : forall e, In e (edges H) <-> In e (edges g) /\ In (source e) C /\ In (sink e) C).
    { intros e; unfold H, remove_nodes_from; cbn [edges]; rewrite filter_In; split.
      - intros [He E]; destruct (wf_ends _ Hwf e He) as [Hse Hte].
        rewrite !mem_removed in E by assumption.
        apply andb_prop in E; destruct E as [E1 E2]; rewrite !negb_involutive in E1, E2.
        apply mem_In in E1, E2; auto.
      - intros [He [H1 H2]]; split; [exact He|].
        destruct (wf_ends _ Hwf e He) as [Hse Hte].
        rewrite !mem_removed by assumption.
        apply mem_In in H1, H2; rewrite H1, H2; reflexivity. }
    assert (HdH : directed H = false) by exact Hd.
    assert (HvH : forall x, In x (nodes H) -> reachable H v x).
    { intros x Hx; apply HnH, HC in Hx; apply clos_rt_rtn1 in Hx.
      induction Hx as [|y z Hyz Hvy IH]; [apply rt_refl|].
      eapply rt_trans; [exact IH|apply rt_step].
      assert (Hy : In y C) by (apply HC; apply clos_rtn1_rt; exact Hvy).
      assert (Hz : In z C).
      { apply HC; eapply rt_trans; [apply clos_rtn1_rt; exact Hvy|apply rt_step; exact Hyz]. }
      destruct Hyz as [e [He Hor]]; exists e; split; [|exact Hor].
      apply HeH; split; [exact He|].
      destruct Hor as [[<- <-]|[_ [<- <-]]]; auto. }
    exists H, v; split; [reflexivity|split; [exact HdH|split; [exact Hv|split; [|split; [|split]]]]].
    + intros x; rewrite HnH; apply HC.
    + intros e; rewrite HeH; split.
      * intros [He [H1 _]]; split; [exact He|apply HC; exact H1].
      * intros [He H1]; split; [exact He|split; [apply HC; exact H1|]].
        apply HC; eapply rt_trans; [exact H1|apply rt_step; exists e; split; [exact He|left; auto]].
    + intros x y Hx Hy; eapply rt_trans; [apply reachable_sym; [exact HdH|apply HvH; exact Hx]|].
      apply HvH; exact Hy.
    + intros w L Hw HL HLr.
      destruct (components_from_cover g Hwf (nodes g) [] w (fun x Hx => Hx) Hw)
        as [[]|[c [Hc Hwc]]].
      destruct (components_from_in g (nodes g) [] c Hc) as [u [Hu ->]].
      destruct (plain_bfs_spec g u Hwf Hu) as [[HNDu _] Hcu].
      apply Nat.le_trans with (List.length (plain_bfs g u)).
      * apply NoDup_incl_length; [exact HL|].
        intros x Hx; apply Hcu; apply Hcu in Hwc.
        eapply rt_trans; [exact Hwc|apply HLr; exact Hx].
      * apply Nat.le_trans with (List.length C); [apply HCmax; exact Hc|].
        apply NoDup_incl_length; [exact HND|intros x Hx; apply HnH; exact Hx].
Qed.

Lemma get_connected_graph_undirected_witness :
  graph_wf cc_example_graph /\ directed cc_example_graph = false
  /\ get_connected_graph (fun _ => []) cc_example_graph
     = Ok (mkGraph false [SInt 3; SInt 4; SInt 5]
             [mkEdge (SInt 3) (SInt 4) []; mkEdge (SInt 5) (SInt 4) []])
  /\ exists H v, get_connected_graph (fun _ => []) cc_example_graph = Ok H
       /\ In v (nodes cc_example_graph)
       /\ (forall x, In x (nodes H) <-> reachable cc_example_graph v x).
Proof.
  assert (Hwf : graph_wf cc_example_graph).
  { constructor; simpl.
    - repeat constructor; simpl; intuition discriminate.
    - intros e He; repeat (destruct He as [<-|He]; [simpl; intuition|]); destruct He.
    - repeat split; intros e' He'; repeat (destruct He' as [<-|He']; [vm_compute; reflexivity|]);
        destruct He'.
    - intros e He; repeat (destruct He as [<-|He]; [split; [constructor|intros _ []]|]);
        destruct He. }
  split; [exact Hwf|split; [reflexivity|split; [vm_compute; reflexivity|]]].
  destruct (proj2 (get_connected_graph_undirected (fun _ => []) cc_example_graph Hwf eq_refl)
              ltac:(discriminate)) as [H [v [E [_ [Hv [Hn _]]]]]].
  exists H, v; split; [exact E|split; [exact Hv|exact Hn]].
Defined.

Lemma directed_add_edge : forall g u v a, directed (add_edge g u v a) = directed g.
Proof.
  intros g u v a; unfold add_edge; cbv zeta.
  destruct (existsb _ _); simpl; rewrite !add_node_directed; reflexivity.
Qed.


Definition arg_value_ok (a : argument) (v : scalar) : Prop :=
  v = default a \/ (action a = StoreTrue /\ v = SBool true)
  \/ (action a = Store /\ ((exists s, v = SStr s) \/ v = SList [])).

Definition namespace_ok (ns : namespace) : Prop :=
  map fst ns = map dest parser_arguments
  /\ forall a, In a parser_arguments -> exists v, dict_get ns (dest a) = Some v /\ arg_value_ok a v.

Lemma parser_dest_inj : forall a b, In a parser_arguments -> In b parser_arguments ->
  dest a = dest b -> a = b.
Proof.
  intros a b Ha Hb; simpl in Ha, Hb.
  repeat (destruct Ha as [<-|Ha]); try contradiction;
  repeat (destruct Hb as [<-|Hb]); try contradiction; simpl; intros E;
  try reflexivity; discriminate.
Qed.

Lemma namespace_ok_set : forall ns a v, namespace_ok ns -> In a parser_arguments ->
  arg_value_ok a v -> namespace_ok (dict_set ns (dest a) v).
Proof.
  intros ns a v [Hk Hv] Ha Hav; split.
  - rewrite dict_set_keys.
    assert (Hin : existsb (String.eqb (dest a)) (map fst ns) = true).
    { apply existsb_string_in; rewrite Hk; apply in_map; exact Ha. }
    rewrite Hin; exact Hk.
  - intros b Hb; rewrite dict_get_set.
    destruct (String.eqb_spec (dest b) (dest a)) as [E|E].
    + exists v; split; [reflexivity|].
      rewrite (parser_dest_inj b a Hb Ha E); exact Hav.
    + apply Hv; exact Hb.
Qed.

Lemma has_char_cons : forall c a s,
  has_char c (String a s) = (if ascii_dec a c then true else false) || has_char c s.
Proof. reflexivity. Qed.

Lemma has_char_app : forall c s1 s2, has_char c (s1 ++ s2)%string = has_char c s1 || has_char c s2.
Proof.
  intros c s1 s2; induction s1 as [|a s1 IH]; [reflexivity|].
  simpl append; rewrite !has_char_cons, IH, orb_assoc; reflexivity.
Qed.

Lemma split_eq_some : forall s o e, split_eq s = (o, Some e) -> s = (o ++ String "=" e)%string.
Proof.
  intros s; induction s as [|c s IH]; intros o e H; simpl in H; [discriminate|].
  destruct (ascii_dec c "=") as [->|_]; [injection H as <- <-; reflexivity|].
  destruct (split_eq s) as [o' v] eqn:E; injection H as <- ->.
  rewrite (IH _ _ eq_refl); reflexivity.
Qed.

Lemma has_char_substring : forall c s n m,
  has_char c (substring n m s) = true -> has_char c s = true.
Proof.
  intros c s; induction s as [|a s IH]; intros n m H.
  - destruct n, m; exact H.
  - destruct n as [|n], m as [|m]; simpl in H.
    + discriminate.
    + rewrite has_char_cons in *; apply orb_true_iff in H; apply orb_true_iff.
      destruct H as [H|H]; [left; exact H|right; exact (IH _ _ H)].
    + rewrite has_char_cons; rewrite (IH _ _ H); apply orb_true_r.
    + rewrite has_char_cons; rewrite (IH _ _ H); apply orb_true_r.
Qed.

Lemma option_string_actions_help : forall args p,
  In p (option_string_actions args) -> snd p = HelpAction -> fst p = "-h" \/ fst p = "--help".
Proof.
  intros args p Hin Hp.
  unfold option_string_actions in Hin; apply in_app_or in Hin; destruct Hin as [Hin|Hin].
  - simpl in Hin; destruct Hin as [<-|[<-|[]]]; [left|right]; reflexivity.
  - apply in_concat in Hin; destruct Hin as [l [Hl Hp']].
    apply in_map_iff in Hl; destruct Hl as [a [<- _]].
    apply in_map_iff in Hp'; destruct Hp' as [o [<- _]]; discriminate.
Qed.

(** A prefix of ["--help"] without an ["h"] is at most ["--"]. *)
Lemma prefix_help_cases : forall p,
  String.prefix p "--help" = true -> has_char "h" p = false -> p = "" \/ p = "-" \/ p = "--".
Proof.
  intros [|a1 [|a2 [|a3 p]]] H Hh; [left; reflexivity| | |];
    simpl in H; repeat (destruct (ascii_dec _ _) as [E|]; [subst|discriminate]); 
    try (right; left; reflexivity); try (right; right; reflexivity).
  simpl in Hh; discriminate.
Qed.

Lemma prefix_short_help_cases : forall p,
  String.prefix p "-h" = true -> has_char "h" p = false -> p = "" \/ p = "-".
Proof.
  intros [|a1 [|a2 p]] H Hh; [left; reflexivity| |];
    simpl in H; repeat (destruct (ascii_dec _ _) as [E|]; [subst|discriminate]);
    try (right; reflexivity).
  simpl in Hh; discriminate.
Qed.

Lemma split_eq_none : forall s o, split_eq s = (o, None) -> s = o.
Proof.
  intros s; induction s as [|c s IH]; intros o H; simpl in H; [injection H as <-; reflexivity|].
  destruct (ascii_dec c "=") as [_|_]; [discriminate|].
  destruct (split_eq s) as [o' v] eqn:E; injection H as <- ->.
  rewrite (IH _ eq_refl); reflexivity.
Qed.

Lemma split_eq_char : forall c s o v,
  split_eq s = (o, v) -> has_char c o = true -> has_char c s = true.
Proof.
  intros c s o [e|] E H.
  - rewrite (split_eq_some _ _ _ E), has_char_app, H; reflexivity.
  - rewrite (split_eq_none _ _ E); exact H.
Qed.

Lemma get_option_tuples_help : forall s t,
  get_option_tuples parser_arguments s = [t] ->
  (ot_action t = Some HelpAction -> has_char "h" s = true)
  /\ (forall e, ot_explicit t = Some e -> has_char "h" e = true -> has_char "h" s = true).
Proof.
  intros s t H; unfold get_option_tuples in H.
  destruct s as [|c1 [|c2 r]]; try discriminate.
  destruct (is_dash c2) eqn:Ed.
  - destruct (split_eq (String c1 (String c2 r))) as [op ex] eqn:Es.
    assert (Hin : In t (map (fun p => mkOptionTuple (Some (snd p)) (fst p) ex)
                          (filter (fun p => String.prefix op (fst p))
                             (option_string_actions parser_arguments))))
      by (rewrite H; left; reflexivity).
    apply in_map_iff in Hin; destruct Hin as [p [<- Hp]]; apply filter_In in Hp.
    destruct Hp as [Hp Hpre]; split.
    + simpl; intros Ha; injection Ha as Ha.
      destruct (has_char "h" op) eqn:Eh; [exact (split_eq_char _ _ _ _ Es Eh)|].
      destruct (option_string_actions_help _ _ Hp Ha) as [Ef|Ef]; rewrite Ef in Hpre.
      * destruct (prefix_short_help_cases _ Hpre Eh) as [->| ->]; cbv in H; discriminate.
      * destruct (prefix_help_cases _ Hpre Eh) as [->|[->| ->]]; cbv in H; discriminate.
    + simpl; intros e He Hh; subst ex.
      rewrite (split_eq_some _ _ _ Es), has_char_app, has_char_cons, Hh, !orb_true_r; reflexivity.
  - assert (Hin : In t (List.concat (map (fun p =>
              if String.eqb (fst p) (substring 0 2 (String c1 (String c2 r)))
              then [mkOptionTuple (Some (snd p)) (fst p)
                      (Some (substring 2 (String.length (String c1 (String c2 r)))
                               (String c1 (String c2 r))))]
              else if String.prefix (String c1 (String c2 r)) (fst p)
              then [mkOptionTuple (Some (snd p)) (fst p) None] else [])
              (option_string_actions parser_arguments))))
      by (rewrite H; left; reflexivity).
    apply in_concat in Hin; destruct Hin as [l [Hl Ht]].
    apply in_map_iff in Hl; destruct Hl as [p [<- Hp]].
    destruct (String.eqb_spec (fst p) (substring 0 2 (String c1 (String c2 r)))) as [E1|E1].
    + destruct Ht as [<-|[]]; split; simpl.
      * intros Ha; injection Ha as Ha.
        apply (has_char_substring _ _ 0 2); rewrite <- E1.
        destruct (option_string_actions_help _ _ Hp Ha) as [-> | ->]; reflexivity.
      * intros e He Hh; injection He as <-.
        rewrite !has_char_cons, (has_char_substring _ _ _ _ Hh), !orb_true_r; reflexivity.
    + destruct (String.prefix (String c1 (String c2 r)) (fst p)) eqn:E2; [|destruct Ht].
      destruct Ht as [<-|[]]; split; simpl; [|discriminate].
      intros Ha; injection Ha as Ha.
      destruct (option_string_actions_help _ _ Hp Ha) as [Ef|Ef]; rewrite Ef in E2;
        simpl in E2; destruct (ascii_dec c1 "-"); try discriminate;
        destruct (ascii_dec c2 _) as [->|]; try discriminate.
      rewrite !has_char_cons; destruct (ascii_dec c1 "h"); reflexivity.
Qed.

Lemma parse_optional_help_char : forall s t,
  parse_optional parser_arguments s = Ok (Some t) ->
  (ot_action t = Some HelpAction \/ exists e, ot_explicit t = Some e /\ has_char "h" e = true) ->
  String.prefix "-" s = true /\ has_char "h" s = true.
Proof.
  intros s t H Hh; unfold parse_optional in H.
  destruct s as [|c s']; [discriminate|].
  destruct (is_dash c) eqn:Ec; simpl negb in H; [|discriminate].
  assert (Hpre : String.prefix "-" (String c s') = true).
  { unfold is_dash in Ec; destruct (ascii_dec c "-") as [->|]; [destruct s'; reflexivity|discriminate]. }
  split; [exact Hpre|].
  destruct (lookup_option parser_arguments (String c s')) as [a|] eqn:El.
  - injection H as <-; simpl in Hh; destruct Hh as [Ha|[e [He _]]]; [|discriminate].
    injection Ha as ->; destruct (lookup_option_help _ _ El) as [-> | ->]; reflexivity.
  - destruct (Nat.eqb _ 1); [discriminate|].
    assert (Hg : get_option_tuples parser_arguments (String c s') = [t] \/ t.(ot_action) = None
                 /\ t.(ot_explicit) = None -> has_char "h" (String c s') = true).
    { intros [Eg|[Ea Ee]].
      - destruct (get_option_tuples_help _ _ Eg) as [G1 G2].
        destruct Hh as [Ha|[e [He Hhe]]]; [exact (G1 Ha)|exact (G2 e He Hhe)].
      - destruct Hh as [Ha|[e [He _]]]; congruence. }
    destruct (split_eq (String c s')) as [o [e|]] eqn:Es;
      [destruct (lookup_option parser_arguments o) as [a|] eqn:Eo|].
    + injection H as <-; simpl in Hh; destruct Hh as [Ha|[e' [He Hhe]]].
      * injection Ha as ->; apply (split_eq_char _ _ _ _ Es).
        destruct (lookup_option_help _ _ Eo) as [-> | ->]; reflexivity.
      * injection He as <-.
        rewrite (split_eq_some _ _ _ Es), has_char_app, has_char_cons, Hhe, !orb_true_r; reflexivity.
    + destruct (get_option_tuples parser_arguments (String c s')) as [|t1 [|t2 l]] eqn:Eg;
        try discriminate.
      * apply Hg; right; destruct (_ && _); [discriminate|].
        destruct (has_space _); [discriminate|]; injection H as <-; split; reflexivity.
      * injection H as <-; apply Hg; left; reflexivity.
    + destruct (get_option_tuples parser_arguments (String c s')) as [|t1 [|t2 l]] eqn:Eg;
        try discriminate.
      * apply Hg; right; destruct (_ && _); [discriminate|].
        destruct (has_space _); [discriminate|]; injection H as <-; split; reflexivity.
      * injection H as <-; apply Hg; left; reflexivity.
Qed.

Lemma consume_following_help : forall act rest r l,
  consume_following act rest = Ok r -> In (HelpAction, l) (fst r) -> act = HelpAction.
Proof.
  intros act rest r l H Hin; unfold consume_following in H.
  destruct (arg_count act).
  - injection H as <-; destruct Hin as [E|[]]; injection E as E _; exact E.
  - destruct rest as [|[v [| |t]] rest']; try discriminate.
    injection H as <-; destruct Hin as [E|[]]; injection E as E _; exact E.
Qed.

Lemma consume_explicit_help : forall args e act o rest r l,
  consume_explicit args act o e rest = Ok r -> In (HelpAction, l) (fst r) ->
  act = HelpAction \/ has_char "h" e = true.
Proof.
  intros args e; induction e as [|c e' IH]; intros act o rest r l H Hin; simpl in H.
  - destruct (arg_count act) as [|[|k]]; try discriminate.
    injection H as <-; destruct Hin as [E|[]]; injection E as E _; left; exact E.
  - destruct (arg_count act) as [|[|k]]; try discriminate.
    + destruct (second_is_dash o); [discriminate|].
      destruct (lookup_option args _) as [act'|] eqn:El; [|discriminate].
      destruct (match e' with EmptyString => _ | _ => _ end) as [r'|e0] eqn:Er;
        cbn [bind] in H; [|discriminate].
      injection H as <-; destruct Hin as [E|Hin]; [injection E as E _; left; exact E|].
      right; rewrite has_char_cons.
      assert (Hc : act' = HelpAction -> c = "h"%char).
      { intros ->; destruct (lookup_option_help _ _ El) as [E|E]; [injection E as ->; reflexivity|discriminate]. }
      destruct e' as [|c' e''].
      * rewrite (Hc (consume_following_help _ _ _ _ Er Hin)); reflexivity.
      * destruct (IH _ _ _ _ _ Er Hin) as [Ha|Hh].
        -- rewrite (Hc Ha); reflexivity.
        -- rewrite Hh, orb_true_r; reflexivity.
    + injection H as <-; destruct Hin as [E|[]]; injection E as E _; left; exact E.
Qed.

Lemma take_actions_help : forall ns ts e, take_actions ns ts = Err e ->
  exists l, In (HelpAction, l) ts.
Proof.
  intros ns ts; revert ns; induction ts as [|t ts IH]; intros ns e H; simpl in H; [discriminate|].
  destruct (take_action ns t) as [ns'|e'] eqn:Et; cbn [bind] in H.
  - destruct (IH _ _ H) as [l Hl]; exists l; right; exact Hl.
  - unfold take_action in Et; destruct t as [[|a] l]; simpl in Et.
    + exists l; left; reflexivity.
    + destruct (action a); discriminate.
Qed.

Lemma consume_args_help : forall args n toks ns extras,
  (List.length toks <= n)%nat -> consume_args args toks ns extras = Err (SystemExit 0) ->
  exists s t, In (s, TOpt t) toks
    /\ (ot_action t = Some HelpAction \/ exists e, ot_explicit t = Some e /\ has_char "h" e = true).
Proof.
  intros args n; induction n as [|n IH]; intros toks ns extras Hn H.
  - destruct toks; [discriminate|simpl in Hn; lia].
  - destruct toks as [|[s k] rest]; [discriminate|]; simpl in Hn.
    assert (Hrest : forall toks', (List.length toks' <= n)%nat -> (forall x, In x toks' -> In x rest) ->
              forall ns' ex', consume_args args toks' ns' ex' = Err (SystemExit 0) ->
              exists s' t, In (s', TOpt t) ((s, k) :: rest)
                /\ (ot_action t = Some HelpAction
                    \/ exists e, ot_explicit t = Some e /\ has_char "h" e = true)).
    { intros toks' Hl Hsub ns' ex' H'.
      destruct (IH _ _ _ Hl H') as [s' [t' [Hin Ht']]].
      exists s', t'; split; [right; apply Hsub; exact Hin|exact Ht']. }
    simpl in H; destruct k as [| |[[act|] o ex]];
      try (eapply Hrest; [| |exact H]; [lia|intros x Hx; exact Hx]).
    destruct (match ex with None => _ | Some _ => _ end) as [r|e'] eqn:Er; cbn [bind] in H.
    + destruct (take_actions ns (fst r)) as [ns'|e'] eqn:Et; cbn [bind] in H.
      * destruct (snd r); [destruct rest as [|x rest']|].
        -- eapply Hrest; [| |exact H]; [simpl in *; lia|intros y Hy; exact Hy].
        -- eapply Hrest; [| |exact H]; [simpl in *; lia|intros y Hy; right; exact Hy].
        -- eapply Hrest; [| |exact H]; [simpl in *; lia|intros y Hy; exact Hy].
      * injection H as ->; destruct (take_actions_help _ _ _ Et) as [l Hl].
        exists s, (mkOptionTuple (Some act) o ex); split; [left; reflexivity|simpl].
        destruct ex as [e|].
        -- destruct (consume_explicit_help _ _ _ _ _ _ _ Er Hl) as [->|Hh];
             [left; reflexivity|right; exists e; split; [reflexivity|exact Hh]].
        -- left; rewrite (consume_following_help _ _ _ _ Er Hl); reflexivity.
    + injection H as ->; destruct ex.
      * discriminate (consume_explicit_err _ _ _ _ _ _ Er).
      * discriminate (consume_following_err _ _ _ Er).
Qed.

Lemma parse_args_help_origin : forall argv,
  parse_args argv = Err (SystemExit 0) ->
  exists t, In t argv /\ String.prefix "-" t = true /\ has_char "h" t = true.
Proof.
  intros argv H; unfold parse_args, parse_args_of in H.
  destruct (classify parser_arguments argv) as [toks|e] eqn:Ec; cbn [bind] in H;
    [|injection H as ->; discriminate (classify_err _ _ _ Ec)].
  destruct (consume_args parser_arguments toks _ []) as [r|e] eqn:Ea; cbn [bind] in H.
  - destruct (snd r); discriminate.
  - injection H as ->.
    destruct (consume_args_help _ _ _ _ _ (le_n _) Ea) as [s [t [Hin Ht]]].
    destruct (classify_opt _ _ _ _ _ Ec Hin) as [Hs Hp].
    exists s; split; [exact Hs|exact (parse_optional_help_char _ _ Hp Ht)].
Qed.

Lemma parse_args_help_first : forall h rest,
  In h ["-h"; "--h"; "--he"; "--hel"; "--help"] ->
  parse_args (h :: rest)
  = match classify parser_arguments rest with
    | Ok _ => Err (SystemExit 0)
    | Err e => Err e
    end.
Proof.
  intros h rest Hh.
  assert (Ep : exists o, parse_optional parser_arguments h
                         = Ok (Some (mkOptionTuple (Some HelpAction) o None))).
  { simpl in Hh; repeat (destruct Hh as [<-|Hh]; [eexists; vm_compute; reflexivity|]); destruct Hh. }
  assert (Ed : String.eqb h "--" = false).
  { simpl in Hh; repeat (destruct Hh as [<-|Hh]; [reflexivity|]); destruct Hh. }
  destruct Ep as [o Ep].
  unfold parse_args, parse_args_of; cbn [classify]; rewrite Ed, Ep; cbn [bind].
  destruct (classify parser_arguments rest); reflexivity.
Qed.

Lemma namespace_ok_take_action : forall ns t ns',
  tuple_ok parser_arguments t -> namespace_ok ns -> take_action ns t = Ok ns' -> namespace_ok ns'.
Proof.
  intros ns [act l] ns' [Hv Hl] Hns H; unfold take_action in H; simpl in *.
  destruct act as [|a]; [discriminate|]; simpl in Hl.
  destruct (action a) eqn:Ea; injection H as <-; apply namespace_ok_set; try assumption.
  - right; right; split; [exact Ea|].
    destruct l as [|v [|w l]]; try discriminate; unfold store_value; cbn [remove_first snd].
    destruct (String.eqb "--" v); [right|left; exists v]; reflexivity.
  - right; left; split; [exact Ea|reflexivity].
Qed.

(** [X10]. [arg_parse] of scripts/create_metabolic_network.py (argparse
    of Python 3.11) either exits or returns a namespace. It exits with 0
    only for the help action, taken from a string that starts with ["-"]
    and holds an ["h"] ([-h], [--help], an abbreviation such as [--he], or
    a chain such as [-dh]); with [-h], [--help] or an abbreviation of it
    first, it exits with 0 as soon as the other strings scan; every other
    error exits with 2. A namespace has exactly the eight destinations of
    the arguments, in order, each holding its default, [True] for a flag,
    or for an option with a value a string, or the empty list when the
    value is ["--"]. *)
Theorem parse_args_outcome : forall argv,
  (forall e, parse_args argv = Err e -> e = SystemExit 0 \/ e = SystemExit 2)
  /\ (parse_args argv = Err (SystemExit 0) ->
      exists t, In t argv /\ String.prefix "-" t = true /\ has_char "h" t = true)
  /\ (forall h rest, In h ["-h"; "--h"; "--he"; "--hel"; "--help"] -> argv = h :: rest ->
      (parse_args argv = Err (SystemExit 0)
       <-> exists toks, classify parser_arguments rest = Ok toks))
  /\ (forall ns, parse_args argv = Ok ns ->
        map fst ns = map dest parser_arguments
        /\ forall a, In a parser_arguments ->
             exists v, dict_get ns (dest a) = Some v
               /\ (v = default a \/ (action a = StoreTrue /\ v = SBool true)
                   \/ (action a = Store /\ ((exists s, v = SStr s) \/ v = SList [])))).
Proof.
  intros argv; split; [|split; [|split]].
  - intros e; apply parse_args_of_err.
  - apply parse_args_help_origin.
  - intros h rest Hh ->; rewrite (parse_args_help_first _ _ Hh).
    destruct (classify parser_arguments rest) as [toks|e] eqn:Ec; split.
    + intros _; exists toks; reflexivity.
    + intros _; reflexivity.
    + intros E; injection E as ->; discriminate (classify_err _ _ _ Ec).
    + intros [toks E]; discriminate E.
  - intros ns Hp.
    refine (parse_args_of_inv parser_arguments namespace_ok namespace_ok_take_action argv ns _ Hp).
    split; [reflexivity|].
    intros a Ha; exists (default a); split; [|left; reflexivity].
    simpl in Ha; repeat (destruct Ha as [<-|Ha]; [reflexivity|]); destruct Ha.
Qed.

Lemma parse_args_outcome_witness :
  let ns := [("input_file", SStr "model.json"); ("output_file", SList []);
             ("file_type", SNone); ("directed", SBool true); ("verbose", SBool false);
             ("reciprocal", SBool true); ("fva_prop", SFloat (95 # 100));
             ("loopless", SBool true)] in
  parse_args ["-dl"; "--input=model.json"; "-o--"] = Ok ns
  /\ parse_args ["-d"; "-x"] = Err (SystemExit 2)
  /\ parse_args ["--he"; "foo"] = Err (SystemExit 0)
  /\ map fst ns = map dest parser_arguments
  /\ (SystemExit 2 = SystemExit 0 \/ SystemExit 2 = SystemExit 2)
  /\ (exists t, In t ["-d"; "-vh"] /\ String.prefix "-" t = true /\ has_char "h" t = true)
  /\ (exists toks, classify parser_arguments ["foo"] = Ok toks).
Proof.
  intros ns.
  assert (E1 : parse_args ["-dl"; "--input=model.json"; "-o--"] = Ok ns)
    by (vm_compute; reflexivity).
  assert (E2 : parse_args ["-d"; "-x"] = Err (SystemExit 2)) by (vm_compute; reflexivity).
  assert (E3 : parse_args ["-d"; "-vh"] = Err (SystemExit 0)) by (vm_compute; reflexivity).
  destruct (parse_args_outcome ["--he"; "foo"]) as [_ [_ [H3 _]]].
  split; [exact E1|split; [exact E2|split; [|split; [|split; [|split]]]]].
  - apply (proj2 (H3 "--he" ["foo"] ltac:(simpl; tauto) eq_refl)).
    eexists; vm_compute; reflexivity.
  - exact (proj1 (proj2 (proj2 (proj2 (parse_args_outcome _))) ns E1)).
  - exact (proj1 (parse_args_outcome _) _ E2).
  - exact (proj1 (proj2 (parse_args_outcome _)) E3).
  - eexists; vm_compute; reflexivity.
Defined.

Lemma fold_add_link_err : forall ls e, fold_left add_link ls (Err e) = Err e.
Proof. induction ls as [|l t IH]; intros e; simpl; [reflexivity|apply IH]. Qed.

Lemma existsb_is_none : forall l, existsb is_none l = true <-> In SNone l.
Proof.
  intros l; rewrite existsb_exists; split.
  - intros [x [Hx E]]; destruct x; try discriminate; exact Hx.
  - intros H; exists SNone; split; [exact H|reflexivity].
Qed.

Lemma add_doc_nodes_spec : forall ds g k,
  add_doc_nodes g k ds
  = if existsb is_none (doc_node_ids k ds) then Err none_node_error
    else Ok (add_nodes g (doc_node_ids k ds)).
Proof.
  induction ds as [|d t IH]; intros g k; simpl; [reflexivity|].
  destruct (is_none (doc_node_id k d)); [reflexivity|].
  rewrite IH; reflexivity.
Qed.

Lemma link_end_not_none : forall l x,
  ~ link_end l SNone -> (dict_get l "source" = Some x \/ dict_get l "target" = Some x) ->
  is_none x = false.
Proof.
  intros l x Hn Hx; destruct x; try reflexivity.
  exfalso; apply Hn; exact Hx.
Qed.

Lemma fold_add_link_ok : forall ls g,
  (forall l, In l ls -> ~ link_end l SNone) ->
  ((exists l, In l ls /\ link_missing_end l) /\ fold_left add_link ls (Ok g) = Err KeyError)
  \/ ((forall l, In l ls -> ~ link_missing_end l)
      /\ exists G, fold_left add_link ls (Ok g) = Ok G /\ directed G = directed g
         /\ forall x, In x (nodes G) <-> In x (nodes g) \/ exists l, In l ls /\ link_end l x).
Proof.
  induction ls as [|l t IH]; intros g Hno; simpl.
  - right; split; [intros _ []|exists g; split; [reflexivity|split; [reflexivity|]]].
    intros x; split; [intros H; left; exact H|intros [H|[_ [[] _]]]; exact H].
  - unfold add_link at 2; cbn [bind]; unfold dict_item.
    destruct (dict_get l "source") as [src|] eqn:Es.
    2:{ left; split; [exists l; split; [left; reflexivity|left; exact Es]|apply fold_add_link_err]. }
    destruct (dict_get l "target") as [tgt|] eqn:Et.
    2:{ left; split; [exists l; split; [left; reflexivity|right; exact Et]|apply fold_add_link_err]. }
    cbn [bind]; unfold add_edge_checked.
    rewrite (link_end_not_none l src (Hno l (or_introl eq_refl)) (or_introl Es)),
      (link_end_not_none l tgt (Hno l (or_introl eq_refl)) (or_intror Et)); cbn [orb].
    destruct (IH (add_edge g src tgt (dict_remove (dict_remove l "source") "target"))
                 (fun l' Hl' => Hno l' (or_intror Hl')))
      as [[[l' [Hl' Hm]] E]|[Hall [G [E [Hd Hn]]]]].
    + left; split; [exists l'; split; [right; exact Hl'|exact Hm]|exact E].
    + right; split.
      * intros l' [<-|Hl']; [unfold link_missing_end; rewrite Es, Et; intros [H|H]; discriminate
                            |apply Hall; exact Hl'].
      * exists G; split; [exact E|split; [rewrite Hd; apply directed_add_edge|]].
        intros x; rewrite Hn, add_edge_nodes_iff; unfold link_end; split.
        -- intros [[H|[->| ->]]|[l' [Hl' H]]]; [left; exact H| | |].
           ++ right; exists l; split; [left; reflexivity|left; exact Es].
           ++ right; exists l; split; [left; reflexivity|right; exact Et].
           ++ right; exists l'; split; [right; exact Hl'|exact H].
        -- intros [H|[l' [[<-|Hl'] H]]]; [left; left; exact H| |right; exists l'; auto].
           rewrite Es, Et in H; destruct H as [H|H]; injection H as <-; auto.
Qed.

Lemma fold_add_link_none : forall ls g,
  (forall l, In l ls -> ~ link_missing_end l) ->
  (exists l, In l ls /\ link_end l SNone) ->
  fold_left add_link ls (Ok g) = Err none_node_error.
Proof.
  induction ls as [|l t IH]; intros g Hall [l0 [Hl0 Hn]]; [destruct Hl0|].
  cbn [fold_left]; unfold add_link at 2; cbn [bind]; unfold dict_item.
  destruct (dict_get l "source") as [src|] eqn:Es;
    [|exfalso; apply (Hall l (or_introl eq_refl)); left; exact Es].
  destruct (dict_get l "target") as [tgt|] eqn:Et;
    [|exfalso; apply (Hall l (or_introl eq_refl)); right; exact Et].
  cbn [bind]; unfold add_edge_checked.
  destruct (is_none src || is_none tgt) eqn:En; [apply fold_add_link_err|].
  apply IH; [intros l' Hl'; apply Hall; right; exact Hl'|].
  destruct Hl0 as [<-|Hl0]; [|exists l0; split; assumption].
  exfalso; apply orb_false_iff in En; destruct En as [E1 E2].
  destruct Hn as [Hn|Hn]; [rewrite Es in Hn|rewrite Et in Hn]; injection Hn as ->; discriminate.
Qed.

(** [X11]. For a document whose [multigraph] key is false, [read_network]
    names each node by its [id], or by its position when it has none. It
    fails with [ValueError("None cannot be a node")] when a node is named
    [None], or, all links having both end points, when a link end is
    [None]. With no [None] node or link end, it fails with [KeyError]
    exactly when a link lacks its [source] or [target]; otherwise it
    returns a graph that is directed as the document's [directed] key says
    (the [directed] argument only when the key is absent) and whose nodes
    are the names of the nodes and the end points of the links. *)
Theorem read_network_links : forall data directed0,
  (exists v, nl_multigraph data = Some v /\ truthy v = false) ->
  (In SNone (doc_node_ids 0 (nl_nodes data)) ->
     read_network data directed0 = Err none_node_error)
  /\ (~ In SNone (doc_node_ids 0 (nl_nodes data)) ->
      (forall l, In l (nl_links data) -> ~ link_end l SNone) ->
      (read_network data directed0 = Err KeyError
         <-> exists l, In l (nl_links data) /\ link_missing_end l)
      /\ ((exists l, In l (nl_links data) /\ link_missing_end l)
          \/ exists G, read_network data directed0 = Ok G
             /\ directed G = match nl_directed data with
                             | Some v => truthy v
                             | None => directed0
                             end
             /\ forall x, In x (nodes G) <->
                  In x (doc_node_ids 0 (nl_nodes data))
                  \/ exists l, In l (nl_links data) /\ link_end l x))
  /\ (~ In SNone (doc_node_ids 0 (nl_nodes data)) ->
      (forall l, In l (nl_links data) -> ~ link_missing_end l) ->
      (exists l, In l (nl_links data) /\ link_end l SNone) ->
      read_network data directed0 = Err none_node_error).
Proof.
  intros data directed0 [v [Hm Hv]]; unfold read_network, node_link_graph.
  rewrite Hm, Hv, add_doc_nodes_spec.
  destruct (existsb is_none (doc_node_ids 0 (nl_nodes data))) eqn:En.
  { apply existsb_is_none in En.
    split; [intros _; reflexivity|split; intros Hn; exfalso; exact (Hn En)]. }
  cbn [bind].
  assert (Hn : ~ In SNone (doc_node_ids 0 (nl_nodes data)))
    by (intros H; apply existsb_is_none in H; congruence).
  split; [intros H; exfalso; exact (Hn H)|split].
  - intros _ Hno.
    match goal with
    | |- context [fold_left add_link _ (Ok ?g0)] => set (g := g0)
    end.
    destruct (fold_add_link_ok (nl_links data) g Hno) as [[Hex E]|[Hall [G [E [Hd HG]]]]];
      rewrite E.
    + split; [split; [intros _; exact Hex|reflexivity]|left; exact Hex].
    + split.
      * split; [discriminate|intros [l [Hl Hmi]]; exfalso; exact (Hall l Hl Hmi)].
      * right; exists G; split; [reflexivity|split].
        -- rewrite Hd; unfold g; rewrite (proj1 (add_nodes_directed_edges _ _)); reflexivity.
        -- intros x; rewrite HG; unfold g; rewrite add_nodes_nodes_iff; simpl.
           tauto.
  - intros _ Hall Hex; apply fold_add_link_none; assumption.
Qed.

Lemma read_network_links_witness :
  read_network broken_link_doc false = Err KeyError
  /\ read_network null_id_doc false = Err none_node_error
  /\ read_network null_link_doc false = Err none_node_error.
Proof.
  assert (Hm : forall data, nl_multigraph data = Some (SBool false) ->
                 exists v, nl_multigraph data = Some v /\ truthy v = false)
    by (intros data E; exists (SBool false); split; [exact E|reflexivity]).
  split; [|split].
  - destruct (read_network_links broken_link_doc false (Hm broken_link_doc eq_refl)) as [_ [H _]].
    assert (Hno : forall l, In l (nl_links broken_link_doc) -> ~ link_end l SNone).
    { intros l Hl; simpl in Hl; unfold link_end.
      repeat (destruct Hl as [<-|Hl]; [simpl; intuition discriminate|]); destruct Hl. }
    apply (proj2 (proj1 (H ltac:(simpl; intuition discriminate) Hno))).
    exists [("source", SStr "B")]; split; [right; left; reflexivity|right; reflexivity].
  - destruct (read_network_links null_id_doc false (Hm null_id_doc eq_refl)) as [H _].
    apply H; simpl; left; reflexivity.
  - destruct (read_network_links null_link_doc false (Hm null_link_doc eq_refl)) as [_ [_ H]].
    apply H.
    + simpl; intuition discriminate.
    + intros l Hl; simpl in Hl; unfold link_missing_end.
      repeat (destruct Hl as [<-|Hl]; [simpl; intuition discriminate|]); destruct Hl.
    + exists [("source", SStr "A"); ("target", SNone)]; split; [left; reflexivity|].
      right; reflexivity.
Defined.


Lemma qlt_spec : forall x y, qlt x y = true -> x < y.
Proof.
  intros x y H; unfold qlt in H; apply negb_true_iff in H.
  apply Qnot_le_lt; intros Hle; apply Qle_bool_iff in Hle; congruence.
Qed.

Definition producing_row (r : row) : Prop :=
  (reversible r = false /\ 0 < coefficient r)
  \/ (reversible r = true /\ 0 < coefficient r /\ 0 < flux_max r)
  \/ (reversible r = true /\ coefficient r < 0 /\ flux_min r < 0).

Definition consuming_row (r : row) : Prop :=
  (reversible r = false /\ coefficient r < 0)
  \/ (reversible r = true /\ 0 < coefficient r /\ flux_min r < 0)
  \/ (reversible r = true /\ coefficient r < 0 /\ 0 < flux_max r).

Lemma source_df_mn_producing : forall df e,
  In e (source_df MetabolicNetwork df) ->
  exists r, In r df /\ e_rxn e = rxn r /\ producing_row r.
Proof.
  intros df e He; destruct (source_df_rows _ _ _ He) as [r [Hr He']].
  exists r; split; [exact Hr|].
  unfold source_of_row, clamp_if in He'; unfold producing_row.
  destruct (negb (reversible r) && qlt 0 (coefficient r)) eqn:E1.
  { destruct He' as [<-|[]]; split; [reflexivity|left].
    apply andb_prop in E1; destruct E1 as [Ev Ec]; apply negb_true_iff in Ev.
    split; [exact Ev|apply qlt_spec; exact Ec]. }
  destruct (reversible r && qlt 0 (coefficient r) && qlt 0 (flux_max r)) eqn:E2.
  { destruct He' as [<-|[]]; split; [reflexivity|right; left].
    apply andb_prop in E2; destruct E2 as [E2 Ef]; apply andb_prop in E2; destruct E2 as [Ev Ec].
    split; [exact Ev|split; apply qlt_spec; assumption]. }
  destruct (reversible r && qlt (coefficient r) 0 && qlt (flux_min r) 0) eqn:E3;
    [|destruct He'].
  destruct He' as [<-|[]]; split; [reflexivity|right; right].
  apply andb_prop in E3; destruct E3 as [E3 Ef]; apply andb_prop in E3; destruct E3 as [Ev Ec].
  split; [exact Ev|split; apply qlt_spec; assumption].
Qed.

Lemma sinks_df_consuming : forall df e,
  In e (sinks_df df) -> exists r, In r df /\ e_rxn e = rxn r /\ consuming_row r.
Proof.
  intros df e He.
  unfold sinks_df, sinks_irreversible_df, reversible_sink_pos_coef_df,
    reversible_sink_neg_coef_df, irreversible_df, reversible_df in He.
  rewrite !in_app_iff in He; unfold consuming_row.
  destruct He as [He|[He|He]]; apply in_map_iff in He; destruct He as [r [<- Hr]];
    rewrite !filter_In in Hr; exists r; (split; [tauto|split; [reflexivity|]]).
  - left; destruct Hr as [[_ Hv] Hc]; apply negb_true_iff in Hv.
    split; [exact Hv|apply qlt_spec; exact Hc].
  - right; left; destruct Hr as [[_ Hv] Hc]; apply andb_prop in Hc.
    split; [exact Hv|split; apply qlt_spec; apply Hc].
  - right; right; destruct Hr as [[_ Hv] Hc]; apply andb_prop in Hc.
    split; [exact Hv|split; apply qlt_spec; apply Hc].
Qed.

Lemma metabolite_candidates_from : forall rw met_name src snk cs c,
  metabolite_candidates rw met_name src snk = Ok cs -> In c cs ->
  c_metabolite c = met_name
  /\ In (c_source c) (map e_rxn src) /\ In (c_sink c) (map e_rxn snk).
Proof.
  intros rw met_name src snk cs c H Hc; unfold metabolite_candidates in H.
  destruct (mapM_in _ _ _ H c Hc) as [p [Hp Ep]].
  destruct (loc_source src (fst p)); cbn [bind] in Ep; [|discriminate].
  injection Ep as <-; destruct p as [x y]; simpl; apply in_prod_iff in Hp.
  split; [reflexivity|exact Hp].
Qed.

Lemma all_candidates_from : forall i rw rows cs c,
  all_candidates i rw rows = Ok cs -> In c cs ->
  exists g, In g (groupby met rows) /\ c_metabolite c = fst g
    /\ In (c_source c) (map e_rxn (source_df i (snd g)))
    /\ In (c_sink c) (map e_rxn (sinks_df (snd g))).
Proof.
  intros i rw rows cs c H Hc; unfold all_candidates in H.
  destruct (mapM _ _) as [css|] eqn:E; cbn [bind] in H; [|discriminate].
  injection H as <-; apply in_concat in Hc; destruct Hc as [cs0 [Hcs0 Hc]].
  destruct (mapM_in _ _ _ E cs0 Hcs0) as [g [Hg Eg]].
  exists g; split; [exact Hg|exact (metabolite_candidates_from _ _ _ _ _ _ Eg Hc)].
Qed.

Lemma resolve_group_member : forall rw k df e,
  resolve_group rw k df = Ok e -> exists c, In c df /\ e = resolved_edge k c.
Proof.
  intros rw k df e H; unfold resolve_group in H.
  destruct df as [|c0 [|c1 t]].
  - simpl in H; discriminate.
  - injection H as <-; exists c0; split; [left|]; reflexivity.
  - destruct (find _ (c0 :: c1 :: t)) as [c|] eqn:Ef; [|discriminate].
    injection H as <-; apply find_some in Ef; exists c; split; [apply Ef|reflexivity].
Qed.

Lemma resolve_edges_member : forall i rw cs es e,
  resolve_edges i rw cs = Ok es -> In e es ->
  exists c, In c cs /\ e = resolved_edge (pair_key c) c.
Proof.
  intros i rw cs es e H He; unfold resolve_edges in H.
  destruct (mapM _ _) as [rs|] eqn:E; cbn [bind] in H; [|discriminate].
  injection H as <-; apply in_concat in He; destruct He as [es0 [Hes0 He]].
  destruct (mapM_in _ _ _ E es0 Hes0) as [[k df] [Hkg Ekg]].
  assert (Hg : exists c, In c df /\ e = resolved_edge k c).
  { assert (Hr : forall es', (e' <- resolve_group rw k df ;; Ok [e']) = Ok es' ->
                            In e es' -> exists c, In c df /\ e = resolved_edge k c).
    { intros es' H' He'.
      destruct (resolve_group rw k df) as [e0|] eqn:Eg; simpl in H'; [|discriminate].
      injection H' as <-; destruct He' as [<-|[]]; exact (resolve_group_member _ _ _ _ Eg). }
    destruct i; [exact (Hr es0 Ekg He)|].
    cbn [resolve_step fst snd] in Ekg.
    destruct (scalar_eqb _ _); [injection Ekg as <-; destruct He|exact (Hr es0 Ekg He)]. }
  destruct Hg as [c [Hc ->]].
  unfold candidate_groups in Hkg; apply in_map_iff in Hkg; destruct Hkg as [k' [Ek _]].
  injection Ek as Ek1 Ek2; subst k df.
  apply filter_In in Hc; destruct Hc as [Hc Ek].
  unfold pair_eqb in Ek; destruct (pair_eq_dec (pair_key c) k') as [<-|]; [|discriminate].
  exists c; split; [exact Hc|reflexivity].
Qed.

Lemma reaction_rows_origin : forall tbl m rowss x,
  mapM (reaction_rows tbl) m = Ok rowss -> In x (List.concat rowss) ->
  exists r c lo hi, In r m /\ In (met x) (map fst (r_metabolites r))
    /\ get_coefficient r (met x) = Ok c /\ fva_loc tbl (r_id r) = Ok (lo, hi)
    /\ x = mkRow (SStr (r_id r)) (met x) (reversibility r) c hi lo.
Proof.
  intros tbl m rowss x H Hx; apply in_concat in Hx; destruct Hx as [rows [Hrows Hx]].
  destruct (mapM_in _ _ _ H rows Hrows) as [r [Hr Er]].
  unfold reaction_rows in Er.
  destruct (mapM_in _ _ _ Er x Hx) as [mc [Hmc Emc]]; cbv zeta in Emc.
  destruct (get_coefficient r (fst mc)) as [c|] eqn:Ec; cbn [bind] in Emc; [|discriminate].
  destruct (fva_loc tbl (r_id r)) as [[lo hi]|] eqn:Ef; cbn [bind] in Emc; [|discriminate].
  injection Emc as <-; exists r, c, lo, hi; simpl.
  split; [exact Hr|split; [apply in_map; exact Hmc|auto]].
Qed.


(** A property of stored edges that an attribute update between edges with
    the same end points keeps holds for every edge of a digraph built by
    [add_edges_from]. *)
Lemma add_edges_from_edge_prop : forall (P : edge -> Prop) es g,
  directed g = true ->
  (forall e0 e1, P e0 -> P e1 -> source e0 = source e1 -> sink e0 = sink e1 ->
     P (mkEdge (source e0) (sink e0) (dict_update (attrs e0) (attrs e1)))) ->
  (forall e, In e (edges g) -> P e) -> (forall e, In e es -> P e) ->
  forall e, In e (edges (add_edges_from g es)) -> P e.
Proof.
  intros P; unfold add_edges_from; induction es as [|e1 t IH]; intros g Hd Hup Hg Hes; simpl.
  - exact Hg.
  - apply IH; [rewrite directed_add_edge; exact Hd|exact Hup| |intros e He; apply Hes; right; exact He].
    assert (P1 : P e1) by (apply Hes; left; reflexivity).
    intros e He; unfold add_edge in He; cbv zeta in He.
    rewrite !add_node_edges, !add_node_directed, Hd in He.
    destruct (existsb _ _); simpl in He; rewrite ?add_node_edges in He.
    + apply in_map_iff in He; destruct He as [e0 [<- He0]].
      destruct (same_pair true (source e1) (sink e1) e0) eqn:Es; [|apply Hg; exact He0].
      unfold same_pair in Es; simpl in Es; rewrite orb_false_r in Es.
      apply andb_prop in Es; destruct Es as [E1 E2].
      destruct (scalar_eqb_spec (source e0) (source e1)) as [S1|]; [|discriminate].
      destruct (scalar_eqb_spec (sink e0) (sink e1)) as [S2|]; [|discriminate].
      apply Hup; [apply Hg; exact He0|exact P1|exact S1|exact S2].
    + apply in_app_iff in He; destruct He as [He|[<-|[]]]; [apply Hg; exact He|].
      destruct e1; exact P1.
Qed.

(** [X12]. Every edge of a directed graph built by metabolic_network.py
    carries exactly the attributes [weight] and [metabolite]; its source is
    a reaction of the model that can produce that metabolite (irreversible
    with a positive coefficient, or reversible with a positive coefficient
    and positive maximum flux or with a negative coefficient and negative
    minimum flux) and its sink one that can consume it (the mirror tests). *)
Theorem directed_edges_producer_to_consumer :
  forall `{Cobra} model_in ft rw lp prop m tbl G,
  get_model model_in ft = Ok m ->
  flux_variability_analysis m lp prop = Ok tbl ->
  create_directed_metabolic_network MetabolicNetwork model_in ft rw lp prop = Ok G ->
  forall e, In e (edges G) ->
    exists w met_name, attrs e = [("weight", SFloat w); ("metabolite", SStr met_name)]
      /\ can_produce tbl m met_name (source e) /\ can_consume tbl m met_name (sink e).
Proof.
  intros C model_in ft rw lp prop m tbl G Hm Hf HG.
  unfold create_directed_metabolic_network in HG; rewrite Hm in HG; cbn [bind] in HG.
  destruct (find_directed_edges_from_model MetabolicNetwork m rw lp prop) as [es|] eqn:Ees;
    cbn [bind] in HG; [|discriminate].
  injection HG as <-.
  unfold find_directed_edges_from_model in Ees; rewrite Hf in Ees; cbn [bind] in Ees.
  destruct (mapM (reaction_rows tbl) m) as [rowss|] eqn:E1; cbn [bind] in Ees; [|discriminate].
  destruct (all_candidates MetabolicNetwork rw (List.concat rowss)) as [cs|] eqn:E2;
    cbn [bind] in Ees; [|discriminate].
  rewrite (mn_source_column _ _ _ _ _ E1 E2) in Ees.
  apply add_edges_from_edge_prop.
  - rewrite (proj1 (add_nodes_directed_edges _ _)); reflexivity.
  - intros e0 e1 [w0 [m0 [A0 _]]] [w1 [m1 [A1 [P1 C1]]]] S1 S2.
    exists w1, m1; simpl; rewrite A0, A1; split; [reflexivity|].
    rewrite S1, S2; split; assumption.
  - rewrite (proj2 (add_nodes_directed_edges _ _)); intros e [].
  - intros e He.
    destruct (resolve_edges_member _ _ _ _ _ Ees He) as [c [Hc ->]].
    destruct (all_candidates_from _ _ _ _ _ E2 Hc) as [g [Hg [Em [Hs Ht]]]].
    pose proof (groupby_in met _ _ Hg) as Eg.
    exists (c_weight c), (c_metabolite c); split; [reflexivity|]; simpl.
    apply in_map_iff in Hs, Ht.
    destruct Hs as [es0 [Es0 Hs]], Ht as [et0 [Et0 Ht]].
    destruct (source_df_mn_producing _ _ Hs) as [x [Hx [Ex Px]]].
    destruct (sinks_df_consuming _ _ Ht) as [y [Hy [Ey Cy]]].
    rewrite Eg in Hx, Hy; apply filter_In in Hx, Hy.
    destruct Hx as [Hx Mx], Hy as [Hy My].
    apply String.eqb_eq in Mx, My.
    split.
    + destruct (reaction_rows_origin _ _ _ _ E1 Hx) as [r [cf [lo [hi [Hr [Hmet [Ec [Ef Ex']]]]]]]].
      exists r, cf, lo, hi; rewrite Em, <- Mx.
      split; [exact Hr|split; [rewrite <- Es0, Ex, Ex'; reflexivity|]].
      split; [exact Hmet|split; [exact Ec|split; [exact Ef|]]].
      unfold producing_row in Px; rewrite Ex' in Px; simpl in Px; exact Px.
    + destruct (reaction_rows_origin _ _ _ _ E1 Hy) as [r [cf [lo [hi [Hr [Hmet [Ec [Ef Ey']]]]]]]].
      exists r, cf, lo, hi; rewrite Em, <- My.
      split; [exact Hr|split; [rewrite <- Et0, Ey, Ey'; reflexivity|]].
      split; [exact Hmet|split; [exact Ec|split; [exact Ef|]]].
      unfold consuming_row in Cy; rewrite Ey' in Cy; simpl in Cy; exact Cy.
Qed.

Lemma directed_edges_producer_to_consumer_witness :
  let G := mkGraph true [SStr "A"; SStr "B"]
             [mkEdge (SStr "A") (SStr "B")
                [("weight", SFloat (np_reciprocal (10 * 2 + epsilon)));
                 ("metabolite", SStr "M")]] in
  @get_model (fixed_fva_cobra spec_example_fva) (InModel spec_example_model) None
    = Ok spec_example_model
  /\ @flux_variability_analysis (fixed_fva_cobra spec_example_fva) spec_example_model
       false (95 # 100) = Ok spec_example_fva
  /\ @create_directed_metabolic_network (fixed_fva_cobra spec_example_fva)
       MetabolicNetwork (InModel spec_example_model) None true false (95 # 100) = Ok G
  /\ exists w met_name,
       [("weight", SFloat (np_reciprocal (10 * 2 + epsilon))); ("metabolite", SStr "M")]
       = [("weight", SFloat w); ("metabolite", SStr met_name)]
       /\ can_produce spec_example_fva spec_example_model met_name (SStr "A")
       /\ can_consume spec_example_fva spec_example_model met_name (SStr "B").
Proof.
  intros G.
  assert (E1 : @get_model (fixed_fva_cobra spec_example_fva) (InModel spec_example_model) None
                 = Ok spec_example_model) by reflexivity.
  assert (E2 : @flux_variability_analysis (fixed_fva_cobra spec_example_fva) spec_example_model
                 false (95 # 100) = Ok spec_example_fva) by reflexivity.
  assert (E3 : @create_directed_metabolic_network (fixed_fva_cobra spec_example_fva)
                 MetabolicNetwork (InModel spec_example_model) None true false (95 # 100) = Ok G)
    by (vm_compute; reflexivity).
  split; [exact E1|split; [exact E2|split; [exact E3|]]].
  exact (directed_edges_producer_to_consumer (InModel spec_example_model) None true false
           (95 # 100) spec_example_model spec_example_fva G E1 E2 E3 _ (or_introl eq_refl)).
Defined.

Lemma restrict_nodes : forall g C x,
  (forall y, In y C -> In y (nodes g)) ->
  In x (nodes (remove_nodes_from g (filter (fun n => negb (mem n C)) (nodes g)))) <-> In x C.
Proof.
  intros g C x HC; unfold remove_nodes_from; cbn [nodes]; rewrite filter_In; split.
  - intros [Hx E]; rewrite mem_removed in E by exact Hx.
    apply mem_In; destruct (mem x C); [reflexivity|discriminate].
  - intros Hx; split; [apply HC; exact Hx|].
    rewrite mem_removed by (apply HC; exact Hx).
    apply mem_In in Hx; rewrite Hx; reflexivity.
Qed.

Lemma restrict_edges : forall g C e, graph_wf g ->
  In e (edges (remove_nodes_from g (filter (fun n => negb (mem n C)) (nodes g))))
  <-> In e (edges g) /\ In (source e) C /\ In (sink e) C.
Proof.
  intros g C e Hwf; unfold remove_nodes_from; cbn [edges]; rewrite filter_In; split.
  - intros [He E]; destruct (wf_ends _ Hwf e He) as [Hse Hte].
    rewrite !mem_removed in E by assumption.
    apply andb_prop in E; destruct E as [E1 E2]; rewrite !negb_involutive in E1, E2.
    apply mem_In in E1, E2; auto.
  - intros [He [H1 H2]]; split; [exact He|].
    destruct (wf_ends _ Hwf e He) as [Hse Hte].
    rewrite !mem_removed by assumption.
    apply mem_In in H1, H2; rewrite H1, H2; reflexivity.
Qed.

(** [X13]. Given that the strongly connected components enumerated for a
    well-formed digraph are, each without repetition, the mutual
    reachability classes of its nodes and cover all of them:
    [get_connected_graph] fails with [ValueError] on a graph without
    nodes, and otherwise returns the digraph restricted to the class of
    some node [x] (its nodes and the edges between them), which is strongly
    connected and has at least as many nodes as any class. *)
Theorem get_connected_graph_directed :
  forall (scc : graph -> list (list scalar)) g, graph_wf g -> directed g = true ->
  (forall c, In c (scc g) -> NoDup c /\ exists x, In x (nodes g)
     /\ forall y, In y c <-> reachable g x y /\ reachable g y x) ->
  (forall w, In w (nodes g) -> exists c, In c (scc g) /\ In w c) ->
  (nodes g = [] ->
     get_connected_graph scc g = Err (ValueError "max() arg is an empty sequence"))
  /\ (nodes g <> [] ->
      exists H x, get_connected_graph scc g = Ok H /\ directed H = true
      /\ In x (nodes g)
      /\ (forall y, In y (nodes H) <-> reachable g x y /\ reachable g y x)
      /\ (forall e, In e (edges H) <->
            In e (edges g) /\ In (source e) (nodes H) /\ In (sink e) (nodes H))
      /\ (forall y z, In y (nodes H) -> In z (nodes H) -> reachable H y z)
      /\ (forall w L, In w (nodes g) -> NoDup L ->
            (forall y, In y L -> reachable g w y /\ reachable g y w) ->
            (List.length L <= List.length (nodes H))%nat)).
Proof.
  intros scc g Hwf Hd Hscc Hcov; unfold get_connected_graph; rewrite Hd; cbn [negb bind].
  split.
  - intros Hn; destruct (scc g) as [|c t] eqn:Es; [reflexivity|exfalso].
    destruct (Hscc c (or_introl eq_refl)) as [_ [x [Hx _]]]; rewrite Hn in Hx; destruct Hx.
  - intros Hn.
    destruct (max_by_len (scc g)) as [C|err] eqn:EC.
    2:{ exfalso; destruct (nodes g) as [|w t] eqn:En; [contradiction|].
        destruct (Hcov w (or_introl eq_refl)) as [c [Hc _]].
        destruct (scc g); [destruct Hc|discriminate]. }
    destruct (max_by_len_spec _ _ EC) as [HCin HCmax].
    destruct (Hscc C HCin) as [HND [x [Hx HC]]].
    assert (HCn : forall y, In y C -> In y (nodes g)).
    { intros y Hy; apply HC in Hy; exact (reach_nodes g x Hwf Hx y (proj1 Hy)). }
    set (H := remove_nodes_from g (filter (fun n => negb (mem n C)) (nodes g))).
    assert (HnH : forall y, In y (nodes H) <-> In y C) by (intros y; apply restrict_nodes; exact HCn).
    assert (HeH : forall e, In e (edges H) <-> In e (edges g) /\ In (source e) C /\ In (sink e) C)
      by (intros e; apply restrict_edges; exact Hwf).
    assert (HdH : directed H = true) by exact Hd.
    exists H, x; split; [reflexivity|split; [exact HdH|split; [exact Hx|split; [|split; [|split]]]]].
    + intros y; rewrite HnH; apply HC.
    + intros e; rewrite HeH, !HnH; reflexivity.
    + intros y z Hy Hz; apply HnH in Hy, Hz.
      assert (Hyx := proj2 (proj1 (HC y) Hy)); assert (Hxy := proj1 (proj1 (HC y) Hy)).
      assert (Hgen : forall u, reachable g y u -> reachable g u x -> reachable H y u).
      { intros u Hyu; apply clos_rt_rtn1 in Hyu.
        induction Hyu as [|v u Hvu Hyv IH]; intros Hux; [apply rt_refl|].
        assert (Hvx : reachable g v x) by (eapply rt_trans; [apply rt_step; exact Hvu|exact Hux]).
        eapply rt_trans; [exact (IH Hvx)|apply rt_step].
        assert (Hv : In v C).
        { apply HC; split; [|exact Hvx].
          eapply rt_trans; [exact Hxy|apply clos_rtn1_rt; exact Hyv]. }
        assert (Hu : In u C).
        { apply HC; split; [|exact Hux].
          eapply rt_trans; [exact Hxy|].
          eapply rt_trans; [apply clos_rtn1_rt; exact Hyv|apply rt_step; exact Hvu]. }
        destruct Hvu as [e [He Hor]]; exists e; split.
        - apply HeH; split; [exact He|].
          destruct Hor as [[<- <-]|[Hd' _]]; [auto|rewrite Hd in Hd'; discriminate].
        - rewrite HdH; destruct Hor as [Hor|[Hd' _]]; [left; exact Hor|rewrite Hd in Hd'; discriminate]. }
      apply Hgen; [|exact (proj2 (proj1 (HC z) Hz))].
      eapply rt_trans; [exact Hyx|exact (proj1 (proj1 (HC z) Hz))].
    + intros w L Hw HL HLr.
      destruct (Hcov w Hw) as [c [Hc Hwc]].
      destruct (Hscc c Hc) as [HNDc [u [Hu Hcu]]].
      apply Nat.le_trans with (List.length c).
      * apply NoDup_incl_length; [exact HL|].
        intros y Hy; destruct (HLr y Hy) as [Hwy Hyw].
        destruct (proj1 (Hcu w) Hwc) as [Huw Hwu].
        apply Hcu; split; eapply rt_trans; eassumption.
      * apply Nat.le_trans with (List.length C); [apply HCmax; exact Hc|].
        apply NoDup_incl_length; [exact HND|intros y Hy; apply HnH; exact Hy].
Qed.

Lemma scc_example_from_C : forall y, reachable scc_example_graph (SStr "C") y -> y = SStr "C".
Proof.
  intros y H; apply clos_rt_rt1n in H; destruct H as [|z w Hz _]; [reflexivity|exfalso].
  destruct Hz as [e [He [[Hs _]|[Hd _]]]]; [|discriminate].
  simpl in He; repeat (destruct He as [<-|He]; [discriminate|]); destruct He.
Qed.

Lemma scc_example_AB : forall u v, In u [SStr "A"; SStr "B"] -> In v [SStr "A"; SStr "B"] ->
  reachable scc_example_graph u v.
Proof.
  assert (AB : reachable scc_example_graph (SStr "A") (SStr "B")).
  { apply rt_step; exists (mkEdge (SStr "A") (SStr "B") []); split; [left; reflexivity|left; auto]. }
  assert (BA : reachable scc_example_graph (SStr "B") (SStr "A")).
  { apply rt_step; exists (mkEdge (SStr "B") (SStr "A") []);
      split; [right; left; reflexivity|left; auto]. }
  intros u v [<-|[<-|[]]] [<-|[<-|[]]]; first [apply rt_refl|assumption].
Qed.

Lemma get_connected_graph_directed_witness :
  graph_wf scc_example_graph /\ directed scc_example_graph = true
  /\ (forall c, In c (scc_example_components scc_example_graph) -> NoDup c
        /\ exists x, In x (nodes scc_example_graph)
        /\ forall y, In y c <-> reachable scc_example_graph x y /\ reachable scc_example_graph y x)
  /\ (forall w, In w (nodes scc_example_graph) ->
        exists c, In c (scc_example_components scc_example_graph) /\ In w c)
  /\ get_connected_graph scc_example_components scc_example_graph
     = Ok (mkGraph true [SStr "A"; SStr "B"]
             [mkEdge (SStr "A") (SStr "B") []; mkEdge (SStr "B") (SStr "A") []])
  /\ exists H x, get_connected_graph scc_example_components scc_example_graph = Ok H
       /\ In x (nodes scc_example_graph)
       /\ (forall y, In y (nodes H) <->
             reachable scc_example_graph x y /\ reachable scc_example_graph y x).
Proof.
  assert (Hwf : graph_wf scc_example_graph).
  { constructor; simpl.
    - repeat constructor; simpl; intuition discriminate.
    - intros e He; repeat (destruct He as [<-|He]; [simpl; intuition|]); destruct He.
    - repeat split; intros e' He'; repeat (destruct He' as [<-|He']; [vm_compute; reflexivity|]);
        destruct He'.
    - intros e He; repeat (destruct He as [<-|He]; [split; [constructor|intros _ []]|]);
        destruct He. }
  assert (Hscc : forall c, In c (scc_example_components scc_example_graph) -> NoDup c
        /\ exists x, In x (nodes scc_example_graph)
        /\ forall y, In y c <-> reachable scc_example_graph x y /\ reachable scc_example_graph y x).
  { intros c [<-|[<-|[]]].
    - split; [repeat constructor; simpl; intuition discriminate|].
      exists (SStr "A"); split; [left; reflexivity|intros y; split].
      + intros Hy; split; apply scc_example_AB; auto; left; reflexivity.
      + intros [Hay Hya].
        assert (Hy := reach_nodes scc_example_graph (SStr "A") Hwf (or_introl eq_refl) y Hay).
        destruct Hy as [<-|[<-|[<-|[]]]]; [left; reflexivity|right; left; reflexivity|].
        apply scc_example_from_C in Hya; discriminate.
    - split; [repeat constructor; intros []|].
      exists (SStr "C"); split; [right; right; left; reflexivity|intros y; split].
      + intros [<-|[]]; split; apply rt_refl.
      + intros [Hcy _]; apply scc_example_from_C in Hcy; left; symmetry; exact Hcy. }
  assert (Hcov : forall w, In w (nodes scc_example_graph) ->
        exists c, In c (scc_example_components scc_example_graph) /\ In w c).
  { intros w [<-|[<-|[<-|[]]]];
      [exists [SStr "A"; SStr "B"]; split; [left; reflexivity|left; reflexivity]
      |exists [SStr "A"; SStr "B"]; split; [left; reflexivity|right; left; reflexivity]
      |exists [SStr "C"]; split; [right; left; reflexivity|left; reflexivity]]. }
  split; [exact Hwf|split; [reflexivity|split; [exact Hscc|split; [exact Hcov|split]]]].
  - vm_compute; reflexivity.
  - destruct (proj2 (get_connected_graph_directed scc_example_components scc_example_graph
                       Hwf eq_refl Hscc Hcov) ltac:(discriminate))
      as [H [x [E [_ [Hx [Hn _]]]]]].
    exists H, x; split; [exact E|split; [exact Hx|exact Hn]].
Defined.

Lemma combinations2_distinct : forall {A : Type} (l : list A) p,
  NoDup l -> In p (combinations2 l) -> fst p <> snd p.
Proof.
  intros A; induction l as [|x t IH]; intros p Hl Hp; simpl in Hp; [destruct Hp|].
  apply NoDup_cons_iff in Hl; destruct Hl as [Hx Ht].
  apply in_app_iff in Hp; destruct Hp as [Hp|Hp].
  - apply in_map_iff in Hp; destruct Hp as [y [<- Hy]]; simpl.
    intros ->; exact (Hx Hy).
  - exact (IH p Ht Hp).
Qed.

Lemma nodup_fst_filter_snd : forall (l : list (scalar * string)) k,
  NoDup l -> NoDup (map fst (filter (fun p => String.eqb (snd p) k) l)).
Proof.
  induction l as [|[x y] t IH]; intros k Hl; simpl; [constructor|].
  apply NoDup_cons_iff in Hl; destruct Hl as [Hx Ht].
  destruct (String.eqb_spec y k) as [->|Hy]; simpl; [|apply IH; exact Ht].
  constructor; [|apply IH; exact Ht].
  intros Hin; apply in_map_iff in Hin; destruct Hin as [[x' y'] [Ex Hin]].
  apply filter_In in Hin; destruct Hin as [Hin Ey]; simpl in Ex, Ey.
  apply String.eqb_eq in Ey; subst; exact (Hx Hin).
Qed.

Lemma NoDup_map_injective : forall {A B : Type} (f : A -> B) (l : list A),
  (forall a b, f a = f b -> a = b) -> NoDup l -> NoDup (map f l).
Proof.
  intros A B f l Hf; induction l as [|x t IH]; intros Hl; simpl; [constructor|].
  apply NoDup_cons_iff in Hl; destruct Hl as [Hx Ht]; constructor; [|exact (IH Ht)].
  intros Hin; apply in_map_iff in Hin; destruct Hin as [y [Ey Hy]].
  rewrite (Hf y x Ey) in Hy; exact (Hx Hy).
Qed.

Lemma rxn_met_pairs_nodup : forall m,
  NoDup (map r_id m) -> (forall r, In r m -> NoDup (map fst (r_metabolites r))) ->
  NoDup (rxn_met_pairs m).
Proof.
  induction m as [|r t IH]; intros Hid Hmet; unfold rxn_met_pairs; simpl; [constructor|].
  apply NoDup_cons_iff in Hid; destruct Hid as [Hr Ht].
  apply NoDup_app; [| apply IH; [exact Ht|intros r' Hr'; apply Hmet; right; exact Hr'] |].
  - assert (Hm := Hmet r (or_introl eq_refl)).
    replace (map (fun mc => (SStr (r_id r), fst mc)) (r_metabolites r))
      with (map (fun k => (SStr (r_id r), k)) (map fst (r_metabolites r)))
      by (rewrite map_map; reflexivity).
    apply NoDup_map_injective; [intros a b E; injection E; auto|exact Hm].
  - intros [x k] H1 H2.
    apply in_map_iff in H1; destruct H1 as [mc [E1 _]]; injection E1 as E1 _.
    apply in_concat in H2; destruct H2 as [l [Hl H2]].
    apply in_map_iff in Hl; destruct Hl as [r' [<- Hr']].
    apply in_map_iff in H2; destruct H2 as [mc' [E2 _]]; injection E2 as E2 _.
    subst x; injection E2 as E2; apply Hr; rewrite <- E2; apply in_map; exact Hr'.
Qed.

(** [X14]. When the reaction ids of the model are distinct and no reaction
    lists a metabolite twice, the undirected graph of metabolic_network.py
    has no edge from a reaction to itself (unlike its directed graph, see
    [C1]). *)
Theorem metabolic_network_undirected_no_self_loops :
  forall `{Cobra} model_in ft m G,
  get_model model_in ft = Ok m ->
  NoDup (map r_id m) -> (forall r, In r m -> NoDup (map fst (r_metabolites r))) ->
  create_metabolic_network MetabolicNetwork model_in ft = Ok G ->
  forall e, In e (edges G) -> source e <> sink e.
Proof.
  intros C model_in ft m G Hm Hid Hmet HG.
  unfold create_metabolic_network in HG; rewrite Hm in HG; cbn [bind] in HG.
  injection HG as <-.
  apply (add_edges_from_edge_ends (fun u v => u <> v)).
  - rewrite (proj2 (add_nodes_directed_edges _ _)); intros e [].
  - intros e He; rewrite find_edges_groups in He.
    apply in_concat in He; destruct He as [es [Hes He]].
    apply in_map_iff in Hes; destruct Hes as [g [<- Hg]].
    unfold group_edges in He; cbv zeta in He.
    apply in_map_iff in He; destruct He as [p [<- Hp]]; simpl.
    apply (combinations2_distinct (map fst (snd g))); [|exact Hp].
    rewrite (groupby_in snd _ _ Hg).
    apply nodup_fst_filter_snd, rxn_met_pairs_nodup; assumption.
Qed.

Lemma metabolic_network_undirected_no_self_loops_witness :
  let G := mkGraph false [SStr "A"; SStr "B"] [mkEdge (SStr "A") (SStr "B") [("metabolite", SStr "M")]] in
  @get_model (fixed_fva_cobra []) (InModel spec_example_model) None = Ok spec_example_model
  /\ NoDup (map r_id spec_example_model)
  /\ (forall r, In r spec_example_model -> NoDup (map fst (r_metabolites r)))
  /\ @create_metabolic_network (fixed_fva_cobra []) MetabolicNetwork
       (InModel spec_example_model) None = Ok G
  /\ SStr "A" <> SStr "B".
Proof.
  intros G.
  assert (E1 : @get_model (fixed_fva_cobra []) (InModel spec_example_model) None
               = Ok spec_example_model) by reflexivity.
  assert (H1 : NoDup (map r_id spec_example_model))
    by (repeat constructor; simpl; intuition discriminate).
  assert (H2 : forall r, In r spec_example_model -> NoDup (map fst (r_metabolites r))).
  { intros r Hr; simpl in Hr; repeat (destruct Hr as [<-|Hr]; [repeat constructor; intros []|]);
      destruct Hr. }
  assert (E2 : @create_metabolic_network (fixed_fva_cobra []) MetabolicNetwork
                 (InModel spec_example_model) None = Ok G) by (vm_compute; reflexivity).
  split; [exact E1|split; [exact H1|split; [exact H2|split; [exact E2|]]]].
  exact (metabolic_network_undirected_no_self_loops (InModel spec_example_model) None
           spec_example_model G E1 H1 H2 E2 _ (or_introl eq_refl)).
Defined.

(* ------------------------------------------------------------------ *)
(** ** Writing and reading back the produced graphs *)

Lemma reaction_nodes_str : forall m x, In x (reaction_nodes m) -> exists s, x = SStr s.
Proof.
  intros m x H; unfold reaction_nodes in H; apply in_map_iff in H.
  destruct H as [r [<- _]]; exists (r_id r); reflexivity.
Qed.

Lemma all_candidates_sources : forall tbl m rowss i rw cs c,
  mapM (reaction_rows tbl) m = Ok rowss ->
  all_candidates i rw (List.concat rowss) = Ok cs -> In c cs ->
  In (c_source c) (reaction_nodes m) \/ c_source c = SInt 0.
Proof.
  intros tbl m rowss i rw cs c Er Ec Hc.
  destruct (all_candidates_ends _ _ _ _ _ Ec Hc) as [g [Hg [Hs _]]].
  pose proof (groupby_in _ _ _ Hg) as Hrows.
  apply in_map_iff in Hs; destruct Hs as [e1 [<- He1]].
  destruct (source_df_rows _ _ _ He1) as [r1 [Hr1 He1']].
  destruct (source_of_row_shape _ _ _ He1') as [[-> | ->] _]; [right; reflexivity|left].
  rewrite Hrows in Hr1; apply filter_In in Hr1.
  eapply reaction_rows_rxn; [exact Er|apply Hr1].
Qed.

(** The directed edges of either implementation join reactions of the
    model, except that a source of reaction_network.py may be the [0] of
    its clamp, a Python int or a numpy [int64]. *)
Lemma find_directed_edges_ends : forall `{Cobra} i m rw lp prop es e,
  find_directed_edges_from_model i m rw lp prop = Ok es -> In e es ->
  (In (source e) (reaction_nodes m) \/ source e = SInt 0 \/ source e = SNpInt 0)
  /\ In (sink e) (reaction_nodes m).
Proof.
  intros C i m rw lp prop es e H He.
  destruct (find_directed_edges_parts _ _ _ _ _ _ H) as [tbl [rowss [cs [Er [Ec Es]]]]].
  destruct (resolve_edges_ends _ _ _ _ _ Es He) as [c' [Hc' Ek]].
  destruct (source_column_in _ _ Hc') as [c [Hc [Hsrc Hsnk]]].
  unfold pair_key in Ek; injection Ek as -> ->; rewrite Hsnk.
  split.
  - destruct (all_candidates_sources _ _ _ _ _ _ _ Er Ec Hc) as [H1|H1].
    + left; destruct Hsrc as [-> | ->]; [exact H1|rewrite (reaction_nodes_int64 _ _ H1); exact H1].
    + right; destruct Hsrc as [-> | ->]; rewrite H1; [left|right]; reflexivity.
  - destruct (all_candidates_ends _ _ _ _ _ Ec Hc) as [g [Hg [_ Ht]]].
    pose proof (groupby_in _ _ _ Hg) as Hrows.
    apply in_map_iff in Ht; destruct Ht as [e2 [<- He2]].
    destruct (sinks_df_rxn _ _ He2) as [r2 [Hr2 ->]].
    rewrite Hrows in Hr2; apply filter_In in Hr2.
    eapply reaction_rows_rxn; [exact Er|apply Hr2].
Qed.

Lemma add_edges_from_nodes_iff : forall es g x,
  In x (nodes (add_edges_from g es))
  <-> In x (nodes g) \/ exists e, In e es /\ (x = source e \/ x = sink e).
Proof.
  unfold add_edges_from; induction es as [|e t IH]; intros g x; simpl.
  - split; [intros H; left; exact H|intros [H|[_ [[] _]]]; exact H].
  - rewrite IH, add_edge_nodes_iff; split.
    + intros [[H|[H|H]]|[e' [He' H]]];
        [left; exact H|right; exists e; auto|right; exists e; auto|right; exists e'; auto].
    + intros [H|[e' [[<-|He'] H]]]; [left; left; exact H|left; right; exact H|].
      right; exists e'; auto.
Qed.

(** The nodes of an undirected graph are reaction ids. *)
Lemma created_graph_nodes : forall `{Cobra} i model_in ft G,
  create_metabolic_network i model_in ft = Ok G ->
  forall x, In x (nodes G) -> exists s, x = SStr s.
Proof.
  intros C i model_in ft G H x Hx; unfold create_metabolic_network in H.
  destruct (get_model model_in ft) as [m|]; cbn [bind] in H; [|discriminate].
  injection H as <-.
  apply add_edges_from_nodes_iff in Hx; rewrite add_nodes_nodes_iff in Hx.
  destruct Hx as [[[]|Hx]|[e [He [->| ->]]]];
    [exact (reaction_nodes_str _ _ Hx)
    |exact (reaction_nodes_str _ _ (proj1 (find_edges_ends _ _ _ He)))
    |exact (reaction_nodes_str _ _ (proj2 (find_edges_ends _ _ _ He)))].
Qed.

(** The nodes of a directed graph are reaction ids, and for
    reaction_network.py also the [0] of the clamp. *)
Lemma created_directed_graph_nodes : forall `{Cobra} i model_in ft rw lp prop G,
  create_directed_metabolic_network i model_in ft rw lp prop = Ok G ->
  forall x, In x (nodes G) ->
    (exists s, x = SStr s) \/ (i = ReactionNetwork /\ (x = SInt 0 \/ x = SNpInt 0)).
Proof.
  intros C i model_in ft rw lp prop G H x Hx; unfold create_directed_metabolic_network in H.
  destruct (get_model model_in ft) as [m|]; cbn [bind] in H; [|discriminate].
  destruct (find_directed_edges_from_model i m rw lp prop) as [es|] eqn:Ees;
    cbn [bind] in H; [|discriminate].
  injection H as <-.
  apply add_edges_from_nodes_iff in Hx; rewrite add_nodes_nodes_iff in Hx.
  destruct Hx as [[[]|Hx]|[e [He [->| ->]]]].
  - left; exact (reaction_nodes_str _ _ Hx).
  - destruct i.
    + left; exact (reaction_nodes_str _ _ (proj1 (find_directed_edges_ends_mn _ _ _ _ _ _ Ees He))).
    + destruct (proj1 (find_directed_edges_ends _ _ _ _ _ _ _ Ees He)) as [H1|H1];
        [left; exact (reaction_nodes_str _ _ H1)|right; split; [reflexivity|exact H1]].
  - left; exact (reaction_nodes_str _ _ (proj2 (find_directed_edges_ends _ _ _ _ _ _ _ Ees He))).
Qed.

Lemma json_dict_ok_set : forall d k v,
  json_dict_ok d = true -> json_value_ok v = true -> json_dict_ok (dict_set d k v) = true.
Proof.
  unfold json_dict_ok; induction d as [|[k' v'] t IH]; intros k v Hd Hv; simpl in *.
  - rewrite Hv; reflexivity.
  - apply andb_prop in Hd; destruct Hd as [H1 H2].
    destruct (String.eqb k k'); simpl; [rewrite Hv, H2; reflexivity|].
    rewrite H1, IH by assumption; reflexivity.
Qed.

Lemma json_dict_ok_update : forall new d,
  json_dict_ok d = true -> json_dict_ok new = true -> json_dict_ok (dict_update d new) = true.
Proof.
  unfold dict_update; induction new as [|[k v] t IH]; intros d Hd Hn; simpl; [exact Hd|].
  unfold json_dict_ok in Hn; simpl in Hn; apply andb_prop in Hn; destruct Hn as [H1 H2].
  apply IH; [apply json_dict_ok_set; assumption|exact H2].
Qed.

Lemma add_edge_attrs_json : forall g u v a,
  (forall e, In e (edges g) -> json_dict_ok (attrs e) = true) -> json_dict_ok a = true ->
  forall e, In e (edges (add_edge g u v a)) -> json_dict_ok (attrs e) = true.
Proof.
  intros g u v a Hg Ha e He; unfold add_edge in He; cbv zeta in He.
  destruct (existsb _ _); simpl in He; rewrite !add_node_edges in He.
  - apply in_map_iff in He; destruct He as [e0 [<- He0]].
    destruct (same_pair _ u v e0); simpl;
      [apply json_dict_ok_update; [apply Hg; exact He0|exact Ha]|apply Hg; exact He0].
  - apply in_app_iff in He; destruct He as [He|[<-|[]]]; [apply Hg; exact He|exact Ha].
Qed.

Lemma add_edges_from_attrs_json : forall es g,
  (forall e, In e (edges g) -> json_dict_ok (attrs e) = true) ->
  (forall e, In e es -> json_dict_ok (attrs e) = true) ->
  forall e, In e (edges (add_edges_from g es)) -> json_dict_ok (attrs e) = true.
Proof.
  unfold add_edges_from; induction es as [|e1 t IH]; intros g Hg Hes; simpl; [exact Hg|].
  apply IH; [|intros e He; apply Hes; right; exact He].
  apply add_edge_attrs_json; [exact Hg|apply Hes; left; reflexivity].
Qed.

(** The attribute values of the produced graphs, floats and strings, are
    all JSON serializable. *)
Lemma created_graph_attrs_json : forall `{Cobra} i model_in ft rw lp prop G,
  (create_metabolic_network i model_in ft = Ok G
   \/ create_directed_metabolic_network i model_in ft rw lp prop = Ok G) ->
  forall e, In e (edges G) -> json_dict_ok (attrs e) = true.
Proof.
  intros C i model_in ft rw lp prop G [H|H].
  - unfold create_metabolic_network in H.
    destruct (get_model model_in ft) as [m|]; cbn [bind] in H; [|discriminate].
    injection H as <-; apply add_edges_from_attrs_json.
    + rewrite (proj2 (add_nodes_directed_edges _ _)); intros e [].
    + intros e He; unfold find_edges_from_model in He.
      apply in_concat in He; destruct He as [es [Hes He]].
      apply in_map_iff in Hes; destruct Hes as [g [<- _]].
      apply in_map_iff in He; destruct He as [p [<- _]]; reflexivity.
  - unfold create_directed_metabolic_network in H.
    destruct (get_model model_in ft) as [m|]; cbn [bind] in H; [|discriminate].
    destruct (find_directed_edges_from_model i m rw lp prop) as [es|] eqn:Ees;
      cbn [bind] in H; [|discriminate].
    injection H as <-; apply add_edges_from_attrs_json.
    + rewrite (proj2 (add_nodes_directed_edges _ _)); intros e [].
    + intros e He.
      destruct (find_directed_edges_parts _ _ _ _ _ _ Ees) as [tbl [rowss [cs [_ [_ Es]]]]].
      destruct (resolve_edges_member _ _ _ _ _ Es He) as [c [_ ->]]; reflexivity.
Qed.

Lemma write_network_ok : forall g,
  graph_wf g -> (forall e, In e (edges g) -> json_dict_ok (attrs e) = true) ->
  (forall x, In x (nodes g) -> json_value_ok x = true) ->
  write_network g = Ok (node_link_data g).
Proof.
  intros g Hwf Ha Hn; unfold write_network, json_dump, node_link_data, node_link_data_of.
  cbn [nl_directed nl_multigraph nl_graph nl_nodes nl_links json_option_ok json_value_ok].
  replace (forallb json_dict_ok (map (fun n => [("id", n)]) (nodes g))) with true.
  2:{ symmetry; apply forallb_forall; intros d Hd; apply in_map_iff in Hd.
      destruct Hd as [x [<- Hx]]; unfold json_dict_ok; simpl; rewrite (Hn x Hx); reflexivity. }
  replace (forallb json_dict_ok (map link_of (edges g))) with true.
  2:{ symmetry; apply forallb_forall; intros d Hd; apply in_map_iff in Hd.
      destruct Hd as [e [<- He]]; unfold link_of.
      destruct (wf_ends g Hwf e He) as [Hs Ht].
      apply json_dict_ok_update; [exact (Ha e He)|].
      unfold json_dict_ok; simpl; rewrite (Hn _ Hs), (Hn _ Ht); reflexivity. }
  reflexivity.
Qed.

Lemma write_network_npint : forall g z,
  In (SNpInt z) (nodes g) -> write_network g = Err TypeError.
Proof.
  intros g z Hz; unfold write_network, json_dump, node_link_data, node_link_data_of.
  cbn [nl_directed nl_multigraph nl_graph nl_nodes nl_links json_option_ok json_value_ok].
  replace (forallb json_dict_ok (map (fun n => [("id", n)]) (nodes g))) with false.
  2:{ symmetry; apply not_true_iff_false; intros E; rewrite forallb_forall in E.
      specialize (E [("id", SNpInt z)] (in_map (fun n => [("id", n)]) _ _ Hz)).
      discriminate E. }
  reflexivity.
Qed.

(** [X15]. Every graph built by either implementation, directed or
    undirected, that has no numpy [int64] node is written by
    [write_network] as its node-link document and read back by
    [read_network] unchanged, whatever the [directed] default of the
    reader: same [directed] flag, same nodes, same edges with the same
    attribute dicts. Read from a document that lists the edges in another
    order (or an undirected edge reversed), it gives the same nodes and
    flag and exactly the listed edges. A graph with a numpy [int64] node is
    not written: [json.dump] raises [TypeError]. The undirected graphs and
    the graphs of metabolic_network.py have no such node. *)
Theorem produced_graphs_roundtrip : forall `{Cobra} i model_in ft rw lp prop G,
  (create_metabolic_network i model_in ft = Ok G
   \/ create_directed_metabolic_network i model_in ft rw lp prop = Ok G) ->
  ((forall z, ~ In (SNpInt z) (nodes G)) ->
     write_network G = Ok (node_link_data G)
     /\ forall directed0, read_network (node_link_data G) directed0 = Ok G)
  /\ ((exists z, In (SNpInt z) (nodes G)) -> write_network G = Err TypeError)
  /\ (forall l directed0, edge_listing (directed G) l (edges G) ->
      read_network (node_link_data_of G l) directed0
      = Ok (mkGraph (directed G) (nodes G) l))
  /\ ((create_metabolic_network i model_in ft = Ok G \/ i = MetabolicNetwork) ->
      forall z, ~ In (SNpInt z) (nodes G)).
Proof.
  intros C i model_in ft rw lp prop G HG.
  assert (Hwf : graph_wf G).
  { destruct HG as [HG|HG];
      [exact (created_graph_wf _ _ _ _ HG)|exact (created_directed_graph_wf _ _ _ _ _ _ _ HG)]. }
  assert (Hnodes : forall x, In x (nodes G) ->
            (exists s, x = SStr s) \/ x = SInt 0 \/ x = SNpInt 0).
  { intros x Hx; destruct HG as [HG|HG].
    - left; exact (created_graph_nodes _ _ _ _ HG x Hx).
    - destruct (created_directed_graph_nodes _ _ _ _ _ _ _ HG x Hx) as [H|[_ H]];
        [left; exact H|right; exact H]. }
  assert (HN : forall x, In x (nodes G) -> x <> SNone).
  { intros x Hx; destruct (Hnodes x Hx) as [[s ->]|[->| ->]]; discriminate. }
  split; [|split; [|split]].
  - intros Hz; split.
    + apply write_network_ok; [exact Hwf|exact (created_graph_attrs_json _ _ _ _ _ _ _ HG)|].
      intros x Hx; destruct x; try reflexivity; exfalso; exact (Hz _ Hx).
    + intros directed0; unfold read_network, node_link_data.
      rewrite (node_link_roundtrip G (edges G) directed0 Hwf HN (edge_listing_refl _ _)).
      destruct G; reflexivity.
  - intros [z Hz]; exact (write_network_npint G z Hz).
  - intros l directed0 Hl; unfold read_network.
    exact (node_link_roundtrip G l directed0 Hwf HN Hl).
  - intros [HU|Hi] z Hz.
    + destruct (created_graph_nodes _ _ _ _ HU _ Hz) as [s E]; discriminate.
    + destruct HG as [HG|HG].
      * destruct (created_graph_nodes _ _ _ _ HG _ Hz) as [s E]; discriminate.
      * destruct (created_directed_graph_nodes _ _ _ _ _ _ _ HG _ Hz) as [[s E]|[Hr _]];
          [discriminate|rewrite Hi in Hr; discriminate].
Qed.

Lemma produced_graphs_roundtrip_witness :
  let G := mkGraph true [SStr "A"; SStr "B"]
             [mkEdge (SStr "A") (SStr "B")
                [("weight", SFloat (np_reciprocal (10 * 2 + epsilon)));
                 ("metabolite", SStr "M")]] in
  @create_directed_metabolic_network (fixed_fva_cobra spec_example_fva)
     MetabolicNetwork (InModel spec_example_model) None true false (95 # 100)
  = Ok G
  /\ write_network G = Ok (node_link_data G)
  /\ read_network (node_link_data G) false = Ok G
  /\ exists G',
       @create_directed_metabolic_network (fixed_fva_cobra noisy_source_fva)
          ReactionNetwork (InModel noisy_source_model) None true false (95 # 100)
       = Ok G'
       /\ write_network G' = Err TypeError.
Proof.
  intros G.
  assert (E : @create_directed_metabolic_network (fixed_fva_cobra spec_example_fva)
                MetabolicNetwork (InModel spec_example_model) None true false (95 # 100)
              = Ok G) by (vm_compute; reflexivity).
  destruct (produced_graphs_roundtrip MetabolicNetwork (InModel spec_example_model)
              None true false (95 # 100) G (or_intror E)) as [H1 _].
  assert (Hz : forall z, ~ In (SNpInt z) (nodes G))
    by (intros z Hz; simpl in Hz; intuition discriminate).
  split; [exact E|split; [exact (proj1 (H1 Hz))|split; [exact (proj2 (H1 Hz) false)|]]].
  eexists; split.
  - vm_compute; reflexivity.
  - match goal with
    | |- write_network ?g = _ =>
        assert (E' : @create_directed_metabolic_network (fixed_fva_cobra noisy_source_fva)
                       ReactionNetwork (InModel noisy_source_model) None true false (95 # 100)
                     = Ok g) by (vm_compute; reflexivity)
    end.
    apply (proj1 (proj2 (produced_graphs_roundtrip ReactionNetwork (InModel noisy_source_model)
                           None true false (95 # 100) _ (or_intror E')))).
    exists 0%Z; simpl; tauto.
Defined.
